(** * SD-TagFilter: the rule model, the filters and the filtering engines

    A shallow embedding of [sd_tagfilter/base.py], [patterns.py],
    [filters.py], [engine.py] and the rule validators of [config.py].

    Conventions.
    - A Python [str] is a [string] of code points below 256; [str.lower]
      and [str.strip] are those of Python on that range.
    - A Python exception is a value of [exn]; code that may raise returns
      a [result].
    - Python's [re] is reached through the interface [ReLibrary]; the
      filters and engines are verified for every implementation of it, and
      [Module Re] models the library where a claim is about matching.
    - Python [int] is [Z]; Python [float] is an exact rational [Q] (rounding
      is not modelled).
    - Python list objects that are shared and updated in place live in a
      [heap] ([gmap] from locations to contents), see [Module Heap]. *)

From Stdlib Require Import ZArith QArith Ascii String List Lia Bool Sorted.
From stdpp Require Import base option gmap strings list fin_maps.

(** ** Exceptions and results *)

Inductive exn : Type :=
| ValueError (msg : string)
| re_error
| AttributeError (msg : string)
| Unmodelled (what : string).

Inductive result (A : Type) : Type :=
| Ok (a : A)
| Raise (e : exn).
Arguments Ok {A} a.
Arguments Raise {A} e.

Definition result_bind {A B} (f : A → result B) (m : result A) : result B :=
  match m with
  | Ok a => f a
  | Raise e => Raise e
  end.

#[global] Instance result_ret : MRet result := @Ok.
#[global] Instance result_mbind : MBind result := @result_bind.

(** ** Python string primitives *)

Module Str.

Definition code (c : ascii) : N := N_of_ascii c.

Definition in_range (lo hi : N) (c : ascii) : bool :=
  ((lo <=? code c) && (code c <=? hi))%N.

(** [str.isspace] on one character. *)
Definition isspace (c : ascii) : bool :=
  in_range 9 13 c || in_range 28 32 c
  || (code c =? 133)%N || (code c =? 160)%N.

(** [str.lower] on one character. *)
Definition lower_char (c : ascii) : ascii :=
  if in_range 65 90 c
     || (in_range 192 222 c && negb (code c =? 215)%N)
  then ascii_of_N (code c + 32)
  else c.

Fixpoint lower (s : string) : string :=
  match s with
  | EmptyString => EmptyString
  | String c s' => String (lower_char c) (lower s')
  end.

Fixpoint lstrip (s : string) : string :=
  match s with
  | EmptyString => EmptyString
  | String c s' => if isspace c then lstrip s' else s
  end.

Fixpoint rstrip (s : string) : string :=
  match s with
  | EmptyString => EmptyString
  | String c s' =>
      match rstrip s' with
      | EmptyString => if isspace c then EmptyString else String c EmptyString
      | r => String c r
      end
  end.

Definition strip (s : string) : string := lstrip (rstrip s).

(** [drop n s] is [s[n:]]. *)
Fixpoint drop (n : nat) (s : string) : string :=
  match n, s with
  | O, _ => s
  | S _, EmptyString => EmptyString
  | S k, String _ s' => drop k s'
  end.

(** [take n s] is [s[:n]]. *)
Fixpoint take (n : nat) (s : string) : string :=
  match n, s with
  | O, _ => EmptyString
  | S _, EmptyString => EmptyString
  | S k, String c s' => String c (take k s')
  end.

(** [sub in s]. *)
Fixpoint contains (sub s : string) : bool :=
  String.prefix sub s
  || match s with
     | EmptyString => false
     | String _ s' => contains sub s'
     end.

(** [s.replace(old, new)] for a non-empty [old]: the occurrences are
    found from the left and do not overlap; [skip] counts the characters
    of the occurrence just replaced that are still to be passed. *)
Fixpoint replace_from (old new : string) (skip : nat) (s : string) : string :=
  match s with
  | EmptyString => EmptyString
  | String c s' =>
      match skip with
      | S k => replace_from old new k s'
      | O =>
          if String.prefix old s
          then new +:+ replace_from old new (String.length old - 1) s'
          else String c (replace_from old new 0 s')
      end
  end.

(** With an empty [old], Python puts [new] before every character and at
    the end. *)
Fixpoint interleave (new s : string) : string :=
  match s with
  | EmptyString => new
  | String c s' => new +:+ String c (interleave new s')
  end.

Definition replace (old new s : string) : string :=
  match old with
  | EmptyString => interleave new s
  | _ => replace_from old new 0 s
  end.

(** [s.split(sep, 1)] for a non-empty [sep]: one part when [sep] does
    not occur, otherwise the text before and after its first
    occurrence. *)
Fixpoint split_1 (sep s : string) : list string :=
  if String.prefix sep s
  then [EmptyString; drop (String.length sep) s]
  else match s with
       | EmptyString => [EmptyString]
       | String c s' =>
           match split_1 sep s' with
           | [a] => [String c a]
           | a :: rest => String c a :: rest
           | [] => []
           end
       end.

End Str.

(** ** The interface to the regular-expression library

    What [patterns.py] and the filters use of Python's [re]: compiled
    pattern objects, [re.compile], [Pattern.search], [Pattern.match],
    [Pattern.sub], [re.sub] and [re.escape].  The filters and the engines
    are stated against this interface; [Module Re] below is a model of it,
    used where a claim is about what a pattern matches. *)

Class ReLibrary : Type := {
  re_Pattern : Type;
  re_Match : Type;
  re_compile : string → Z → result re_Pattern;
  re_Pattern_search : re_Pattern → string → option re_Match;
  re_Pattern_match : re_Pattern → string → option re_Match;
  re_Pattern_sub : re_Pattern → string → string → nat → result string;
  re_sub : string → string → string → result string;
  re_escape : string → string
}.

(** ** The regular-expression library

    [patterns.py] delegates to Python's [re].  [Module Re] models the part
    of it the filters reach with patterns made of literal characters,
    escaped punctuation, [.], [^], [$], capture groups and the greedy
    quantifiers [*], [+], [?] on a single character.  Anything else
    (character classes, alternation, [{m,n}], lazy or possessive
    quantifiers, quantified groups, [(?...)], backslash followed by a letter
    or digit, flags) raises [Unmodelled], about which nothing is stated. *)

Module Re.

Inductive lexeme : Type :=
| LLit (c : ascii)
| LDot | LCaret | LDollar | LOpen | LClose | LStar | LPlus | LQuest.

Definition is_alnum (c : ascii) : bool :=
  Str.in_range 48 57 c || Str.in_range 65 90 c || Str.in_range 97 122 c.

Definition is_ascii_letter (c : ascii) : bool :=
  Str.in_range 65 90 c || Str.in_range 97 122 c.

Definition is_digit (c : ascii) : bool := Str.in_range 48 57 c.

Definition starts_with_quest (s : string) : bool :=
  match s with String "?" _ => true | _ => false end.

Fixpoint lex (s : string) : result (list lexeme) :=
  match s with
  | EmptyString => Ok []
  | String "\" EmptyString => Raise re_error
  | String "\" (String d s') =>
      if is_alnum d then Raise (Unmodelled "backslash sequence")
      else ls ← lex s'; Ok (LLit d :: ls)
  | String c s' =>
      match c with
      | "[" => Raise (Unmodelled "character class")
      | "{" => Raise (Unmodelled "counted repeat")
      | "|" => Raise (Unmodelled "alternation")
      | "(" =>
          if starts_with_quest s' then Raise (Unmodelled "group extension")
          else ls ← lex s'; Ok (LOpen :: ls)
      | _ =>
          ls ← lex s';
          Ok (match c with
              | "." => LDot | "^" => LCaret | "$" => LDollar
              | ")" => LClose | "*" => LStar | "+" => LPlus
              | "?" => LQuest | _ => LLit c
              end :: ls)
      end%char
  end.

Inductive atom : Type := AChar (c : ascii) | AAny.

Inductive token : Type :=
| TAtom (a : atom) | TStar (a : atom) | TPlus (a : atom) | TOpt (a : atom)
| TBol | TEol | TOpen (n : nat) | TClose (n : nat).

(** What precedes the lexeme being read: nothing repeatable ([PNone]: the
    start, an anchor or an opening parenthesis), a quantifier, a closing
    parenthesis, or an atom. *)
Inductive prev : Type := PNone | PQuant | PClose | PAtom.

Definition quantifier_error (p : prev) (l : lexeme) : exn :=
  match p with
  | PNone => re_error
  | PQuant => match l with LStar => re_error | _ => Unmodelled "lazy quantifier" end
  | PClose => Unmodelled "quantified group"
  | PAtom => Unmodelled "quantifier"
  end.

Definition quantify (l : lexeme) (a : atom) : token :=
  match l with
  | LStar => TStar a | LPlus => TPlus a | LQuest => TOpt a | _ => TAtom a
  end.

(** [parse ls p n opened]: [n] groups were opened so far, [opened] lists
    those still open, innermost first.  Returns the tokens and the number
    of groups. *)
Fixpoint parse (ls : list lexeme) (p : prev) (n : nat) (opened : list nat)
    : result (list token * nat) :=
  let atom_then (a : atom) (rest : list lexeme) :=
    match rest with
    | (LStar | LPlus | LQuest) as q :: rest' =>
        '(ts, k) ← parse rest' PQuant n opened; Ok (quantify q a :: ts, k)
    | _ => '(ts, k) ← parse rest PAtom n opened; Ok (TAtom a :: ts, k)
    end in
  match ls with
  | [] => match opened with [] => Ok ([], n) | _ => Raise re_error end
  | LLit c :: rest => atom_then (AChar c) rest
  | LDot :: rest => atom_then AAny rest
  | LCaret :: rest => '(ts, k) ← parse rest PNone n opened; Ok (TBol :: ts, k)
  | LDollar :: rest => '(ts, k) ← parse rest PNone n opened; Ok (TEol :: ts, k)
  | LOpen :: rest =>
      '(ts, k) ← parse rest PNone (S n) (S n :: opened); Ok (TOpen (S n) :: ts, k)
  | LClose :: rest =>
      match opened with
      | [] => Raise re_error
      | g :: opened' =>
          '(ts, k) ← parse rest PClose n opened'; Ok (TClose g :: ts, k)
      end
  | (LStar | LPlus | LQuest) as q :: _ => Raise (quantifier_error p q)
  end.

(** A compiled pattern object. *)
Record Pattern : Type := mkPattern { tokens : list token; groups : nat }.

(** [re.compile(pattern, flags)]. *)
Definition compile (pattern : string) (flags : Z) : result Pattern :=
  if (flags =? 0)%Z then
    ls ← lex pattern;
    '(ts, k) ← parse ls PNone 0 [];
    Ok {| tokens := ts; groups := k |}
  else Raise (Unmodelled "flags").

(** *** Matching *)

Definition atom_matches (a : atom) (c : ascii) : bool :=
  match a with
  | AChar x => Ascii.eqb x c
  | AAny => negb (Ascii.eqb c "010")
  end.

(** [$] without [re.MULTILINE]: at the end of the text, or just before a
    newline that ends the text. *)
Definition at_end (s : string) : bool :=
  match s with
  | EmptyString => true
  | String c EmptyString => Ascii.eqb c "010"
  | _ => false
  end.

(** Group marks: where each open group started, and the span of each
    closed group. *)
Record marks : Type := mkMarks {
  starts : gmap nat nat;
  spans : gmap nat (nat * nat)
}.

Definition no_marks : marks := {| starts := ∅; spans := ∅ |}.

Definition mark_open (n pos : nat) (mk : marks) : marks :=
  {| starts := <[n := pos]> (starts mk); spans := spans mk |}.

Definition mark_close (n pos : nat) (mk : marks) : marks :=
  {| starts := starts mk;
     spans := <[n := (default pos (starts mk !! n), pos)]> (spans mk) |}.

(** The backtracking matcher.  [s] is the text from position [pos] on;
    [accept e rest] decides whether a match ending at [e] with [rest]
    left over is taken.  The first success in the engine's order is
    returned: a quantifier takes as many characters as it can and gives
    them back one at a time. *)
(** A greedy repetition of one atom: as many characters as match are
    taken, then [k] is tried on what is left, giving characters back one
    at a time. *)
Fixpoint star (a : atom) (k : string → nat → option (nat * marks))
    (s : string) (pos : nat) : option (nat * marks) :=
  match s with
  | String c s' =>
      if atom_matches a c then
        match star a k s' (S pos) with
        | Some r => Some r
        | None => k s pos
        end
      else k s pos
  | EmptyString => k s pos
  end.

Fixpoint run (ts : list token) (accept : nat → string → bool)
    (s : string) (pos : nat) (mk : marks) : option (nat * marks) :=
  match ts with
  | [] => if accept pos s then Some (pos, mk) else None
  | TAtom a :: ts' =>
      match s with
      | String c s' =>
          if atom_matches a c then run ts' accept s' (S pos) mk else None
      | EmptyString => None
      end
  | TOpt a :: ts' =>
      match s with
      | String c s' =>
          if atom_matches a c then
            match run ts' accept s' (S pos) mk with
            | Some r => Some r
            | None => run ts' accept s pos mk
            end
          else run ts' accept s pos mk
      | EmptyString => run ts' accept s pos mk
      end
  | TStar a :: ts' => star a (fun s pos => run ts' accept s pos mk) s pos
  | TPlus a :: ts' =>
      match s with
      | String c s' =>
          if atom_matches a c
          then star a (fun s pos => run ts' accept s pos mk) s' (S pos)
          else None
      | EmptyString => None
      end
  | TBol :: ts' => if Nat.eqb pos 0 then run ts' accept s pos mk else None
  | TEol :: ts' => if at_end s then run ts' accept s pos mk else None
  | TOpen n :: ts' => run ts' accept s pos (mark_open n pos mk)
  | TClose n :: ts' => run ts' accept s pos (mark_close n pos mk)
  end.

(** A match object: [m.start()], [m.end()] and the group spans. *)
Record Match : Type := mkMatch {
  m_start : nat;
  m_end : nat;
  m_spans : gmap nat (nat * nat)
}.

Definition accept_any (e : nat) (rest : string) : bool := true.
Definition accept_all (e : nat) (rest : string) : bool :=
  match rest with EmptyString => true | _ => false end.
(** After an empty match, the next one at the same place must not be
    empty. *)
Definition accept_advance (start : nat) (e : nat) (rest : string) : bool :=
  negb (Nat.eqb e start).

Definition match_at (p : Pattern) (accept : nat → string → bool)
    (s : string) (pos : nat) : option Match :=
  match run (tokens p) accept s pos no_marks with
  | Some (e, mk) => Some {| m_start := pos; m_end := e; m_spans := spans mk |}
  | None => None
  end.

(** [Pattern.match(text)]: a match starting at position 0. *)
Definition Pattern_match (p : Pattern) (text : string) : option Match :=
  match_at p accept_any text 0.

(** [Pattern.fullmatch(text)]: a match of the whole text. *)
Definition Pattern_fullmatch (p : Pattern) (text : string) : option Match :=
  match_at p accept_all text 0.

(** [s] is the text from [pos] on: the first position from there at
    which the pattern matches. *)
Fixpoint search_from (p : Pattern) (s : string) (pos : nat) : option Match :=
  match match_at p accept_any s pos with
  | Some m => Some m
  | None =>
      match s with
      | EmptyString => None
      | String _ s' => search_from p s' (S pos)
      end
  end.

(** [Pattern.search(text)]. *)
Definition Pattern_search (p : Pattern) (text : string) : option Match :=
  search_from p text 0.

(** *** Substitution *)

(** A parsed replacement template: literal text and group references. *)
Inductive tpart : Type := Lit (s : string) | GroupRef (n : nat).

Definition digit_value (c : ascii) : nat := N.to_nat (Str.code c - 48).

Definition starts_with_digit (s : string) : bool :=
  match s with String c _ => is_digit c | EmptyString => false end.

(** The escapes a template knows besides group references. *)
Definition template_escape (c : ascii) : option ascii :=
  match c with
  | "a" => Some "007" | "b" => Some "008" | "f" => Some "012"
  | "n" => Some "010" | "r" => Some "013" | "t" => Some "009"
  | "v" => Some "011" | "\" => Some "\"
  | _ => None
  end%char.

(** The template parser of [re]: [groups] is the number of groups of the
    pattern the template is for. *)
Fixpoint parse_template (repl : string) (groups : nat) : result (list tpart) :=
  match repl with
  | EmptyString => Ok []
  | String "\" EmptyString => Raise re_error
  | String "\" (String c s') =>
      if Ascii.eqb c "g" then Raise (Unmodelled "named group reference")
      else if Ascii.eqb c "0" then Raise (Unmodelled "octal escape")
      else if is_digit c then
        if starts_with_digit s' then Raise (Unmodelled "two-digit reference")
        else if (groups <? digit_value c)%nat then Raise re_error
        else ps ← parse_template s' groups; Ok (GroupRef (digit_value c) :: ps)
      else
        match template_escape c with
        | Some x => ps ← parse_template s' groups; Ok (Lit (String x EmptyString) :: ps)
        | None =>
            if is_ascii_letter c then Raise re_error
            else ps ← parse_template s' groups;
                 Ok (Lit (String "\" (String c EmptyString)) :: ps)
        end
  | String c s' => ps ← parse_template s' groups; Ok (Lit (String c EmptyString) :: ps)
  end.

(** [text[a:b]]. *)
Definition slice (a b : nat) (text : string) : string :=
  Str.take (b - a) (Str.drop a text).

(** [m.group(n)], the empty string for a group that took no part. *)
Definition group_text (text : string) (m : Match) (n : nat) : string :=
  match m_spans m !! n with
  | Some (a, b) => slice a b text
  | None => EmptyString
  end.

Fixpoint expand (tmpl : list tpart) (text : string) (m : Match) : string :=
  match tmpl with
  | [] => EmptyString
  | Lit l :: tmpl' => l +:+ expand tmpl' text m
  | GroupRef n :: tmpl' => group_text text m n +:+ expand tmpl' text m
  end.

(** How many substitutions may still be made: [None] is no limit. *)
Definition spend (left : option nat) : option nat :=
  match left with None => None | Some k => Some (pred k) end.

Definition exhausted (left : option nat) : bool :=
  match left with Some O => true | _ => false end.

(** The substitution loop of [Pattern.sub].  [s] is the text from [pos]
    on and [skip] the number of its characters that belong to the match
    just replaced.  At a position the pattern is tried; a match is
    replaced by the expansion of the template and the scan goes on
    behind it; after an empty match the next match at the same position
    must not be empty; where nothing matches the character is copied. *)
Fixpoint sub_walk (p : Pattern) (tmpl : list tpart) (text : string)
    (s : string) (pos skip : nat) (left : option nat) : string :=
  match skip with
  | S k =>
      match s with
      | EmptyString => EmptyString
      | String _ s' => sub_walk p tmpl text s' (S pos) k left
      end
  | O =>
      if exhausted left then s
      else
        match match_at p accept_any s pos with
        | None =>
            match s with
            | EmptyString => EmptyString
            | String c s' => String c (sub_walk p tmpl text s' (S pos) 0 left)
            end
        | Some m =>
            expand tmpl text m +:+
            match s with
            | EmptyString => EmptyString
            | String c s' =>
                if (m_end m =? pos)%nat then
                  if exhausted (spend left) then s
                  else
                    match match_at p (accept_advance pos) s pos with
                    | Some m' =>
                        expand tmpl text m' +:+
                        sub_walk p tmpl text s' (S pos) (m_end m' - S pos)
                          (spend (spend left))
                    | None =>
                        String c (sub_walk p tmpl text s' (S pos) 0 (spend left))
                    end
                else sub_walk p tmpl text s' (S pos) (m_end m - S pos) (spend left)
            end
        end
  end.

(** [Pattern.sub(repl, text, count)]; [count = 0] puts no limit. *)
Definition Pattern_sub (p : Pattern) (repl text : string) (count : nat)
    : result string :=
  tmpl ← parse_template repl (groups p);
  Ok (sub_walk p tmpl text text 0 0 (if (count =? 0)%nat then None else Some count)).

(** The matches [Pattern.finditer(text)] yields, by the same scan. *)
Fixpoint iter_walk (p : Pattern) (s : string) (pos skip : nat) : list Match :=
  match skip with
  | S k =>
      match s with
      | EmptyString => []
      | String _ s' => iter_walk p s' (S pos) k
      end
  | O =>
      match match_at p accept_any s pos with
      | None =>
          match s with
          | EmptyString => []
          | String _ s' => iter_walk p s' (S pos) 0
          end
      | Some m =>
          m ::
          match s with
          | EmptyString => []
          | String _ s' =>
              if (m_end m =? pos)%nat then
                match match_at p (accept_advance pos) s pos with
                | Some m' => m' :: iter_walk p s' (S pos) (m_end m' - S pos)
                | None => iter_walk p s' (S pos) 0
                end
              else iter_walk p s' (S pos) (m_end m - S pos)
          end
      end
  end.

Definition Pattern_finditer (p : Pattern) (text : string) : list Match :=
  iter_walk p text 0 0.

(** [re.sub(pattern, repl, text)]. *)
Definition sub (pattern repl text : string) : result string :=
  p ← compile pattern 0; Pattern_sub p repl text 0.

(** [re.escape] (Python 3.7 and later): a backslash before each character
    that can be special in a pattern; letters, digits and the underscore
    are not among them. *)
Definition is_special (c : ascii) : bool :=
  match c with
  | "(" | ")" | "[" | "]" | "{" | "}" | "?" | "*" | "+" | "-" | "|"
  | "^" | "$" | "\" | "." | "&" | "~" | "#" | " "
  | "009" | "010" | "013" | "011" | "012" => true
  | _ => false
  end%char.

Fixpoint escape (s : string) : string :=
  match s with
  | EmptyString => EmptyString
  | String c s' =>
      if is_special c then String "\" (String c (escape s'))
      else String c (escape s')
  end.

End Re.

(** The model as an instance of the interface. *)
#[global] Instance re_model : ReLibrary := {|
  re_Pattern := Re.Pattern;
  re_Match := Re.Match;
  re_compile := Re.compile;
  re_Pattern_search := Re.Pattern_search;
  re_Pattern_match := Re.Pattern_match;
  re_Pattern_sub := Re.Pattern_sub;
  re_sub := Re.sub;
  re_escape := Re.escape
|}.

(** ** The rule model ([base.py]) *)

(** [FilterType] is a [StrEnum]: its members are the strings below, and a
  rule's [filter_type] field is not validated by the [NamedTuple]. *)
Module FilterType.
Definition PLAIN_KEYWORD : string := "plain_keyword".
Definition WILDCARD : string := "wildcard".
Definition REGEX : string := "regex".
Definition GROUP : string := "group".
Definition REPLACE : string := "replace".
Definition REPLACE_CAPTURE : string := "replace_capture".
End FilterType.

Record FilterRule : Type := mkFilterRule {
  filter_type : string;
  pattern : string;
  priority : Z;
  replacement : option string;
  enabled : bool;
  description : option string
}.

Record GroupFilterRule : Type := mkGroupFilterRule {
  g_filter_type : string;
  patterns : list string;
  g_priority : Z;
  g_enabled : bool;
  g_description : option string
}.

(** [GroupFilterRule.from_list]: no check of any kind is made. *)
Definition GroupFilterRule_from_list (pats : list string) (prio : Z)
    (en : bool) (descr : option string) : result GroupFilterRule :=
  Ok {| g_filter_type := FilterType.GROUP;
        patterns := pats;
        g_priority := prio;
        g_enabled := en;
        g_description := descr |}.

(** [AnyFilterRule = FilterRule | GroupFilterRule]. *)
Inductive AnyFilterRule : Type :=
| Single (r : FilterRule)
| Group (g : GroupFilterRule).

Definition rule_filter_type (r : AnyFilterRule) : string :=
  match r with Single r => filter_type r | Group g => g_filter_type g end.

Definition rule_enabled (r : AnyFilterRule) : bool :=
  match r with Single r => enabled r | Group g => g_enabled g end.

Definition rule_priority (r : AnyFilterRule) : Z :=
  match r with Single r => priority r | Group g => g_priority g end.

(** [rule.pattern]: present on a [FilterRule] only. *)
Definition rule_pattern (r : AnyFilterRule) : result string :=
  match r with
  | Single r => Ok (pattern r)
  | Group _ => Raise (AttributeError "pattern")
  end.

(** [rule.patterns]: present on a [GroupFilterRule] only. *)
Definition rule_patterns (r : AnyFilterRule) : result (list string) :=
  match r with
  | Single _ => Raise (AttributeError "patterns")
  | Group g => Ok (patterns g)
  end.

(** ** [normalize_tag] ([filters.py]) *)

Definition normalize_tag (tag : string) : string :=
  Str.replace " " "_" (Str.lower (Str.strip tag)).

Section Engine.
Context {re : ReLibrary}.

(** ** Pattern utilities ([patterns.py]) *)

(** [PatternCache.get_compiled_pattern]: the [lru_cache] around
    [re.compile] does not change what a call returns or raises. *)
Definition get_compiled_pattern (pattern : string) (flags : Z) : result re_Pattern :=
  re_compile pattern flags.

Definition IGNORECASE : Z := 2.

Definition wildcard_to_regex (pattern : string) : result string :=
  let escaped := re_escape pattern in
  let escaped := Str.replace "\*" ".*" escaped in
  let escaped := Str.replace "\_" "." escaped in
  escaped ← re_sub "\\(.)\\\?" "\1?" escaped;
  Ok ("^" +:+ escaped +:+ "$").

Definition parse_replacement_pattern (pattern : string) : result (string * string) :=
  let msg := "Invalid replacement pattern: " +:+ pattern
             +:+ ". Expected format: 'original||replacement'" in
  if negb (Str.contains "||" pattern) then Raise (ValueError msg)
  else
    match Str.split_1 "||" pattern with
    | [original; replacement] => Ok (Str.strip original, Str.strip replacement)
    | _ => Raise (ValueError msg)
    end.

Definition create_case_insensitive_pattern (pattern : string) : string :=
  "(?i)" +:+ pattern.

Definition match_with_wildcards (text pattern : string) (case_sensitive : bool)
    : result bool :=
  regex_pattern ← wildcard_to_regex pattern;
  let regex_pattern :=
    if negb case_sensitive then create_case_insensitive_pattern regex_pattern
    else regex_pattern in
  let flags := if case_sensitive then 0%Z else IGNORECASE in
  compiled_pattern ← get_compiled_pattern regex_pattern flags;
  Ok (bool_decide (is_Some (re_Pattern_match compiled_pattern text))).

Definition substitute_with_capture (text pattern replacement : string)
    : result string :=
  compiled_pattern ← get_compiled_pattern pattern 0;
  let python_replacement := Str.replace "$" "\" replacement in
  re_Pattern_sub compiled_pattern python_replacement text 0.

(** ** Filters ([filters.py]) *)

(** A filter object: the rule it was built from and what its constructor
    computed.  The constructors do not check which of the two rule types
    they are given. *)
Inductive Filter : Type :=
| PlainKeywordFilter (rule : AnyFilterRule)
| WildcardFilter (rule : AnyFilterRule) (_regex_pattern : string)
| RegexFilter (rule : AnyFilterRule) (_compiled_pattern : re_Pattern)
| GroupFilter (rule : AnyFilterRule)
| ReplaceFilter (rule : AnyFilterRule) (original_pattern replacement : string)
| ReplaceCaptureFilter (rule : AnyFilterRule) (original_pattern replacement : string)
    (_compiled_pattern : re_Pattern).

Definition filter_rule (f : Filter) : AnyFilterRule :=
  match f with
  | PlainKeywordFilter r | WildcardFilter r _ | RegexFilter r _ | GroupFilter r
  | ReplaceFilter r _ _ | ReplaceCaptureFilter r _ _ _ => r
  end.

Definition is_enabled (f : Filter) : bool := rule_enabled (filter_rule f).
Definition get_priority (f : Filter) : Z := rule_priority (filter_rule f).

(** [isinstance(f, BaseFilter)]: every filter but the group filter. *)
Definition is_BaseFilter (f : Filter) : bool :=
  match f with GroupFilter _ => false | _ => true end.

(** [isinstance(f, (ReplaceFilter, ReplaceCaptureFilter))]. *)
Definition is_replace_kind (f : Filter) : bool :=
  match f with ReplaceFilter _ _ _ | ReplaceCaptureFilter _ _ _ _ => true | _ => false end.

(** The filter classes, and what calling one on a rule does. *)
Inductive FilterClass : Type :=
| PlainKeywordFilter_cls | WildcardFilter_cls | RegexFilter_cls
| GroupFilter_cls | ReplaceFilter_cls | ReplaceCaptureFilter_cls.

Definition construct (cls : FilterClass) (rule : AnyFilterRule) : result Filter :=
  match cls with
  | PlainKeywordFilter_cls => Ok (PlainKeywordFilter rule)
  | WildcardFilter_cls =>
      p ← rule_pattern rule;
      rx ← wildcard_to_regex p;
      Ok (WildcardFilter rule rx)
  | RegexFilter_cls =>
      p ← rule_pattern rule;
      c ← get_compiled_pattern p 0;
      Ok (RegexFilter rule c)
  | GroupFilter_cls => Ok (GroupFilter rule)
  | ReplaceFilter_cls =>
      p ← rule_pattern rule;
      '(original, repl) ← parse_replacement_pattern p;
      Ok (ReplaceFilter rule original repl)
  | ReplaceCaptureFilter_cls =>
      p ← rule_pattern rule;
      '(original, repl) ← parse_replacement_pattern p;
      c ← get_compiled_pattern original 0;
      Ok (ReplaceCaptureFilter rule original repl c)
  end.

(** [matches(tag)] of the single-tag filters. *)
Definition matches (f : Filter) (tag : string) : result bool :=
  match f with
  | PlainKeywordFilter rule =>
      let normalized_tag := normalize_tag tag in
      p ← rule_pattern rule; Ok (Str.contains p normalized_tag)
  | WildcardFilter rule _ =>
      p ← rule_pattern rule; match_with_wildcards tag p true
  | RegexFilter _ c => Ok (bool_decide (is_Some (re_Pattern_search c tag)))
  | ReplaceFilter _ original _ => Ok (String.eqb tag original)
  | ReplaceCaptureFilter _ _ _ c => Ok (bool_decide (is_Some (re_Pattern_search c tag)))
  | GroupFilter _ => Raise (Unmodelled "a group filter matches a list of tags")
  end.

(** [GroupFilter._matches_pattern]. *)
Definition _matches_pattern (tag pattern : string) : bool :=
  let normalized_tag := normalize_tag tag in
  Str.contains pattern normalized_tag.

(** The inner loop of [GroupFilter.matches]: [pattern_found] is set at the
    first tag that has the pattern. *)
Fixpoint pattern_found (pattern : string) (tags : list string) : bool :=
  match tags with
  | [] => false
  | tag :: tags' =>
      if _matches_pattern tag pattern then true else pattern_found pattern tags'
  end.

(** [GroupFilter.matches(tags)]: [False] at the first pattern not found. *)
Fixpoint group_matches (pats : list string) (tags : list string) : bool :=
  match pats with
  | [] => true
  | pattern :: pats' =>
      if negb (pattern_found pattern tags) then false else group_matches pats' tags
  end.

(** The inner loop of [GroupFilter.apply]: [should_remove] is set at the
    first pattern the tag has. *)
Fixpoint should_remove (tag : string) (pats : list string) : bool :=
  match pats with
  | [] => false
  | pattern :: pats' =>
      if _matches_pattern tag pattern then true else should_remove tag pats'
  end.

(** The outer loop of [GroupFilter.apply]. *)
Fixpoint group_remove (pats : list string) (tags : list string) : list string :=
  match tags with
  | [] => []
  | tag :: tags' =>
      if negb (should_remove tag pats) then tag :: group_remove pats tags'
      else group_remove pats tags'
  end.

(** [[tag for tag in tags if not self.matches(tag)]]. *)
Fixpoint drop_matching (f : Filter) (tags : list string) : result (list string) :=
  match tags with
  | [] => Ok []
  | tag :: tags' =>
      b ← matches f tag;
      rest ← drop_matching f tags';
      Ok (if (b : bool) then rest else tag :: rest)
  end.

(** The loop of the two replacement filters. *)
Fixpoint replace_matching (f : Filter) (subst : string → result string)
    (tags : list string) : result (list string) :=
  match tags with
  | [] => Ok []
  | tag :: tags' =>
      b ← matches f tag;
      tag' ← (if (b : bool) then subst tag else Ok tag);
      rest ← replace_matching f subst tags';
      Ok (tag' :: rest)
  end.

(** [apply(tags)]. *)
Definition apply (f : Filter) (tags : list string) : result (list string) :=
  if negb (is_enabled f) then Ok tags
  else
    match f with
    | PlainKeywordFilter _ | WildcardFilter _ _ | RegexFilter _ _ =>
        drop_matching f tags
    | GroupFilter rule =>
        pats ← rule_patterns rule;
        if negb (group_matches pats tags) then Ok tags
        else Ok (group_remove pats tags)
    | ReplaceFilter _ _ repl => replace_matching f (fun _ => Ok repl) tags
    | ReplaceCaptureFilter _ original repl _ =>
        replace_matching f (fun tag => substitute_with_capture tag original repl) tags
    end.

(** ** The factory *)

(** [FilterFactory._filter_registry] as the class body sets it. *)
Definition _filter_registry : gmap string FilterClass :=
  <[FilterType.PLAIN_KEYWORD := PlainKeywordFilter_cls]>
  (<[FilterType.WILDCARD := WildcardFilter_cls]>
  (<[FilterType.REGEX := RegexFilter_cls]>
  (<[FilterType.GROUP := GroupFilter_cls]>
  (<[FilterType.REPLACE := ReplaceFilter_cls]>
  (<[FilterType.REPLACE_CAPTURE := ReplaceCaptureFilter_cls]> ∅))))).

(** [FilterFactory.register_filter]. *)
Definition register_filter (filter_type : string) (cls : FilterClass)
    (registry : gmap string FilterClass) : gmap string FilterClass :=
  <[filter_type := cls]> registry.

Definition unknown_filter_type (rule : AnyFilterRule) : exn :=
  ValueError ("Unknown filter type: " +:+ rule_filter_type rule).

(** [FilterFactory.create_filter]. *)
Definition create_filter (registry : gmap string FilterClass) (rule : AnyFilterRule)
    : result Filter :=
  match registry !! rule_filter_type rule with
  | None => Raise (unknown_filter_type rule)
  | Some filter_class => construct filter_class rule
  end.

(** ** The engine ([engine.py]) *)

Record TagFilterEngine : Type := mkEngine {
  rules : list AnyFilterRule;
  filters : list Filter
}.

(** [_create_filters]: the filters of the enabled rules, in order.  A
    [ValueError] of [create_filter] is caught and printed; any other
    exception leaves the loop.  The first component is what was printed. *)
Fixpoint _create_filters (registry : gmap string FilterClass)
    (rs : list AnyFilterRule) : list string * result (list Filter) :=
  match rs with
  | [] => ([], Ok [])
  | rule :: rs' =>
      if rule_enabled rule then
        match create_filter registry rule with
        | Ok filter_instance =>
            let '(out, fs) := _create_filters registry rs' in
            (out, fs ← fs; Ok (filter_instance :: fs))
        | Raise (ValueError e) =>
            let '(out, fs) := _create_filters registry rs' in
            (("Warning: " +:+ e) :: out, fs)
        | Raise e => ([], Raise e)
        end
      else _create_filters registry rs'
  end.

(** [list.sort(key=get_priority, reverse=True)]: descending and stable. *)
Fixpoint insert_by_priority (f : Filter) (l : list Filter) : list Filter :=
  match l with
  | [] => [f]
  | g :: l' =>
      if (get_priority f <? get_priority g)%Z then g :: insert_by_priority f l'
      else f :: l
  end.

Definition _sort_filters_by_priority (fs : list Filter) : list Filter :=
  foldr insert_by_priority [] fs.

(** [TagFilterEngine.__init__]. *)
Definition TagFilterEngine_init (registry : gmap string FilterClass)
    (rs : list AnyFilterRule) : list string * result TagFilterEngine :=
  let '(out, fs) := _create_filters registry rs in
  (out, fs ← fs; Ok {| rules := rs; filters := _sort_filters_by_priority fs |}).

(** The loop of [filter_tags]. *)
Fixpoint filter_loop (fs : list Filter) (current_tags : list string)
    : result (list string) :=
  match fs with
  | [] => Ok current_tags
  | filter_instance :: fs' =>
      if is_enabled filter_instance then
        current_tags ← apply filter_instance current_tags;
        match current_tags with
        | [] => Ok []
        | _ => filter_loop fs' current_tags
        end
      else filter_loop fs' current_tags
  end.

(** [TagFilterEngine.filter_tags]. *)
Definition filter_tags (e : TagFilterEngine) (tags : list string)
    : result (list string) :=
  match tags with
  | [] => Ok tags
  | _ => filter_loop (filters e) tags
  end.

(** [get_filter_count]. *)
Definition get_filter_count (e : TagFilterEngine) : nat :=
  length (List.filter is_enabled (filters e)).

(** *** [MemoryEfficientFilterEngine] *)

(** The loop of [_should_keep_tag]. *)
Fixpoint should_keep_loop (fs : list Filter) (tag : string) : result bool :=
  match fs with
  | [] => Ok true
  | filter_instance :: fs' =>
      if negb (is_enabled filter_instance) then should_keep_loop fs' tag
      else if is_BaseFilter filter_instance then
        b ← matches filter_instance tag;
        if (b : bool) then
          if is_replace_kind filter_instance then Ok false
          else should_keep_loop fs' tag
        else should_keep_loop fs' tag
      else should_keep_loop fs' tag
  end.

Definition _should_keep_tag (e : TagFilterEngine) (tag : string) : result bool :=
  should_keep_loop (filters e) tag.

(** [MemoryEfficientFilterEngine.filter_tags_stream] on the tags the
    generator yields. *)
Fixpoint filter_tags_stream (e : TagFilterEngine) (tags : list string)
    : result (list string) :=
  match tags with
  | [] => Ok []
  | tag :: tags' =>
      b ← _should_keep_tag e tag;
      rest ← filter_tags_stream e tags';
      Ok (if (b : bool) then tag :: rest else rest)
  end.

(** *** [OptimizedTagFilterEngine] *)

Record Stats : Type := mkStats {
  total_processed : Z;
  total_filtered : Z;
  processing_time : Q;
  filter_rate : Q;
  avg_processing_time : Q
}.

(** [Stats()]: the defaults of the model class. *)
Definition Stats_new : Stats :=
  {| total_processed := 0; total_filtered := 0; processing_time := 0%Q;
     filter_rate := 0%Q; avg_processing_time := 0%Q |}.

Record OptimizedTagFilterEngine : Type := mkOptimized {
  base : TagFilterEngine;
  batch_size : Z;
  stats : Stats
}.

(** [OptimizedTagFilterEngine.__init__]; [_precompile_patterns] only fills
    the pattern cache and swallows every exception. *)
Definition OptimizedTagFilterEngine_init (registry : gmap string FilterClass)
    (rs : list AnyFilterRule) (batch_size : Z)
    : list string * result OptimizedTagFilterEngine :=
  let '(out, e) := TagFilterEngine_init registry rs in
  (out, e ← e; Ok {| base := e; batch_size := batch_size; stats := Stats_new |}).

(** [OptimizedTagFilterEngine.filter_tags]; [start_time] and [end_time]
    are the two readings of [time.perf_counter].  When the base method
    raises, the statistics are not touched. *)
Definition optimized_filter_tags (e : OptimizedTagFilterEngine)
    (start_time end_time : Q) (tags : list string)
    : result (list string * OptimizedTagFilterEngine) :=
  let original_count := Z.of_nat (length tags) in
  result ← filter_tags (base e) tags;
  let st := stats e in
  let st :=
    {| total_processed := total_processed st + original_count;
       total_filtered := total_filtered st + (original_count - Z.of_nat (length result));
       processing_time := (processing_time st + (end_time - start_time))%Q;
       filter_rate := filter_rate st;
       avg_processing_time := avg_processing_time st |} in
  Ok (result, {| base := base e; batch_size := batch_size e; stats := st |}).

(** [get_performance_stats]: a copy with the two derived fields set. *)
Definition get_performance_stats (e : OptimizedTagFilterEngine) : Stats :=
  let st := stats e in
  if (total_processed st >? 0)%Z then
    {| total_processed := total_processed st;
       total_filtered := total_filtered st;
       processing_time := processing_time st;
       filter_rate := (inject_Z (total_filtered st) / inject_Z (total_processed st))%Q;
       avg_processing_time := (processing_time st / inject_Z (total_processed st))%Q |}
  else
    {| total_processed := total_processed st;
       total_filtered := total_filtered st;
       processing_time := processing_time st;
       filter_rate := 0%Q;
       avg_processing_time := 0%Q |}.

(** [reset_stats]. *)
Definition reset_stats (e : OptimizedTagFilterEngine) : OptimizedTagFilterEngine :=
  {| base := base e; batch_size := batch_size e; stats := Stats_new |}.

(** *** Notions the properties below are stated with *)

Definition known_kind (registry : gmap string FilterClass) (rule : AnyFilterRule) : bool :=
  bool_decide (is_Some (registry !! rule_filter_type rule)).

(** The warning printed for a rule of an unknown kind. *)
Definition unknown_warning (rule : AnyFilterRule) : string :=
  "Warning: Unknown filter type: " +:+ rule_filter_type rule.

Definition built (registry : gmap string FilterClass) (rule : AnyFilterRule) : option Filter :=
  match create_filter registry rule with Ok f => Some f | Raise _ => None end.

(** [filter_tags_batch]: one [filter_tags] call per batch, each with its
    two clock readings. *)
Fixpoint filter_tags_batch (e : OptimizedTagFilterEngine)
    (tag_batches : list (Q * Q * list string))
    : result (list (list string) * OptimizedTagFilterEngine) :=
  match tag_batches with
  | [] => Ok ([], e)
  | (start_time, end_time, batch) :: rest =>
      '(r, e) ← optimized_filter_tags e start_time end_time batch;
      '(rs, e) ← filter_tags_batch e rest;
      Ok (r :: rs, e)
  end.

Definition tag_count (tagss : list (list string)) : Z := Z.of_nat (length (concat tagss)).

Definition is_drop_rule (r : AnyFilterRule) : bool :=
  match r with
  | Single fr =>
      String.eqb (filter_type fr) FilterType.PLAIN_KEYWORD
      || String.eqb (filter_type fr) FilterType.WILDCARD
      || String.eqb (filter_type fr) FilterType.REGEX
  | Group _ => false
  end.

Definition is_drop_filter (f : Filter) : bool :=
  match f with
  | PlainKeywordFilter _ | WildcardFilter _ _ | RegexFilter _ _ => true
  | _ => false
  end.

End Engine.

(** ** Rule validation ([config.py]) *)

Record GroupFilterRuleConfig : Type := mkGroupConfig {
  c_filter_type : string;
  c_patterns : list string;
  c_priority : Z;
  c_enabled : bool;
  c_description : option string
}.

Module GroupFilterRuleConfig_validators.
Definition validate_filter_type (v : string) : result string :=
  if negb (String.eqb v "group")
  then Raise (ValueError "GroupFilterRuleConfig must have filter_type='group'")
  else Ok v.

Definition validate_patterns (v : list string) : result (list string) :=
  match v with
  | [] => Raise (ValueError "Group filter must have at least one pattern")
  | _ => Ok v
  end.

Definition validate_priority (v : Z) : result Z :=
  if (v <? 0)%Z then Raise (ValueError "Priority must be non-negative")
  else Ok v.
End GroupFilterRuleConfig_validators.

(** Building a [GroupFilterRuleConfig] runs the field validators; a
    failure surfaces as a [ValueError] (pydantic's [ValidationError] is
    one), of which the first validator message is kept. *)
Definition GroupFilterRuleConfig_init (ft : string) (pats : list string)
    (prio : Z) (en : bool) (descr : option string) : result GroupFilterRuleConfig :=
  ft ← GroupFilterRuleConfig_validators.validate_filter_type ft;
  pats ← GroupFilterRuleConfig_validators.validate_patterns pats;
  prio ← GroupFilterRuleConfig_validators.validate_priority prio;
  Ok {| c_filter_type := ft; c_patterns := pats; c_priority := prio;
        c_enabled := en; c_description := descr |}.

(** [GroupFilterRuleConfig.to_group_filter_rule]. *)
Definition to_group_filter_rule (c : GroupFilterRuleConfig) : result GroupFilterRule :=
  GroupFilterRule_from_list (c_patterns c) (c_priority c) (c_enabled c) (c_description c).

(** ** The engine on list objects

    Python lists are objects: [filter_tags] receives a reference and
    returns one.  [Heap] holds the list objects; a computation takes the
    heap and gives back its outcome and the heap it leaves, also when it
    raises. *)

Module Heap.

Definition loc : Type := positive.

Definition M (A : Type) : Type := gmap loc (list string) → result A * gmap loc (list string).

Definition ret {A} (a : A) : M A := fun h => (Ok a, h).

Definition bind {A B} (m : M A) (k : A → M B) : M B :=
  fun h =>
    match m h with
    | (Ok a, h') => k a h'
    | (Raise e, h') => (Raise e, h')
    end.

(** A pure computation that may raise. *)
Definition lift {A} (r : result A) : M A := fun h => (r, h).

(** A new list object: [[]], [list.copy()]. *)
Definition alloc (l : list string) : M loc :=
  fun h => let r := fresh (dom h) in (Ok r, <[r := l]> h).

(** The elements of a list object. *)
Definition read (r : loc) : M (list string) :=
  fun h =>
    match h !! r with
    | Some l => (Ok l, h)
    | None => (Raise (Unmodelled "dangling reference"), h)
    end.

(** [list.append], in place. *)
Definition append (r : loc) (x : string) : M unit :=
  fun h =>
    match h !! r with
    | Some l => (Ok tt, <[r := l ++ [x]]> h)
    | None => (Raise (Unmodelled "dangling reference"), h)
    end.

Notation "'let*' x ':=' m 'in' k" := (bind m (fun x => k))
  (at level 10, x name, m at level 200, k at level 200).

Section Lists.
Context {re : ReLibrary}.

(** The loops below append only to the list created just before them, so
    the tag list they go through is read once. *)

(** [[tag for tag in tags if not self.matches(tag)]] into [out]. *)
Fixpoint keep_unmatched (f : Filter) (out : loc) (tags : list string) : M unit :=
  match tags with
  | [] => ret tt
  | tag :: tags' =>
      let* b := lift (matches f tag) in
      let* _ := (if (b : bool) then ret tt else append out tag) in
      keep_unmatched f out tags'
  end.

(** The loop of [GroupFilter.apply], appending to [filtered_tags]. *)
Fixpoint group_loop (pats : list string) (filtered_tags : loc) (tags : list string)
    : M unit :=
  match tags with
  | [] => ret tt
  | tag :: tags' =>
      let* _ := (if negb (should_remove tag pats) then append filtered_tags tag else ret tt) in
      group_loop pats filtered_tags tags'
  end.

(** The loop of the replacement filters, appending to [result]. *)
Fixpoint replace_loop (f : Filter) (subst : string → result string) (out : loc)
    (tags : list string) : M unit :=
  match tags with
  | [] => ret tt
  | tag :: tags' =>
      let* b := lift (matches f tag) in
      let* tag' := lift (if (b : bool) then subst tag else Ok tag) in
      let* _ := append out tag' in
      replace_loop f subst out tags'
  end.

(** [apply(tags)] on a list object. *)
Definition apply (f : Filter) (tags : loc) : M loc :=
  if negb (is_enabled f) then ret tags
  else
    match f with
    | PlainKeywordFilter _ | WildcardFilter _ _ | RegexFilter _ _ =>
        let* ts := read tags in
        let* out := alloc [] in
        let* _ := keep_unmatched f out ts in
        ret out
    | GroupFilter rule =>
        let* pats := lift (rule_patterns rule) in
        let* ts := read tags in
        if negb (group_matches pats ts) then ret tags
        else
          let* filtered_tags := alloc [] in
          let* _ := group_loop pats filtered_tags ts in
          ret filtered_tags
    | ReplaceFilter _ _ repl =>
        let* ts := read tags in
        let* out := alloc [] in
        let* _ := replace_loop f (fun _ => Ok repl) out ts in
        ret out
    | ReplaceCaptureFilter _ original repl _ =>
        let* ts := read tags in
        let* out := alloc [] in
        let* _ := replace_loop f (fun tag => substitute_with_capture tag original repl) out ts in
        ret out
    end.

(** The loop of [filter_tags]. *)
Fixpoint filter_loop (fs : list Filter) (current_tags : loc) : M loc :=
  match fs with
  | [] => ret current_tags
  | filter_instance :: fs' =>
      if is_enabled filter_instance then
        let* current_tags := apply filter_instance current_tags in
        let* ts := read current_tags in
        match ts with
        | [] => ret current_tags
        | _ => filter_loop fs' current_tags
        end
      else filter_loop fs' current_tags
  end.

(** [TagFilterEngine.filter_tags] on a list object. *)
Definition filter_tags (e : TagFilterEngine) (tags : loc) : M loc :=
  let* ts := read tags in
  match ts with
  | [] => ret tags
  | _ =>
      let* current_tags := alloc ts in
      filter_loop (filters e) current_tags
  end.

End Lists.

End Heap.

(** ** Notions and examples used in the properties *)

(** The text with each of the matches [ms], taken from left to right and
    starting at or behind [pos], replaced by the expansion of the
    template. *)
Fixpoint splice (tmpl : list Re.tpart) (text : string) (pos : nat)
    (ms : list Re.Match) : string :=
  match ms with
  | [] => Str.drop pos text
  | m :: ms' =>
      Re.slice pos (Re.m_start m) text +:+ Re.expand tmpl text m
      +:+ splice tmpl text (Re.m_end m) ms'
  end.

Definition match_span (m : Re.Match) : nat * nat := (Re.m_start m, Re.m_end m).

Fixpoint all_match (a : Re.atom) (s : string) : bool :=
  match s with
  | EmptyString => true
  | String c s' => Re.atom_matches a c && all_match a s'
  end.

(** [Sem ts pos s rest]: the tokens [ts], started at position [pos], can
    consume exactly [s] when [rest] is what follows [s] in the text. *)
Fixpoint Sem (ts : list Re.token) (pos : nat) (s rest : string) : Prop :=
  match ts with
  | [] => s = ""
  | Re.TAtom a :: ts' =>
      ∃ c s', s = String c s' ∧ Re.atom_matches a c = true ∧ Sem ts' (S pos) s' rest
  | Re.TOpt a :: ts' =>
      Sem ts' pos s rest
      ∨ ∃ c s', s = String c s' ∧ Re.atom_matches a c = true ∧ Sem ts' (S pos) s' rest
  | Re.TStar a :: ts' =>
      ∃ s1 s2, s = s1 +:+ s2 ∧ all_match a s1 = true
               ∧ Sem ts' (pos + String.length s1) s2 rest
  | Re.TPlus a :: ts' =>
      ∃ c s1 s2, s = String c (s1 +:+ s2) ∧ Re.atom_matches a c = true
                 ∧ all_match a s1 = true
                 ∧ Sem ts' (S pos + String.length s1) s2 rest
  | Re.TBol :: ts' => pos = 0 ∧ Sem ts' pos s rest
  | Re.TEol :: ts' => Re.at_end (s +:+ rest) = true ∧ Sem ts' pos s rest
  | Re.TOpen _ :: ts' | Re.TClose _ :: ts' => Sem ts' pos s rest
  end.

Definition anchor_free (ts : list Re.token) : bool :=
  forallb (fun t => match t with Re.TBol | Re.TEol => false | _ => true end) ts.

Definition newline : string := String "010" "".

(** What [re.compile] makes of the pattern in [wildcard_to_regex]. *)
Definition question_pattern : Re.Pattern :=
  {| Re.tokens := [Re.TAtom (Re.AChar "\"); Re.TOpen 1; Re.TAtom Re.AAny;
                   Re.TClose 1; Re.TAtom (Re.AChar "\"); Re.TAtom (Re.AChar "?")];
     Re.groups := 1 |}.

(** Letters, digits and the underscore: the characters of an ordinary tag
    name. *)
Definition plain (c : ascii) : bool := Re.is_alnum c || Ascii.eqb c "_".

Fixpoint all_plain (s : string) : bool :=
  match s with
  | EmptyString => true
  | String c s' => plain c && all_plain s'
  end.

Fixpoint literal_lexemes (s : string) : list Re.lexeme :=
  match s with
  | EmptyString => []
  | String c s' => Re.LLit c :: literal_lexemes s'
  end.

Fixpoint literal_tokens (s : string) : list Re.token :=
  match s with
  | EmptyString => []
  | String c s' => Re.TAtom (Re.AChar c) :: literal_tokens s'
  end.

Definition steam_sweat_blush : GroupFilterRule :=
  {| g_filter_type := FilterType.GROUP; patterns := ["steam"; "sweat"; "blush"];
     g_priority := 0; g_enabled := true; g_description := None |}.

Definition nsfw_rule : AnyFilterRule :=
  Single {| filter_type := FilterType.PLAIN_KEYWORD; pattern := "nsfw";
            priority := 80; replacement := None; enabled := true;
            description := None |}.

Definition bad_good_rule : AnyFilterRule :=
  Single {| filter_type := FilterType.REPLACE; pattern := "bad||good";
            priority := 0; replacement := None; enabled := true;
            description := None |}.

Definition mystery_rule : AnyFilterRule :=
  Single {| filter_type := "fuzzy"; pattern := "x"; priority := 90;
            replacement := None; enabled := true; description := None |}.

Definition hair_rule : AnyFilterRule :=
  Single {| filter_type := FilterType.WILDCARD; pattern := "*_hair";
            priority := 50; replacement := None; enabled := true;
            description := None |}.

Definition a_pattern : Re.Pattern :=
  {| Re.tokens := [Re.TAtom (Re.AChar "a")]; Re.groups := 0 |}.

Definition any_hair : Re.Pattern :=
  Eval vm_compute in
    match Re.compile ".*_hair" 0 with
    | Ok p => p
    | Raise _ => {| Re.tokens := []; Re.groups := 0 |}
    end.

Definition one_list : gmap Heap.loc (list string) :=
  {[ 1%positive := ["red_hair"; "nsfw_content"; "smile"] ]}.

Definition nsfw_optimized : OptimizedTagFilterEngine :=
  {| base := {| rules := [nsfw_rule]; filters := [PlainKeywordFilter nsfw_rule] |};
     batch_size := 1000; stats := Stats_new |}.


Definition two_calls : list (Q * Q * list string) :=
  [(0%Q, 1%Q, ["nsfw_content"; "smile"]); (1%Q, 2%Q, ["red_hair"])].

Definition nsfw_optimized_after : OptimizedTagFilterEngine :=
  {| base := base nsfw_optimized;
     batch_size := 1000;
     stats := {| total_processed := 3; total_filtered := 1;
                 processing_time := 2 # 1;
                 filter_rate := 0; avg_processing_time := 0 |} |}.

Definition nsfw_engine : TagFilterEngine :=
  {| rules := [nsfw_rule]; filters := [PlainKeywordFilter nsfw_rule] |}.

Definition bad_good_engine : TagFilterEngine :=
  {| rules := [bad_good_rule];
     filters := [ReplaceFilter bad_good_rule "bad" "good"] |}.

Definition nsfw_hair_engine : TagFilterEngine :=
  {| rules := [hair_rule; nsfw_rule];
     filters := [PlainKeywordFilter nsfw_rule; WildcardFilter hair_rule "^.*_hair$"] |}.

(** ** More of the pattern utilities ([patterns.py]) *)

(** The characters of [set(r'.*+?^${}[]|()')], in the order of the literal;
    [any] does not depend on the order in which a set is gone through. *)
Definition regex_chars : list ascii :=
  ["."; "*"; "+"; "?"; "^"; "$"; "{"; "}"; "["; "]"; "|"; "("; ")"]%char.

(** [is_regex_pattern]. *)
Definition is_regex_pattern (pattern : string) : bool :=
  existsb (fun char => Str.contains (String char "") pattern) regex_chars.

Section PatternUtilities.
Context {re : ReLibrary}.

(** [validate_regex_pattern]: only [re.error] is caught. *)
Definition validate_regex_pattern (pattern : string) : result bool :=
  match re_compile pattern 0 with
  | Ok _ => Ok true
  | Raise re_error => Ok false
  | Raise e => Raise e
  end.

(** [escape_for_literal_match]. *)
Definition escape_for_literal_match (text : string) : string := re_escape text.

End PatternUtilities.

(** ** More of the factory and of the engines ([filters.py], [engine.py]) *)

#[global] Instance FilterRule_eq_dec : EqDecision FilterRule.
Proof. solve_decision. Defined.

#[global] Instance GroupFilterRule_eq_dec : EqDecision GroupFilterRule.
Proof. solve_decision. Defined.

(** Rules are named tuples, compared field by field; a [FilterRule] has six
    fields and a [GroupFilterRule] five, so the two kinds are never equal. *)
#[global] Instance AnyFilterRule_eq_dec : EqDecision AnyFilterRule.
Proof. solve_decision. Defined.

(** [list.remove(x)]: without the first element equal to [x].  (Python
    raises when there is none; [remove_rule] asks first.) *)
Fixpoint list_remove (x : AnyFilterRule) (l : list AnyFilterRule) : list AnyFilterRule :=
  match l with
  | [] => []
  | y :: l' => if decide (y = x) then l' else y :: list_remove x l'
  end.

Section EngineMaintenance.
Context {re : ReLibrary}.

(** [FilterFactory.is_supported]. *)
Definition is_supported (registry : gmap string FilterClass) (filter_type : string) : bool :=
  bool_decide (is_Some (registry !! filter_type)).

(** [get_filters_by_priority]: a copy of the list of filters. *)
Definition get_filters_by_priority (e : TagFilterEngine) : list Filter := filters e.

(** [add_rule].  The first component is what was printed.  When
    [create_filter] raises something else than a [ValueError], the exception
    leaves the method and the engine is as it was. *)
Definition add_rule (registry : gmap string FilterClass) (e : TagFilterEngine)
    (rule : AnyFilterRule) : list string * result TagFilterEngine :=
  if rule_enabled rule then
    match create_filter registry rule with
    | Ok filter_instance =>
        ([], Ok {| rules := rules e ++ [rule];
                   filters := _sort_filters_by_priority (filters e ++ [filter_instance]) |})
    | Raise (ValueError msg) => (["Warning: Failed to add rule: " +:+ msg], Ok e)
    | Raise x => ([], Raise x)
    end
  else ([], Ok e).

(** [remove_rule]: the filters are built again from the rules that are
    left, which prints their warnings again. *)
Definition remove_rule (registry : gmap string FilterClass) (e : TagFilterEngine)
    (rule : AnyFilterRule) : list string * result TagFilterEngine :=
  if bool_decide (rule ∈ rules e) then
    let rs := list_remove rule (rules e) in
    let '(out, fs) := _create_filters registry rs in
    (out, fs ← fs; Ok {| rules := rs; filters := _sort_filters_by_priority fs |})
  else ([], Ok e).

(** [clear_rules]. *)
Definition clear_rules (e : TagFilterEngine) : TagFilterEngine :=
  {| rules := []; filters := [] |}.

(** [OptimizedTagFilterEngine.filter_tags_stream], run until the generator
    [tags] is used up.  [batch] is the list being filled; [clock k] gives
    the two readings of [time.perf_counter] in the [k]-th call of
    [filter_tags], and [calls] counts these calls.  The result is what was
    yielded and, when no call raised, the engine with its statistics. *)
Fixpoint optimized_stream_loop (e : OptimizedTagFilterEngine) (clock : nat → Q * Q)
    (calls : nat) (batch : list string) (tags : list string)
    : list string * result OptimizedTagFilterEngine :=
  match tags with
  | [] =>
      match batch with
      | [] => ([], Ok e)
      | _ =>
          match optimized_filter_tags e (fst (clock calls)) (snd (clock calls)) batch with
          | Ok (filtered_batch, e') => (filtered_batch, Ok e')
          | Raise x => ([], Raise x)
          end
      end
  | tag :: tags' =>
      let batch := batch ++ [tag] in
      if (batch_size e <=? Z.of_nat (length batch))%Z then
        match optimized_filter_tags e (fst (clock calls)) (snd (clock calls)) batch with
        | Ok (filtered_batch, e') =>
            let '(yielded, r) := optimized_stream_loop e' clock (S calls) [] tags' in
            (filtered_batch ++ yielded, r)
        | Raise x => ([], Raise x)
        end
      else optimized_stream_loop e clock calls batch tags'
  end.

Definition optimized_filter_tags_stream (e : OptimizedTagFilterEngine)
    (clock : nat → Q * Q) (tags : list string)
    : list string * result OptimizedTagFilterEngine :=
  optimized_stream_loop e clock 0 [] tags.

End EngineMaintenance.

(** ** Rule configurations ([config.py]) *)

Definition FilterType_members : list string :=
  [FilterType.PLAIN_KEYWORD; FilterType.WILDCARD; FilterType.REGEX;
   FilterType.GROUP; FilterType.REPLACE; FilterType.REPLACE_CAPTURE].

(** [FilterType(v)]: the member with that value, or a [ValueError] (whose
    message quotes the value the way [repr] does; it is written here for a
    value without quotes or escapes). *)
Definition FilterType_call (v : string) : result string :=
  if bool_decide (v ∈ FilterType_members) then Ok v
  else Raise (ValueError ("'" +:+ v +:+ "' is not a valid FilterType")).

Record FilterRuleConfig : Type := mkRuleConfig {
  fc_filter_type : string;
  fc_pattern : string;
  fc_priority : Z;
  fc_replacement : option string;
  fc_enabled : bool;
  fc_description : option string
}.

Module FilterRuleConfig_validators.
Definition validate_filter_type (v : string) : result string :=
  match FilterType_call v with
  | Ok _ => Ok v
  | Raise (ValueError _) => Raise (ValueError ("Invalid filter type: " +:+ v))
  | Raise e => Raise e
  end.

Definition validate_priority (v : Z) : result Z :=
  if (v <? 0)%Z then Raise (ValueError "Priority must be non-negative")
  else Ok v.
End FilterRuleConfig_validators.

(** Building a [FilterRuleConfig] runs its two field validators, as for
    [GroupFilterRuleConfig]. *)
Definition FilterRuleConfig_init (ft pat : string) (prio : Z) (repl : option string)
    (en : bool) (descr : option string) : result FilterRuleConfig :=
  ft ← FilterRuleConfig_validators.validate_filter_type ft;
  prio ← FilterRuleConfig_validators.validate_priority prio;
  Ok {| fc_filter_type := ft; fc_pattern := pat; fc_priority := prio;
        fc_replacement := repl; fc_enabled := en; fc_description := descr |}.

(** [FilterRuleConfig.to_filter_rule]. *)
Definition to_filter_rule (c : FilterRuleConfig) : result FilterRule :=
  ft ← FilterType_call (fc_filter_type c);
  Ok {| filter_type := ft; pattern := fc_pattern c; priority := fc_priority c;
        replacement := fc_replacement c; enabled := fc_enabled c;
        description := fc_description c |}.

(** [FilterRuleConfig | GroupFilterRuleConfig]. *)
Inductive AnyRuleConfig : Type :=
| SingleConfig (c : FilterRuleConfig)
| GroupConfig (c : GroupFilterRuleConfig).

Definition config_enabled (rc : AnyRuleConfig) : bool :=
  match rc with SingleConfig c => fc_enabled c | GroupConfig c => c_enabled c end.

(** The values the loaders store in [global_settings]. *)
Inductive setting : Type :=
| SettingStr (s : string)
| SettingInt (n : Z)
| SettingBool (b : bool).

Record TagFilterConfig : Type := mkConfig {
  version : string;
  cfg_rules : list AnyRuleConfig;
  global_settings : gmap string setting
}.

(** The loop of [TagFilterConfig.to_filter_rules]. *)
Fixpoint to_filter_rules_loop (rcs : list AnyRuleConfig) : result (list AnyFilterRule) :=
  match rcs with
  | [] => Ok []
  | rule_config :: rest =>
      r ← match rule_config with
          | GroupConfig g => g' ← to_group_filter_rule g; Ok (Group g')
          | SingleConfig c => r ← to_filter_rule c; Ok (Single r)
          end;
      filter_rules ← to_filter_rules_loop rest;
      Ok (r :: filter_rules)
  end.

Definition to_filter_rules (cfg : TagFilterConfig) : result (list AnyFilterRule) :=
  to_filter_rules_loop (cfg_rules cfg).

(** [get_enabled_rules]. *)
Definition get_enabled_rules (cfg : TagFilterConfig) : list AnyRuleConfig :=
  List.filter config_enabled (cfg_rules cfg).

(** *** The text format *)

Definition dquote : string := String "034" "".

(** [s.endswith(suffix)]. *)
Definition endswith (suffix s : string) : bool :=
  (String.length suffix <=? String.length s)%nat
  && String.eqb (Str.drop (String.length s - String.length suffix) s) suffix.

(** [ConfigLoader._parse_text_line]. *)
Definition _parse_text_line (line : string) (default_priority : Z)
    : result (option FilterRuleConfig) :=
  let line := Str.strip line in
  if String.eqb line "" then Ok None
  else if Str.contains "||" line then
    match Str.split_1 "||" line with
    | [part0; part1] =>
        let pattern := Str.strip part0 in
        let replacement := Str.strip part1 in
        if String.eqb pattern "" || String.eqb replacement "" then
          Raise (ValueError ("Empty pattern or replacement in: " +:+ line))
        else
          c ← FilterRuleConfig_init "replace" pattern default_priority
                (Some replacement) true
                (Some ("Replace " +:+ dquote +:+ pattern +:+ dquote +:+ " with "
                       +:+ dquote +:+ replacement +:+ dquote));
          Ok (Some c)
    | _ => Raise (ValueError ("Invalid replacement format: " +:+ line))
    end
  else if String.prefix "/" line && endswith "/" line
          && (2 <=? String.length line)%nat then
    (* line[1:-1] *)
    let pattern := Str.take (String.length line - 2) (Str.drop 1 line) in
    if String.eqb pattern "" then
      Raise (ValueError ("Empty regex pattern: " +:+ line))
    else
      c ← FilterRuleConfig_init "regex" pattern default_priority None true
            (Some ("Regex pattern: " +:+ pattern));
      Ok (Some c)
  else if negb (String.eqb line "") then
    c ← FilterRuleConfig_init "plain_keyword" line default_priority None true
          (Some ("Plain keyword: " +:+ line));
    Ok (Some c)
  else Ok None.

(** ** Notions used in the further properties *)

(** Every character of the string passes the test. *)
Fixpoint all_chars (P : ascii → bool) (s : string) : bool :=
  match s with
  | EmptyString => true
  | String c s' => P c && all_chars P s'
  end.

Fixpoint map_chars (f : ascii → ascii) (s : string) : string :=
  match s with
  | EmptyString => EmptyString
  | String c s' => String (f c) (map_chars f s')
  end.

(** What [normalize_tag] makes of one character of the stripped tag. *)
Definition normalize_char (c : ascii) : ascii :=
  if Ascii.eqb (Str.lower_char c) " " then "_"%char else Str.lower_char c.

(** A character that no normalized tag holds: the space, and every
    character that [str.lower] changes. *)
Definition never_normal (c : ascii) : bool :=
  Ascii.eqb c " " || negb (Ascii.eqb (Str.lower_char c) c).

(** The characters that do not stand for themselves in a pattern. *)
Definition is_meta (c : ascii) : bool :=
  match c with
  | "\" | "." | "^" | "$" | "*" | "+" | "?" | "{" | "[" | "|" | "(" | ")" => true
  | _ => false
  end%char.

Definition not_backslash (c : ascii) : bool := negb (Ascii.eqb c "\").

(** Wildcard patterns of letters, digits, underscores and stars. *)
Definition star_or_plain (c : ascii) : bool := plain c || Ascii.eqb c "*".

Fixpoint expand_stars (p : string) : string :=
  match p with
  | EmptyString => EmptyString
  | String c p' =>
      if Ascii.eqb c "*" then String "." (String "*" (expand_stars p'))
      else String c (expand_stars p')
  end.

Fixpoint star_lexemes (p : string) : list Re.lexeme :=
  match p with
  | EmptyString => []
  | String c p' =>
      if Ascii.eqb c "*" then Re.LDot :: Re.LStar :: star_lexemes p'
      else Re.LLit c :: star_lexemes p'
  end.

Fixpoint star_tokens (p : string) : list Re.token :=
  match p with
  | EmptyString => []
  | String c p' =>
      (if Ascii.eqb c "*" then Re.TStar Re.AAny else Re.TAtom (Re.AChar c))
      :: star_tokens p'
  end.

(** [glob p s]: the text [s] is the pattern [p] with each star replaced by
    some run of characters other than the newline. *)
Fixpoint glob (p s : string) : Prop :=
  match p with
  | EmptyString => s = EmptyString
  | String c p' =>
      if Ascii.eqb c "*"
      then ∃ s1 s2, s = s1 +:+ s2 ∧ all_match Re.AAny s1 = true ∧ glob p' s2
      else ∃ s', s = String c s' ∧ glob p' s'
  end.

(** The template of a replacement without group references. *)
Fixpoint literal_template (r : string) : list Re.tpart :=
  match r with
  | EmptyString => []
  | String c r' => Re.Lit (String c EmptyString) :: literal_template r'
  end.

Section Unmatched.
Context {re : ReLibrary}.

(** The filter gives its answer for the tag, and the answer is no. *)
Definition passes (f : Filter) (tag : string) : bool :=
  match matches f tag with Ok false => true | _ => false end.

(** No enabled filter of the list matches the tag. *)
Definition unmatched (fs : list Filter) (tag : string) : bool :=
  forallb (fun f => negb (is_enabled f) || passes f tag) fs.

End Unmatched.

(** Examples for the further properties. *)

Definition three_rules : list AnyFilterRule := [mystery_rule; nsfw_rule; bad_good_rule].

Definition nsfw_bad_good_engine : TagFilterEngine :=
  {| rules := three_rules;
     filters := [PlainKeywordFilter nsfw_rule; ReplaceFilter bad_good_rule "bad" "good"] |}.

Definition bad_good : FilterRule :=
  {| filter_type := FilterType.REPLACE; pattern := "bad||good"; priority := 0;
     replacement := None; enabled := true; description := None |}.

Definition no_bars : FilterRule :=
  {| filter_type := FilterType.REPLACE; pattern := "bad"; priority := 0;
     replacement := Some "good"; enabled := true; description := None |}.

Definition open_paren : FilterRule :=
  {| filter_type := FilterType.REGEX; pattern := "("; priority := 0;
     replacement := None; enabled := true; description := None |}.

Definition hair_regex : FilterRule :=
  {| filter_type := FilterType.REGEX; pattern := "hair"; priority := 0;
     replacement := None; enabled := true; description := None |}.

Definition bad_word_keyword : FilterRule :=
  {| filter_type := FilterType.PLAIN_KEYWORD; pattern := "Bad Word"; priority := 0;
     replacement := None; enabled := true; description := None |}.

Definition nsfw_steam_engine : TagFilterEngine :=
  {| rules := [Group steam_sweat_blush; nsfw_rule];
     filters := [PlainKeywordFilter nsfw_rule; GroupFilter (Group steam_sweat_blush)] |}.

Definition nsfw_then_hair_engine : TagFilterEngine :=
  {| rules := [nsfw_rule; hair_rule];
     filters := [PlainKeywordFilter nsfw_rule; WildcardFilter hair_rule "^.*_hair$"] |}.

Definition nsfw_by_two : OptimizedTagFilterEngine :=
  {| base := nsfw_engine; batch_size := 2; stats := Stats_new |}.

Definition nsfw_by_two_after : OptimizedTagFilterEngine :=
  {| base := nsfw_engine; batch_size := 2;
     stats := {| total_processed := 3; total_filtered := 1;
                 processing_time := 2 # 1;
                 filter_rate := 0; avg_processing_time := 0 |} |}.

Definition unit_clock (k : nat) : Q * Q := (0%Q, 1%Q).

Definition bad_word_line : FilterRuleConfig :=
  {| fc_filter_type := "replace"; fc_pattern := "bad_word"; fc_priority := 0;
     fc_replacement := Some "good_word"; fc_enabled := true;
     fc_description :=
       Some ("Replace " +:+ dquote +:+ "bad_word" +:+ dquote +:+ " with "
             +:+ dquote +:+ "good_word" +:+ dquote) |}.

Definition bad_word_rule : FilterRule :=
  {| filter_type := "replace"; pattern := "bad_word"; priority := 0;
     replacement := Some "good_word"; enabled := true;
     description := fc_description bad_word_line |}.

Definition off_keyword : FilterRuleConfig :=
  {| fc_filter_type := "plain_keyword"; fc_pattern := "temp"; fc_priority := 5;
     fc_replacement := None; fc_enabled := false; fc_description := None |}.

Definition nsfw_keyword : FilterRuleConfig :=
  {| fc_filter_type := "plain_keyword"; fc_pattern := "nsfw"; fc_priority := 80;
     fc_replacement := None; fc_enabled := true; fc_description := None |}.

Definition two_keywords : TagFilterConfig :=
  {| version := "1.0"; cfg_rules := [SingleConfig off_keyword; SingleConfig nsfw_keyword];
     global_settings := ∅ |}.

(** * Properties *)

Ltac rsimpl :=
  unfold mbind, result_mbind, mret, result_ret in *; cbn [result_bind] in *.

(** The interface, read at the model. *)
Ltac re_unfold :=
  change (@re_compile re_model) with Re.compile in *;
  change (@re_Pattern_search re_model) with Re.Pattern_search in *;
  change (@re_Pattern_match re_model) with Re.Pattern_match in *;
  change (@re_Pattern_sub re_model) with Re.Pattern_sub in *;
  change (@re_sub re_model) with Re.sub in *;
  change (@re_escape re_model) with Re.escape in *.

(** ** Strings *)

Lemma str_app_cons (c : ascii) (s t : string) : String c s +:+ t = String c (s +:+ t).
Proof. reflexivity. Qed.

Lemma str_app_nil_l (t : string) : "" +:+ t = t.
Proof. reflexivity. Qed.

Lemma str_app_nil_r (s : string) : s +:+ "" = s.
Proof. induction s as [|c s IH]; [done|]. by rewrite str_app_cons, IH. Qed.

Lemma str_app_assoc (s t u : string) : (s +:+ t) +:+ u = s +:+ t +:+ u.
Proof. induction s as [|c s IH]; [done|]. by rewrite !str_app_cons, IH. Qed.

Ltac str_simpl := rewrite ?str_app_cons, ?str_app_nil_l in *.

Lemma prefix_app (p s : string) :
  String.prefix p s = true ↔ ∃ r, s = p +:+ r.
Proof.
  revert s; induction p as [|c p IH]; intros s.
  - destruct s; simpl; split; eauto.
  - destruct s as [|d s]; simpl.
    + split; [discriminate | intros [r Hr]; discriminate].
    + destruct (ascii_dec c d) as [->|Hne].
      * rewrite IH. split; intros [r Hr]; exists r; str_simpl; congruence.
      * split; [discriminate | intros [r Hr]; str_simpl; congruence].
Qed.

(** [Str.contains] is Python's substring test. *)
Lemma contains_spec (p s : string) :
  Str.contains p s = true ↔ ∃ a b, s = a +:+ p +:+ b.
Proof.
  induction s as [|c s IH].
  - cbn [Str.contains]. rewrite orb_false_r. split.
    + intros H. apply prefix_app in H as [r Hr]. exists EmptyString, r. done.
    + intros [a [b Hab]]. destruct a; [|discriminate].
      apply prefix_app. exists b. done.
  - cbn [Str.contains]. rewrite orb_true_iff, IH, prefix_app. split.
    + intros [[r Hr] | [a [b Hab]]].
      * exists EmptyString, r. done.
      * exists (String c a), b. str_simpl. by rewrite Hab.
    + intros [a [b Hab]]. destruct a as [|d a].
      * left. exists b. done.
      * right. exists a, b. str_simpl. congruence.
Qed.

(** ** The group filter *)

Section GroupFilterFacts.
Context {re : ReLibrary}.

Lemma pattern_found_spec (pattern : string) (tags : list string) :
  pattern_found pattern tags = true ↔
  ∃ t, In t tags ∧ Str.contains pattern (normalize_tag t) = true.
Proof.
  induction tags as [|t tags IH]; simpl.
  - split; [discriminate | intros [? [[] _]]].
  - unfold _matches_pattern at 1.
    destruct (Str.contains pattern (normalize_tag t)) eqn:E.
    + split; [eauto | done].
    + rewrite IH. split.
      * intros [t' [? ?]]; eauto.
      * intros [t' [[->|?] ?]]; [congruence | eauto].
Qed.

Lemma group_matches_spec (pats tags : list string) :
  group_matches pats tags = true ↔
  ∀ p, In p pats → ∃ t, In t tags ∧ Str.contains p (normalize_tag t) = true.
Proof.
  induction pats as [|p pats IH]; simpl.
  - split; [intros _ ? [] | done].
  - destruct (pattern_found p tags) eqn:E; simpl.
    + rewrite IH. apply pattern_found_spec in E. split.
      * intros H q [<-|Hq]; eauto.
      * intros H q Hq. eauto.
    + split; [discriminate|]. intros H.
      assert (pattern_found p tags = true) by (apply pattern_found_spec; eauto).
      congruence.
Qed.

Lemma should_remove_existsb (tag : string) (pats : list string) :
  should_remove tag pats =
  existsb (fun p => Str.contains p (normalize_tag tag)) pats.
Proof.
  induction pats as [|p pats IH]; simpl; [done|].
  unfold _matches_pattern at 1. rewrite IH.
  by destruct (Str.contains p (normalize_tag tag)).
Qed.

Lemma group_remove_filter (pats tags : list string) :
  group_remove pats tags =
  List.filter
    (fun t => negb (existsb (fun p => Str.contains p (normalize_tag t)) pats)) tags.
Proof.
  induction tags as [|t tags IH]; simpl; [done|].
  rewrite should_remove_existsb, IH. done.
Qed.

(** C5. [GroupFilter.apply] is all-or-nothing.  For an enabled group rule:
    when every pattern is a substring of the normalized form of some tag,
    the result is the input without the tags whose normalized form
    contains one of the patterns; when some pattern is in no tag, the
    result is the input.  With the patterns steam, sweat, blush the tags
    steam, hot, other come back unchanged and of steam, sweat, blush, other
    only other is left. *)
Theorem GroupFilter_apply_all_or_nothing (g : GroupFilterRule) (tags : list string) :
  g_enabled g = true →
  ((∀ p, In p (patterns g) →
      ∃ t, In t tags ∧ Str.contains p (normalize_tag t) = true) →
   apply (GroupFilter (Group g)) tags =
     Ok (List.filter
           (fun t => negb (existsb (fun p => Str.contains p (normalize_tag t))
                             (patterns g))) tags))
  ∧ ((∃ p, In p (patterns g) ∧
        ∀ t, In t tags → Str.contains p (normalize_tag t) = false) →
     apply (GroupFilter (Group g)) tags = Ok tags)
  ∧ apply (GroupFilter (Group steam_sweat_blush)) ["steam"; "hot"; "other"]
      = Ok ["steam"; "hot"; "other"]
  ∧ apply (GroupFilter (Group steam_sweat_blush)) ["steam"; "sweat"; "blush"; "other"]
      = Ok ["other"].
Proof.
  intros Hen. unfold apply, is_enabled. cbn [filter_rule rule_enabled rule_patterns].
  rewrite Hen. cbn [negb mbind result_mbind result_bind].
  split; [|split; [|split; vm_compute; reflexivity]].
  - intros Hall. apply group_matches_spec in Hall. rewrite Hall. simpl.
    by rewrite group_remove_filter.
  - intros [p [Hp Hnone]].
    destruct (group_matches (patterns g) tags) eqn:E; [|done].
    exfalso. rewrite group_matches_spec in E.
    destruct (E p Hp) as [t [Ht Hc]]. rewrite (Hnone t Ht) in Hc. discriminate.
Qed.

End GroupFilterFacts.

Lemma GroupFilter_apply_all_or_nothing_witness :
  g_enabled steam_sweat_blush = true
  ∧ apply (GroupFilter (Group steam_sweat_blush)) ["Steam "; "sweat"; "blush"; "other"]
      = Ok ["other"].
Proof.
  split; [reflexivity|].
  destruct (GroupFilter_apply_all_or_nothing steam_sweat_blush
              ["Steam "; "sweat"; "blush"; "other"] eq_refl) as [H _].
  rewrite H; [vm_compute; reflexivity|].
  intros p [<-|[<-|[<-|[]]]].
  - exists "Steam ". split; [simpl; tauto | vm_compute; reflexivity].
  - exists "sweat". split; [simpl; tauto | vm_compute; reflexivity].
  - exists "blush". split; [simpl; tauto | vm_compute; reflexivity].
Defined.

(** ** Group rules without patterns *)

Lemma group_remove_nil (tags : list string) : group_remove [] tags = tags.
Proof. induction tags as [|t tags IH]; simpl; [done|]. by rewrite IH. Qed.

(** [GroupFilterRule.from_list([])] returns a rule; nothing is raised. *)
Lemma from_list_empty_accepted :
  ∃ r, GroupFilterRule_from_list [] 0 true None = Ok r ∧ patterns r = [].
Proof. eexists. split; reflexivity. Qed.

Section EmptyGroups.
Context {re : ReLibrary}.

(** C6, as the code has it.  Building a [GroupFilterRule] checks nothing:
    [from_list] returns a rule for every list of patterns, the empty one
    included.  The empty list is refused one layer up, by the
    [validate_patterns] validator of [GroupFilterRuleConfig], with a
    [ValueError]; a group filter that was built without patterns leaves
    every tag list as it is. *)
Theorem GroupFilterRule_construction_unchecked
    (pats : list string) (prio : Z) (en : bool) (descr : option string)
    (ft : string) (tags : list string) :
  (∃ r, GroupFilterRule_from_list pats prio en descr = Ok r
        ∧ patterns r = pats ∧ g_filter_type r = FilterType.GROUP
        ∧ g_priority r = prio ∧ g_enabled r = en)
  ∧ (∃ msg, GroupFilterRuleConfig_init ft [] prio en descr = Raise (ValueError msg))
  ∧ (∀ r, GroupFilterRule_from_list [] prio en descr = Ok r →
          apply (GroupFilter (Group r)) tags = Ok tags).
Proof.
  split; [|split].
  - eexists. repeat split; reflexivity.
  - unfold GroupFilterRuleConfig_init,
      GroupFilterRuleConfig_validators.validate_filter_type.
    destruct (negb (String.eqb ft "group")); simpl; eauto.
  - intros r [= <-]. unfold apply, is_enabled. simpl.
    destruct en; simpl; [|done]. by rewrite group_remove_nil.
Qed.

End EmptyGroups.

(** ** The memory-efficient engine *)

Section MemoryEfficient.
Context {re : ReLibrary}.

(** What the loop of [_should_keep_tag] computes: a tag is given up only at
    an enabled single-tag filter of a replacement kind that matches it. *)
Lemma should_keep_loop_false (fs : list Filter) (tag : string) :
  should_keep_loop fs tag = Ok false →
  ∃ f, In f fs ∧ is_enabled f = true ∧ is_BaseFilter f = true
       ∧ is_replace_kind f = true ∧ matches f tag = Ok true.
Proof.
  induction fs as [|f fs IH]; simpl; [discriminate|].
  destruct (is_enabled f) eqn:En; simpl.
  2: { intros H. destruct (IH H) as [g [? ?]]. eauto. }
  destruct (is_BaseFilter f) eqn:Bf.
  2: { intros H. destruct (IH H) as [g [? ?]]. eauto. }
  destruct (matches f tag) as [[|]|e] eqn:M; simpl; [| |discriminate].
  - destruct (is_replace_kind f) eqn:Rk.
    + intros _. exists f. eauto 10.
    + intros H. destruct (IH H) as [g [? ?]]. eauto.
  - intros H. destruct (IH H) as [g [? ?]]. eauto.
Qed.

(** A tag that only filters of the dropping kinds match is kept. *)
Lemma should_keep_loop_drop_only (fs : list Filter) (tag : string) (b : bool) :
  Forall (fun f => is_replace_kind f = false) fs →
  should_keep_loop fs tag = Ok b → b = true.
Proof.
  intros Hall H. destruct b; [done|].
  apply should_keep_loop_false in H as [f [Hin [_ [_ [Hr _]]]]].
  rewrite Forall_forall in Hall. rewrite (Hall f) in Hr; [discriminate|].
  by apply list_elem_of_In.
Qed.

End MemoryEfficient.

(** C1, at two inputs.  With the single rule PLAIN_KEYWORD nsfw the tag
    nsfw_content is matched by an enabled filter that is not of a
    replacement kind, and [filter_tags] drops it, yet [_should_keep_tag]
    answers [True]; with the single rule REPLACE bad||good the tag bad is
    matched by a replacement filter only, and [_should_keep_tag] answers
    [False], so the stream loses it. *)
Theorem should_keep_tag_inverted :
  (∃ e f, snd (TagFilterEngine_init _filter_registry [nsfw_rule]) = Ok e
          ∧ filters e = [f] ∧ is_enabled f = true ∧ is_BaseFilter f = true
          ∧ is_replace_kind f = false
          ∧ matches f "nsfw_content" = Ok true
          ∧ filter_tags e ["nsfw_content"] = Ok []
          ∧ _should_keep_tag e "nsfw_content" = Ok true
          ∧ filter_tags_stream e ["nsfw_content"] = Ok ["nsfw_content"])
  ∧ (∃ e f, snd (TagFilterEngine_init _filter_registry [bad_good_rule]) = Ok e
          ∧ filters e = [f] ∧ is_enabled f = true ∧ is_BaseFilter f = true
          ∧ is_replace_kind f = true
          ∧ matches f "bad" = Ok true
          ∧ filter_tags e ["bad"] = Ok ["good"]
          ∧ _should_keep_tag e "bad" = Ok false
          ∧ filter_tags_stream e ["bad"] = Ok []).
Proof.
  split.
  - exists nsfw_engine, (PlainKeywordFilter nsfw_rule).
    split; [reflexivity|]. split; [reflexivity|].
    repeat split; vm_compute; reflexivity.
  - exists bad_good_engine, (ReplaceFilter bad_good_rule "bad" "good").
    split; [reflexivity|]. split; [reflexivity|].
    repeat split; vm_compute; reflexivity.
Qed.

(** ** Unknown filter kinds *)

Section UnknownKinds.
Context {re : ReLibrary}.

Lemma create_filter_unknown (registry : gmap string FilterClass) (rule : AnyFilterRule) :
  known_kind registry rule = false →
  create_filter registry rule = Raise (unknown_filter_type rule).
Proof.
  unfold known_kind, create_filter. intros H.
  destruct (registry !! rule_filter_type rule) eqn:E; [|done].
  apply bool_decide_eq_false in H. destruct H. eauto.
Qed.

(** Rules of an unknown kind do not change which filters are built, or
    whether building them raises. *)
Lemma create_filters_skips_unknown (registry : gmap string FilterClass)
    (rs : list AnyFilterRule) :
  snd (_create_filters registry rs) =
  snd (_create_filters registry (List.filter (known_kind registry) rs)).
Proof.
  induction rs as [|rule rs IH]; [done|].
  cbn [List.filter].
  destruct (known_kind registry rule) eqn:K.
  - cbn [_create_filters]. destruct (rule_enabled rule); [|done].
    destruct (create_filter registry rule) as [f|[msg| | |]]; try done.
    + destruct (_create_filters registry rs) as [o1 r1],
        (_create_filters registry (List.filter (known_kind registry) rs)) as [o2 r2].
      simpl in *. by subst.
    + destruct (_create_filters registry rs) as [o1 r1],
        (_create_filters registry (List.filter (known_kind registry) rs)) as [o2 r2].
      simpl in *. by subst.
  - cbn [_create_filters]. destruct (rule_enabled rule); [|done].
    rewrite (create_filter_unknown _ _ K). unfold unknown_filter_type.
    by destruct (_create_filters registry rs) as [o1 r1].
Qed.


End UnknownKinds.


(** ** Filters never lengthen a tag list *)

Section Lengths.
Context {re : ReLibrary}.

Lemma drop_matching_length (f : Filter) (tags r : list string) :
  drop_matching f tags = Ok r → length r ≤ length tags.
Proof.
  revert r; induction tags as [|t tags IH]; intros r; simpl.
  - intros [= <-]. done.
  - destruct (matches f t) as [b|]; simpl; [|discriminate].
    destruct (drop_matching f tags) as [rest|]; simpl; [|discriminate].
    intros [= <-]. specialize (IH rest eq_refl). destruct b; simpl; lia.
Qed.

Lemma replace_matching_length (f : Filter) (subst : string → result string)
    (tags r : list string) :
  replace_matching f subst tags = Ok r → length r = length tags.
Proof.
  revert r; induction tags as [|t tags IH]; intros r; simpl.
  - intros [= <-]. done.
  - destruct (matches f t) as [b|]; simpl; [|discriminate].
    destruct (if b then subst t else Ok t) as [t'|]; simpl; [|discriminate].
    destruct (replace_matching f subst tags) as [rest|]; simpl; [|discriminate].
    intros [= <-]. simpl. by rewrite (IH rest eq_refl).
Qed.

Lemma group_remove_length (pats tags : list string) :
  length (group_remove pats tags) ≤ length tags.
Proof.
  induction tags as [|t tags IH]; simpl; [done|].
  destruct (should_remove t pats); simpl; lia.
Qed.

Lemma apply_length (f : Filter) (tags r : list string) :
  apply f tags = Ok r → length r ≤ length tags.
Proof.
  unfold apply. destruct (negb (is_enabled f)); [by intros [= <-]|].
  destruct f as [rule|rule rx|rule c|rule|rule o rp|rule o rp c];
    try apply drop_matching_length.
  - destruct (rule_patterns rule) as [pats|]; simpl; [|discriminate].
    destruct (negb (group_matches pats tags)); intros [= <-]; [done|].
    apply group_remove_length.
  - intros H. apply replace_matching_length in H. lia.
  - intros H. apply replace_matching_length in H. lia.
Qed.

Lemma filter_loop_length (fs : list Filter) (tags r : list string) :
  filter_loop fs tags = Ok r → length r ≤ length tags.
Proof.
  revert tags; induction fs as [|f fs IH]; intros tags; simpl.
  - by intros [= <-].
  - destruct (is_enabled f); [|apply IH].
    destruct (apply f tags) as [cur|] eqn:A; simpl; [|discriminate].
    apply apply_length in A. destruct cur as [|t cur].
    + intros [= <-]. simpl. lia.
    + intros H. apply IH in H. lia.
Qed.

Lemma filter_tags_length (e : TagFilterEngine) (tags r : list string) :
  filter_tags e tags = Ok r → length r ≤ length tags.
Proof.
  unfold filter_tags. destruct tags; [by intros [= <-]|]. apply filter_loop_length.
Qed.

End Lengths.

(** ** Statistics of the optimized engine *)

Section Statistics.
Context {re : ReLibrary}.

Lemma optimized_filter_tags_stats (e e' : OptimizedTagFilterEngine)
    (t0 t1 : Q) (tags r : list string) :
  optimized_filter_tags e t0 t1 tags = Ok (r, e') →
  total_processed (stats e') = (total_processed (stats e) + Z.of_nat (length tags))%Z
  ∧ total_filtered (stats e') =
      (total_filtered (stats e) + (Z.of_nat (length tags) - Z.of_nat (length r)))%Z
  ∧ length r ≤ length tags.
Proof.
  unfold optimized_filter_tags.
  destruct (filter_tags (base e) tags) as [res|] eqn:F; simpl; [|discriminate].
  intros [= <- <-]. simpl. eauto using filter_tags_length.
Qed.


End Statistics.


(** ** Idempotence for rule sets that only drop *)

Section Idempotence.
Context {re : ReLibrary}.

Lemma create_filter_drop (rule : AnyFilterRule) (f : Filter) :
  is_drop_rule rule = true →
  create_filter _filter_registry rule = Ok f → is_drop_filter f = true.
Proof.
  destruct rule as [fr|g]; [|discriminate]. unfold is_drop_rule, create_filter.
  cbn [rule_filter_type]. rewrite !orb_true_iff, !String.eqb_eq.
  intros [[->| ->]| ->].
  - change (_filter_registry !! FilterType.PLAIN_KEYWORD) with (Some PlainKeywordFilter_cls).
    simpl. by intros [= <-].
  - change (_filter_registry !! FilterType.WILDCARD) with (Some WildcardFilter_cls).
    unfold construct. cbn [rule_pattern]. rsimpl.
    destruct (wildcard_to_regex (pattern fr)); rsimpl; [|discriminate].
    by intros [= <-].
  - change (_filter_registry !! FilterType.REGEX) with (Some RegexFilter_cls).
    unfold construct. cbn [rule_pattern]. rsimpl.
    destruct (get_compiled_pattern (pattern fr) 0); rsimpl; [|discriminate].
    by intros [= <-].
Qed.

Lemma create_filters_drop (rs : list AnyFilterRule) (fs : list Filter) :
  Forall (fun r => is_drop_rule r = true) rs →
  snd (_create_filters _filter_registry rs) = Ok fs →
  Forall (fun f => is_drop_filter f = true) fs.
Proof.
  intros Hall. revert fs. induction Hall as [|r rs Hr _ IH]; intros fs; simpl.
  - by intros [= <-].
  - destruct (rule_enabled r); [|apply IH].
    destruct (create_filter _filter_registry r) as [f|[msg| | |]] eqn:C; try discriminate.
    + destruct (_create_filters _filter_registry rs) as [out [fs'|]]; simpl;
        [|discriminate].
      intros [= <-]. constructor; [by eapply create_filter_drop | by apply IH].
    + destruct (_create_filters _filter_registry rs) as [out r']. simpl. apply IH.
Qed.

Lemma insert_by_priority_Forall (P : Filter → Prop) (f : Filter) (l : list Filter) :
  P f → Forall P l → Forall P (insert_by_priority f l).
Proof.
  intros Hf Hl. induction Hl as [|g l Hg Hl IH]; simpl; [by repeat constructor|].
  destruct (get_priority f <? get_priority g)%Z; by repeat constructor.
Qed.

Lemma sort_filters_Forall (P : Filter → Prop) (fs : list Filter) :
  Forall P fs → Forall P (_sort_filters_by_priority fs).
Proof.
  unfold _sort_filters_by_priority. induction 1; simpl; [constructor|].
  by apply insert_by_priority_Forall.
Qed.

Lemma apply_drop (f : Filter) (tags : list string) :
  is_drop_filter f = true → is_enabled f = true →
  apply f tags = drop_matching f tags.
Proof. unfold apply. intros Hd ->. by destruct f. Qed.

Lemma drop_matching_kept (f : Filter) (tags r : list string) :
  drop_matching f tags = Ok r →
  Forall (fun t => matches f t = Ok false) r ∧ r ⊆ tags.
Proof.
  revert r; induction tags as [|t tags IH]; intros r; simpl.
  - intros [= <-]. split; [constructor | done].
  - destruct (matches f t) as [b|] eqn:M; simpl; [|discriminate].
    destruct (drop_matching f tags) as [rest|]; simpl; [|discriminate].
    intros [= <-]. destruct (IH rest eq_refl) as [Hk Hs].
    destruct b; split; try done.
    + by apply list_subseteq_cons.
    + by constructor.
    + by apply list_subseteq_skip.
Qed.

Lemma drop_matching_fixed (f : Filter) (tags : list string) :
  Forall (fun t => matches f t = Ok false) tags → drop_matching f tags = Ok tags.
Proof. induction 1 as [|t tags Ht _ IH]; simpl; [done|]. by rewrite Ht, IH. Qed.

Lemma filter_loop_subseteq (fs : list Filter) (tags r : list string) :
  Forall (fun f => is_drop_filter f = true) fs →
  filter_loop fs tags = Ok r → r ⊆ tags.
Proof.
  intros Hall. revert tags. induction Hall as [|f fs Hf _ IH]; intros tags; simpl.
  - by intros [= <-].
  - destruct (is_enabled f) eqn:En; [|apply IH].
    rewrite (apply_drop _ _ Hf En).
    destruct (drop_matching f tags) as [cur|] eqn:D; simpl; [|discriminate].
    apply drop_matching_kept in D as [_ Hs]. destruct cur as [|t cur].
    + intros [= <-]. apply list_subseteq_nil.
    + intros H. apply IH in H. by etrans.
Qed.

(** A non-empty result went through every enabled filter, and none of
    them matches any of its tags. *)
Lemma filter_loop_result (fs : list Filter) (tags r : list string) :
  Forall (fun f => is_drop_filter f = true) fs →
  filter_loop fs tags = Ok r → r ≠ [] →
  Forall (fun f => is_enabled f = true →
                   Forall (fun t => matches f t = Ok false) r) fs.
Proof.
  intros Hall. revert tags. induction Hall as [|f fs Hf Hfs IH]; intros tags; simpl.
  - constructor.
  - destruct (is_enabled f) eqn:En.
    2: { intros H Hne. constructor; [congruence | by eapply IH]. }
    rewrite (apply_drop _ _ Hf En).
    destruct (drop_matching f tags) as [cur|] eqn:D; simpl; [|discriminate].
    apply drop_matching_kept in D as [Hk _]. destruct cur as [|t cur].
    + intros [= <-]. done.
    + intros H Hne. constructor; [|by eapply IH].
      intros _. apply (filter_loop_subseteq _ _ _ Hfs) in H.
      rewrite Forall_forall in Hk |- *. intros x Hx. apply Hk. by apply H.
Qed.

Lemma filter_loop_fixed (fs : list Filter) (r : list string) :
  Forall (fun f => is_drop_filter f = true) fs →
  Forall (fun f => is_enabled f = true →
                   Forall (fun t => matches f t = Ok false) r) fs →
  filter_loop fs r = Ok r.
Proof.
  intros Hall Hno. induction Hall as [|f fs Hf _ IH]; simpl; [done|].
  inversion Hno as [|? ? Hnf Hnfs]; subst.
  destruct (is_enabled f) eqn:En; [|by apply IH].
  rewrite (apply_drop _ _ Hf En), (drop_matching_fixed _ _ (Hnf eq_refl)). simpl.
  destruct r; [done | by apply IH].
Qed.

(** C8.  An engine built, with the registry of the class, from rules of
    the kinds PLAIN_KEYWORD, WILDCARD and REGEX only: filtering the result
    of [filter_tags] again gives that result, and a call that raises does
    so in both readings. *)
Theorem filter_tags_idempotent (rs : list AnyFilterRule) (e : TagFilterEngine)
    (T : list string) :
  Forall (fun r => is_drop_rule r = true) rs →
  snd (TagFilterEngine_init _filter_registry rs) = Ok e →
  (filter_tags e T ≫= filter_tags e) = filter_tags e T
  ∧ ∀ R, filter_tags e T = Ok R → filter_tags e R = Ok R.
Proof.
  intros Hrules Hinit.
  assert (Hdrop : Forall (fun f => is_drop_filter f = true) (filters e)).
  { unfold TagFilterEngine_init in Hinit.
    pose proof (create_filters_drop rs) as Hc.
    destruct (_create_filters _filter_registry rs) as [out [fs|]]; simpl in *;
      [|discriminate].
    injection Hinit as <-. simpl. apply sort_filters_Forall. by apply Hc. }
  assert (Hfix : ∀ R, filter_tags e T = Ok R → filter_tags e R = Ok R).
  { intros R HR. unfold filter_tags in *. destruct R as [|r R]; [done|].
    destruct T as [|t T]; [discriminate|].
    apply filter_loop_fixed; [done|]. by eapply filter_loop_result. }
  split; [|exact Hfix].
  destruct (filter_tags e T) as [R|x] eqn:E; simpl; [by apply Hfix | done].
Qed.

End Idempotence.

Lemma filter_tags_idempotent_witness :
  Forall (fun r => is_drop_rule r = true) [hair_rule; nsfw_rule]
  ∧ snd (TagFilterEngine_init _filter_registry [hair_rule; nsfw_rule]) = Ok nsfw_hair_engine
  ∧ filter_tags nsfw_hair_engine ["red_hair"; "nsfw_content"; "smile"] = Ok ["smile"]
  ∧ filter_tags nsfw_hair_engine ["smile"] = Ok ["smile"].
Proof.
  assert (Hr : Forall (fun r => is_drop_rule r = true) [hair_rule; nsfw_rule])
    by (repeat constructor).
  assert (Hi : snd (TagFilterEngine_init _filter_registry [hair_rule; nsfw_rule])
               = Ok nsfw_hair_engine) by reflexivity.
  assert (Hf : filter_tags nsfw_hair_engine ["red_hair"; "nsfw_content"; "smile"]
               = Ok ["smile"]) by (vm_compute; reflexivity).
  split; [exact Hr|]. split; [exact Hi|]. split; [exact Hf|].
  exact (proj2 (filter_tags_idempotent _ _ ["red_hair"; "nsfw_content"; "smile"] Hr Hi)
           _ Hf).
Defined.

(** ** The wildcard translation *)

(** C2, at the inputs a_b and ab?.  The pattern a_b is translated to the
    anchored pattern ^a_b$: the underscore stays a literal, so the tag axb
    is not matched and only a_b is.  The pattern ab? is translated to
    ^ab\?$: the question mark stays a literal, so neither a nor ab is
    matched and only the three characters ab? are; likewise red_? (an
    example of the docstring) becomes ^red_\?$.  The star is translated:
    *_hair becomes ^.*_hair$. *)
Theorem wildcard_to_regex_underscore_and_optional :
  wildcard_to_regex "a_b" = Ok "^a_b$"
  ∧ match_with_wildcards "axb" "a_b" true = Ok false
  ∧ match_with_wildcards "a_b" "a_b" true = Ok true
  ∧ wildcard_to_regex "ab?" = Ok "^ab\?$"
  ∧ match_with_wildcards "a" "ab?" true = Ok false
  ∧ match_with_wildcards "ab" "ab?" true = Ok false
  ∧ match_with_wildcards "ab?" "ab?" true = Ok true
  ∧ wildcard_to_regex "red_?" = Ok "^red_\?$"
  ∧ wildcard_to_regex "*_hair" = Ok "^.*_hair$"
  ∧ match_with_wildcards "red_hair" "*_hair" true = Ok true.
Proof. repeat split; vm_compute; reflexivity. Qed.

(** ** The matcher *)

Lemma drop_0 (s : string) : Str.drop 0 s = s.
Proof. by destruct s. Qed.

Lemma star_end (a : Re.atom) (k : string → nat → option (nat * Re.marks))
    (accept : nat → string → bool) :
  (∀ s pos e mk', k s pos = Some (e, mk') →
     ∃ j, e = pos + j ∧ j ≤ String.length s ∧ accept e (Str.drop j s) = true) →
  ∀ s pos e mk', Re.star a k s pos = Some (e, mk') →
     ∃ j, e = pos + j ∧ j ≤ String.length s ∧ accept e (Str.drop j s) = true.
Proof.
  intros Hk s. induction s as [|c s IH]; intros pos e mk'; simpl.
  - apply Hk.
  - destruct (Re.atom_matches a c); [|apply Hk].
    destruct (Re.star a k s (S pos)) as [r|] eqn:E; [|apply Hk].
    intros [= ->]. destruct (IH _ _ _ E) as [j [-> [Hj Ha]]].
    exists (S j). repeat split; [lia | simpl; lia | done].
Qed.

(** A match that starts at [pos] ends at or behind [pos], inside the
    text, at a place the acceptance test approved. *)
Lemma run_end (ts : list Re.token) (accept : nat → string → bool) :
  ∀ s pos mk e mk', Re.run ts accept s pos mk = Some (e, mk') →
    ∃ j, e = pos + j ∧ j ≤ String.length s ∧ accept e (Str.drop j s) = true.
Proof.
  induction ts as [|t ts IH]; intros s pos mk e mk'; simpl.
  - destruct (accept pos s) eqn:A; [|discriminate]. intros [= <- <-].
    exists 0. rewrite drop_0. repeat split; [lia | lia | done].
  - assert (Hstep : ∀ c s', Re.run ts accept s' (S pos) mk = Some (e, mk') →
        ∃ j, e = pos + j ∧ j ≤ String.length (String c s')
             ∧ accept e (Str.drop j (String c s')) = true).
    { intros c s' H. destruct (IH _ _ _ _ _ H) as [j [-> [Hj Ha]]].
      exists (S j). repeat split; [lia | simpl; lia | done]. }
    destruct t as [a|a|a|a| | |n|n].
    + destruct s as [|c s']; [discriminate|].
      destruct (Re.atom_matches a c); [apply Hstep | discriminate].
    + apply star_end. intros ? ? ? ?. apply IH.
    + destruct s as [|c s']; [discriminate|].
      destruct (Re.atom_matches a c); [|discriminate].
      intros H. apply (star_end a _ accept) in H; [|intros ? ? ? ?; apply IH].
      destruct H as [j [-> [Hj Ha]]].
      exists (S j). repeat split; [lia | simpl; lia | done].
    + destruct s as [|c s']; [apply IH|].
      destruct (Re.atom_matches a c); [|apply IH].
      destruct (Re.run ts accept s' (S pos) mk) as [r|] eqn:E; [|apply IH].
      intros [= ->]. by apply Hstep.
    + destruct (pos =? 0)%nat; [apply IH | discriminate].
    + destruct (Re.at_end s); [apply IH | discriminate].
    + apply IH.
    + apply IH.
Qed.

Lemma match_at_bounds (p : Re.Pattern) (accept : nat → string → bool)
    (s : string) (pos : nat) (m : Re.Match) :
  Re.match_at p accept s pos = Some m →
  Re.m_start m = pos
  ∧ ∃ j, Re.m_end m = pos + j ∧ j ≤ String.length s
         ∧ accept (Re.m_end m) (Str.drop j s) = true.
Proof.
  unfold Re.match_at.
  destruct (Re.run (Re.tokens p) accept s pos Re.no_marks) as [[e mk]|] eqn:E;
    [|discriminate].
  intros [= <-]. simpl. split; [done|]. by eapply run_end.
Qed.

(** ** Substitution replaces every match *)

Lemma drop_S (text : string) (pos : nat) (c : ascii) (s : string) :
  Str.drop pos text = String c s → Str.drop (S pos) text = s.
Proof.
  revert text; induction pos as [|pos IH]; intros text.
  - rewrite drop_0. intros ->. simpl. apply drop_0.
  - destruct text as [|d text]; simpl; [discriminate|]. apply IH.
Qed.

Lemma slice_same (a : nat) (text : string) : Re.slice a a text = "".
Proof. unfold Re.slice. by rewrite Nat.sub_diag. Qed.

Lemma slice_step (text : string) (pos b : nat) (c : ascii) (s : string) :
  Str.drop pos text = String c s → pos < b →
  Re.slice pos b text = String c (Re.slice (S pos) b text).
Proof.
  intros Hd Hlt. unfold Re.slice. rewrite Hd, (drop_S _ _ _ _ Hd).
  replace (b - pos) with (S (b - S pos)) by lia. done.
Qed.

Lemma splice_copy (tmpl : list Re.tpart) (text : string) (pos : nat) (c : ascii)
    (s : string) (ms : list Re.Match) :
  Str.drop pos text = String c s →
  Forall (fun m => S pos ≤ Re.m_start m) ms →
  splice tmpl text pos ms = String c (splice tmpl text (S pos) ms).
Proof.
  intros Hd Hms. destruct Hms as [|m ms Hm _]; cbn [splice].
  - by rewrite Hd, (drop_S _ _ _ _ Hd).
  - rewrite (slice_step _ _ _ _ _ Hd); [done | lia].
Qed.

Lemma iter_walk_starts (p : Re.Pattern) (s : string) :
  ∀ pos skip, Forall (fun m => pos + skip ≤ Re.m_start m) (Re.iter_walk p s pos skip).
Proof.
  induction s as [|c s IH]; intros pos skip.
  - destruct skip; simpl; [|constructor].
    destruct (Re.match_at p Re.accept_any "" pos) as [m|] eqn:M; [|constructor].
    apply match_at_bounds in M as [Hs _]. repeat constructor. lia.
  - destruct skip as [|k]; simpl.
    2: { eapply Forall_impl; [apply IH|]. simpl. intros; lia. }
    destruct (Re.match_at p Re.accept_any (String c s) pos) as [m|] eqn:M.
    2: { eapply Forall_impl; [apply IH|]. simpl. intros; lia. }
    apply match_at_bounds in M as [Hs [j [He _]]].
    constructor; [lia|].
    destruct (Re.m_end m =? pos)%nat.
    + destruct (Re.match_at p (Re.accept_advance pos) (String c s) pos) as [m'|] eqn:M'.
      * apply match_at_bounds in M' as [Hs' _]. constructor; [lia|].
        eapply Forall_impl; [apply IH|]. simpl. intros; lia.
      * eapply Forall_impl; [apply IH|]. simpl. intros; lia.
    + eapply Forall_impl; [apply IH|]. simpl. intros; lia.
Qed.

Lemma sub_walk_splice (p : Re.Pattern) (tmpl : list Re.tpart) (text : string) (s : string) :
  ∀ pos skip, Str.drop pos text = s → skip ≤ String.length s →
    Re.sub_walk p tmpl text s pos skip None
    = splice tmpl text (pos + skip) (Re.iter_walk p s pos skip).
Proof.
  induction s as [|c s IH]; intros pos skip Hd Hskip.
  - destruct skip as [|k]; [|simpl in Hskip; lia]. rewrite Nat.add_0_r. simpl.
    destruct (Re.match_at p Re.accept_any "" pos) as [m|] eqn:M; simpl.
    + apply match_at_bounds in M as [Hs [j [He [Hj _]]]]. simpl in Hj.
      rewrite Hs, slice_same. replace (Re.m_end m) with pos by lia.
      rewrite Hd. by str_simpl.
    + by rewrite Hd.
  - pose proof (drop_S _ _ _ _ Hd) as Hd'.
    destruct skip as [|k].
    2: { simpl in Hskip. cbn [Re.sub_walk Re.iter_walk].
         rewrite IH; [|done|lia]. f_equal. lia. }
    rewrite Nat.add_0_r. cbn [Re.sub_walk Re.iter_walk Re.exhausted Re.spend].
    destruct (Re.match_at p Re.accept_any (String c s) pos) as [m|] eqn:M.
    2: { rewrite IH; [|done|lia]. rewrite Nat.add_0_r. symmetry.
         eapply splice_copy; [done|].
         eapply Forall_impl; [apply (iter_walk_starts p s (S pos) 0)|].
         simpl. intros; lia. }
    apply match_at_bounds in M as [Hs [j [He [Hj _]]]]. simpl in Hj.
    cbn [splice]. rewrite Hs, slice_same. str_simpl. f_equal.
    destruct (Re.m_end m =? pos)%nat eqn:Eq.
    + apply Nat.eqb_eq in Eq. rewrite Eq.
      destruct (Re.match_at p (Re.accept_advance pos) (String c s) pos) as [m'|] eqn:M'.
      * apply match_at_bounds in M' as [Hs' [j' [He' [Hj' Ha']]]]. simpl in Hj'.
        unfold Re.accept_advance in Ha'. apply negb_true_iff, Nat.eqb_neq in Ha'.
        cbn [splice]. rewrite Hs', slice_same. str_simpl. f_equal.
        rewrite IH; [|done|lia]. f_equal. lia.
      * rewrite IH; [|done|lia]. rewrite Nat.add_0_r. symmetry.
        eapply splice_copy; [done|].
        eapply Forall_impl; [apply (iter_walk_starts p s (S pos) 0)|].
        simpl. intros; lia.
    + apply Nat.eqb_neq in Eq. rewrite IH; [|done|lia]. f_equal. lia.
Qed.

(** With the pattern a, the replacement b and the text a_a, both
    occurrences are replaced, not just the first. *)
Lemma second_match_substituted :
  (∃ p, get_compiled_pattern "a" 0 = Ok p
        ∧ map match_span (Re.Pattern_finditer p "a_a") = [(0, 1); (2, 3)])
  ∧ substitute_with_capture "a_a" "a" "b" = Ok "b_b".
Proof. split; [exists a_pattern; split|]; vm_compute; reflexivity. Qed.

(** C3, as the code has it.  [substitute_with_capture] substitutes every
    match that the left-to-right scan of the text finds (the matches do
    not overlap; this is [Pattern.sub] with its default count), each by the
    replacement in which [$N] stands for group [N] of that match; the text
    between and around the matches is kept.  So thing_old becomes
    thing_new under the pattern that captures what precedes _old and the
    replacement $1_new, and a_a becomes b_b under a and b. *)
Theorem substitute_with_capture_every_match (text pattern replacement : string)
    (p : Re.Pattern) (tmpl : list Re.tpart) :
  get_compiled_pattern pattern 0 = Ok p →
  Re.parse_template (Str.replace "$" "\" replacement) (Re.groups p) = Ok tmpl →
  substitute_with_capture text pattern replacement
    = Ok (splice tmpl text 0 (Re.Pattern_finditer p text))
  ∧ Re.parse_template (Str.replace "$" "\" "$1_new") 1
    = Ok [Re.GroupRef 1; Re.Lit "_"; Re.Lit "n"; Re.Lit "e"; Re.Lit "w"]
  ∧ substitute_with_capture "thing_old" "(.*)_old" "$1_new" = Ok "thing_new"
  ∧ substitute_with_capture "a_a" "a" "b" = Ok "b_b".
Proof.
  intros Hc Ht. split; [|repeat split; vm_compute; reflexivity].
  unfold substitute_with_capture. rewrite Hc. rsimpl. re_unfold.
  unfold Re.Pattern_sub, Re.Pattern_finditer. rewrite Ht. rsimpl. f_equal.
  change (if (0 =? 0)%nat then None else Some 0) with (@None nat).
  rewrite sub_walk_splice; [done | apply drop_0 | lia].
Qed.

Lemma substitute_with_capture_every_match_witness :
  get_compiled_pattern "a" 0 = Ok a_pattern
  ∧ Re.parse_template (Str.replace "$" "\" "b") (Re.groups a_pattern) = Ok [Re.Lit "b"]
  ∧ substitute_with_capture "a_a_a" "a" "b" = Ok "b_b_b".
Proof.
  assert (Hc : get_compiled_pattern "a" 0 = Ok a_pattern) by (vm_compute; reflexivity).
  assert (Ht : Re.parse_template (Str.replace "$" "\" "b") (Re.groups a_pattern)
               = Ok [Re.Lit "b"]) by (vm_compute; reflexivity).
  split; [exact Hc|]. split; [exact Ht|].
  rewrite (proj1 (substitute_with_capture_every_match "a_a_a" "a" "b" _ _ Hc Ht)).
  vm_compute. reflexivity.
Defined.

(** ** What the matcher accepts *)

Lemma orelse_is_Some {A} (x y : option A) :
  is_Some (match x with Some r => Some r | None => y end) ↔ is_Some x ∨ is_Some y.
Proof.
  destruct x as [r|]; split; eauto.
  - intros [[? [=]]|?]; done.
Qed.

Lemma star_spec (a : Re.atom) (k : string → nat → option (nat * Re.marks)) (s : string) :
  ∀ pos, is_Some (Re.star a k s pos) ↔
    ∃ s1 s2, s = s1 +:+ s2 ∧ all_match a s1 = true
             ∧ is_Some (k s2 (pos + String.length s1)).
Proof.
  induction s as [|c s IH]; intros pos; cbn [Re.star].
  - split.
    + intros H. exists "", "". rewrite Nat.add_0_r. done.
    + intros [s1 [s2 [Hs [_ Hk]]]]. destruct s1; [|discriminate].
      str_simpl. subst s2. by rewrite Nat.add_0_r in Hk.
  - assert (Hstop : is_Some (k (String c s) pos) →
        ∃ s1 s2, String c s = s1 +:+ s2 ∧ all_match a s1 = true
                 ∧ is_Some (k s2 (pos + String.length s1))).
    { intros H. exists "", (String c s). rewrite Nat.add_0_r. done. }
    destruct (Re.atom_matches a c) eqn:Ma.
    + rewrite orelse_is_Some, IH. split.
      * intros [[s1 [s2 [-> [Hall Hk]]]]|H]; [|by apply Hstop].
        exists (String c s1), s2. str_simpl. cbn [all_match String.length].
        rewrite Ma, Hall. replace (pos + S (String.length s1))
          with (S pos + String.length s1) by lia. done.
      * intros [s1 [s2 [Hs [Hall Hk]]]]. destruct s1 as [|d s1].
        -- right. str_simpl. subst s2. by rewrite Nat.add_0_r in Hk.
        -- left. str_simpl. injection Hs as -> ->. cbn [all_match] in Hall.
           apply andb_true_iff in Hall as [_ Hall]. exists s1, s2.
           cbn [String.length] in Hk.
           replace (pos + S (String.length s1))
             with (S pos + String.length s1) in Hk by lia. done.
    + split; [apply Hstop|].
      intros [s1 [s2 [Hs [Hall Hk]]]]. destruct s1 as [|d s1].
      * str_simpl. subst s2. by rewrite Nat.add_0_r in Hk.
      * str_simpl. injection Hs as -> ->. cbn [all_match] in Hall.
        rewrite Ma in Hall. discriminate.
Qed.

Lemma str_length_app (s t : string) :
  String.length (s +:+ t) = String.length s + String.length t.
Proof. induction s as [|c s IH]; [done|]. str_simpl. simpl. by rewrite IH. Qed.

(** The matcher finds a match exactly when the tokens can consume a
    prefix of the text that the acceptance test approves. *)
Lemma run_Sem (ts : list Re.token) (accept : nat → string → bool) :
  ∀ s pos mk, is_Some (Re.run ts accept s pos mk) ↔
    ∃ s1 s2, s = s1 +:+ s2 ∧ Sem ts pos s1 s2
             ∧ accept (pos + String.length s1) s2 = true.
Proof.
  induction ts as [|t ts IH]; intros s pos mk.
  - cbn [Re.run Sem]. split.
    + destruct (accept pos s) eqn:A; [|intros []; discriminate].
      intros _. exists "", s. rewrite Nat.add_0_r. done.
    + intros [s1 [s2 [-> [-> A]]]]. str_simpl. rewrite Nat.add_0_r in A.
      rewrite A. eauto.
  - assert (Hcons : ∀ c s0, Re.atom_matches (match t with
                      | Re.TAtom a | Re.TOpt a | Re.TStar a | Re.TPlus a => a
                      | _ => Re.AAny end) c = true →
        (is_Some (Re.run ts accept s0 (S pos) mk) ↔
         ∃ s1 s2, String c s0 = s1 +:+ s2
           ∧ (∃ c' s', s1 = String c' s'
                ∧ Re.atom_matches (match t with
                      | Re.TAtom a | Re.TOpt a | Re.TStar a | Re.TPlus a => a
                      | _ => Re.AAny end) c' = true
                ∧ Sem ts (S pos) s' s2)
           ∧ accept (pos + String.length s1) s2 = true)).
    { intros c s0 Ma. rewrite IH. split.
      - intros [s1 [s2 [-> [HS A]]]]. exists (String c s1), s2. str_simpl.
        split; [done|]. split; [eauto|]. cbn [String.length].
        by replace (pos + S (String.length s1)) with (S pos + String.length s1) by lia.
      - intros [s1 [s2 [Hs [[c' [s' [-> [_ HS]]]] A]]]]. str_simpl.
        injection Hs as -> ->. exists s', s2. split; [done|]. split; [done|].
        cbn [String.length] in A.
        by replace (pos + S (String.length s'))
          with (S pos + String.length s') in A by lia. }
    destruct t as [a|a|a|a| | |n|n]; cbn [Re.run Sem].
    + destruct s as [|c s0].
      * split; [intros []; discriminate|].
        intros [s1 [s2 [Hs [[c' [s' [-> _]]] _]]]]. discriminate.
      * destruct (Re.atom_matches a c) eqn:Ma; [by apply Hcons|].
        split; [intros []; discriminate|].
        intros [s1 [s2 [Hs [[c' [s' [-> [Ma' _]]]] _]]]]. str_simpl.
        injection Hs as -> ->. congruence.
    + rewrite star_spec. split.
      * intros [s1 [s2 [-> [Hall Hk]]]]. apply IH in Hk as [s3 [s4 [-> [HS A]]]].
        exists (s1 +:+ s3), s4. rewrite str_app_assoc, str_length_app.
        split; [done|]. split; [eauto|]. by rewrite Nat.add_assoc.
      * intros [s1 [s2 [-> [[u1 [u2 [-> [Hall HS]]]] A]]]].
        exists u1, (u2 +:+ s2). rewrite str_app_assoc. split; [done|]. split; [done|].
        apply IH. exists u2, s2. rewrite str_length_app, Nat.add_assoc in A. done.
    + destruct s as [|c s0].
      * split; [intros []; discriminate|].
        intros [s1 [s2 [Hs [[c' [u1 [u2 [-> _]]]] _]]]]. discriminate.
      * destruct (Re.atom_matches a c) eqn:Ma.
        -- rewrite star_spec. split.
           ++ intros [s1 [s2 [-> [Hall Hk]]]].
              apply IH in Hk as [s3 [s4 [-> [HS A]]]].
              exists (String c (s1 +:+ s3)), s4. str_simpl. rewrite str_app_assoc.
              split; [done|]. split; [eauto 10|].
              cbn [String.length]. rewrite str_length_app.
              replace (pos + S (String.length s1 + String.length s3))
                with (S pos + String.length s1 + String.length s3) by lia. done.
           ++ intros [s1 [s2 [Hs [[c' [u1 [u2 [-> [_ [Hall HS]]]]]] A]]]].
              str_simpl. injection Hs as -> ->.
              exists u1, (u2 +:+ s2). rewrite str_app_assoc. split; [done|].
              split; [done|]. apply IH. exists u2, s2.
              cbn [String.length] in A. rewrite str_length_app in A.
              replace (pos + S (String.length u1 + String.length u2))
                with (S pos + String.length u1 + String.length u2) in A by lia. done.
        -- split; [intros []; discriminate|].
           intros [s1 [s2 [Hs [[c' [u1 [u2 [-> [Ma' _]]]]] _]]]]. str_simpl.
           injection Hs as -> ->. congruence.
    + assert (Hskip : is_Some (Re.run ts accept s pos mk) ↔
          ∃ s1 s2, s = s1 +:+ s2 ∧ Sem ts pos s1 s2
                   ∧ accept (pos + String.length s1) s2 = true) by apply IH.
      destruct s as [|c s0].
      * rewrite Hskip. split.
        -- intros [s1 [s2 [Hs [HS A]]]]. exists s1, s2. eauto.
        -- intros [s1 [s2 [Hs [[HS|[c' [s' [-> _]]]] A]]]]; [eauto|discriminate].
      * destruct (Re.atom_matches a c) eqn:Ma.
        -- rewrite orelse_is_Some, (Hcons c s0 Ma), Hskip. split.
           ++ intros [[s1 [s2 [Hs [HS A]]]]|[s1 [s2 [Hs [HS A]]]]];
                exists s1, s2; eauto.
           ++ intros [s1 [s2 [Hs [[HS|HS] A]]]]; [right|left]; exists s1, s2; eauto.
        -- rewrite Hskip. split.
           ++ intros [s1 [s2 [Hs [HS A]]]]. exists s1, s2. eauto.
           ++ intros [s1 [s2 [Hs [[HS|[c' [s' [-> [Ma' _]]]]] A]]]]; [eauto|].
              str_simpl. injection Hs as -> ->. congruence.
    + destruct (pos =? 0)%nat eqn:P.
      * apply Nat.eqb_eq in P. rewrite IH. split.
        -- intros [s1 [s2 [Hs [HS A]]]]. exists s1, s2. eauto.
        -- intros [s1 [s2 [Hs [[_ HS] A]]]]. exists s1, s2. eauto.
      * apply Nat.eqb_neq in P. split; [intros []; discriminate|].
        intros [s1 [s2 [_ [[P' _] _]]]]. done.
    + destruct (Re.at_end s) eqn:E.
      * rewrite IH. split.
        -- intros [s1 [s2 [Hs [HS A]]]]. exists s1, s2. subst s. eauto.
        -- intros [s1 [s2 [Hs [[_ HS] A]]]]. exists s1, s2. eauto.
      * split; [intros []; discriminate|].
        intros [s1 [s2 [-> [[E' _] _]]]]. congruence.
    + apply IH.
    + apply IH.
Qed.

(** Without anchors, what the tokens consume does not depend on where
    the match starts or on what follows. *)
Lemma Sem_anchor_free (ts : list Re.token) :
  anchor_free ts = true →
  ∀ pos s rest pos' rest', Sem ts pos s rest → Sem ts pos' s rest'.
Proof.
  induction ts as [|t ts IH]; intros Haf pos s rest pos' rest'; [done|].
  cbn [anchor_free forallb] in Haf. apply andb_true_iff in Haf as [Ht Haf].
  specialize (IH Haf).
  destruct t as [a|a|a|a| | |n|n]; cbn [Sem]; try discriminate.
  - intros [c [s' [-> [Ma HS]]]]. eauto 10.
  - intros [s1 [s2 [-> [Hall HS]]]]. eauto 10.
  - intros [c [s1 [s2 [-> [Ma [Hall HS]]]]]]. exists c, s1, s2. eauto 10.
  - intros [HS|[c [s' [-> [Ma HS]]]]]; [left|right]; eauto 10.
  - eauto.
  - eauto.
Qed.

Lemma at_end_app_nil (rest : string) : Re.at_end ("" +:+ rest) = Re.at_end rest.
Proof. done. Qed.

Lemma Sem_app_eol (ts : list Re.token) :
  ∀ pos s rest,
    Sem (ts ++ [Re.TEol]) pos s rest ↔ Sem ts pos s rest ∧ Re.at_end rest = true.
Proof.
  induction ts as [|t ts IH]; intros pos s rest.
  - cbn [app Sem]. split.
    + intros [E ->]. by rewrite at_end_app_nil in E.
    + intros [-> E]. by rewrite at_end_app_nil.
  - rewrite <- app_comm_cons.
    destruct t as [a|a|a|a| | |n|n]; cbn [Sem].
    + split.
      * intros [c [s' [-> [Ma HS]]]]. apply IH in HS as [HS E]. eauto 10.
      * intros [[c [s' [-> [Ma HS]]]] E]. exists c, s'. rewrite IH. eauto.
    + split.
      * intros [s1 [s2 [-> [Hall HS]]]]. apply IH in HS as [HS E]. eauto 10.
      * intros [[s1 [s2 [-> [Hall HS]]]] E]. exists s1, s2. rewrite IH. eauto.
    + split.
      * intros [c [s1 [s2 [-> [Ma [Hall HS]]]]]]. apply IH in HS as [HS E].
        split; [|done]. exists c, s1, s2. eauto.
      * intros [[c [s1 [s2 [-> [Ma [Hall HS]]]]]] E]. exists c, s1, s2.
        rewrite IH. eauto.
    + split.
      * intros [HS|[c [s' [-> [Ma HS]]]]]; apply IH in HS as [HS E]; eauto 10.
      * intros [[HS|[c [s' [-> [Ma HS]]]]] E]; [left|right].
        -- rewrite IH. eauto.
        -- exists c, s'. rewrite IH. eauto.
    + rewrite IH. tauto.
    + rewrite IH. tauto.
    + apply IH.
    + apply IH.
Qed.

Lemma at_end_cases (s : string) : Re.at_end s = true ↔ s = "" ∨ s = String "010" "".
Proof.
  destruct s as [|c [|d s]]; cbn [Re.at_end].
  - split; eauto.
  - rewrite Ascii.eqb_eq. split; [intros ->; eauto | intros [?|[= ->]]; done].
  - split; [discriminate | intros [?|?]; discriminate].
Qed.

(** ** Anchoring a pattern between [^] and [$] *)

Lemma lex_app_dollar (n : nat) :
  ∀ s ls, String.length s ≤ n → Re.lex s = Ok ls →
    Re.lex (s +:+ "$") = Ok (ls ++ [Re.LDollar]).
Proof.
  induction n as [|n IH]; intros s ls Hn.
  - destruct s; [|simpl in Hn; lia]. intros [= <-]. reflexivity.
  - destruct s as [|c s1]; [intros [= <-]; reflexivity|]. simpl in Hn.
    assert (IH1 : ∀ ls1, Re.lex s1 = Ok ls1 →
              Re.lex (s1 +:+ "$") = Ok (ls1 ++ [Re.LDollar]))
      by (intros; apply IH; [lia | done]).
    rewrite str_app_cons.
    destruct c as [[] [] [] [] [] [] [] []]; cbn [Re.lex]; rsimpl;
      try discriminate;
      try (destruct (Re.lex s1) as [ls1|] eqn:E; [|discriminate];
           intros [= <-]; rewrite (IH1 _ eq_refl); reflexivity).
    + (* a backslash *)
      destruct s1 as [|d s2]; [discriminate|]. rewrite str_app_cons.
      destruct (Re.is_alnum d); [discriminate|].
      destruct (Re.lex s2) as [ls2|] eqn:E; [|discriminate].
      intros [= <-]. rewrite (IH s2 ls2); [reflexivity | simpl in Hn; lia | done].
    + (* an opening parenthesis *)
      destruct s1 as [|d s2]; [intros [= <-]; reflexivity|].
      rewrite str_app_cons. cbn [Re.starts_with_quest].
      rewrite <- str_app_cons.
      destruct (match d with "?"%char => true | _ => false end); [discriminate|].
      destruct (Re.lex (String d s2)) as [ls1|] eqn:E; [|discriminate].
      intros [= <-]. rewrite (IH1 _ eq_refl). reflexivity.
Qed.

Lemma parse_app_dollar (n : nat) :
  ∀ ls p k opened ts g, length ls ≤ n →
    Re.parse ls p k opened = Ok (ts, g) →
    Re.parse (ls ++ [Re.LDollar]) p k opened = Ok (ts ++ [Re.TEol], g).
Proof.
  induction n as [|n IH]; intros ls p k opened ts g Hn.
  - destruct ls; [|simpl in Hn; lia]. cbn [app Re.parse].
    destruct opened; [|discriminate]. intros [= <- <-]. reflexivity.
  - destruct ls as [|l rest].
    { cbn [app Re.parse]. destruct opened; [|discriminate].
      intros [= <- <-]. reflexivity. }
    simpl in Hn. rewrite <- app_comm_cons.
    assert (Hrest : ∀ p' k' o' ts' g',
              Re.parse rest p' k' o' = Ok (ts', g') →
              Re.parse (rest ++ [Re.LDollar]) p' k' o' = Ok (ts' ++ [Re.TEol], g'))
      by (intros; apply IH; [lia | done]).
    assert (Hatom : ∀ a,
      match rest with
      | (Re.LStar | Re.LPlus | Re.LQuest) as q :: rest' =>
          '(ts, k0) ← Re.parse rest' Re.PQuant k opened; Ok (Re.quantify q a :: ts, k0)
      | _ => '(ts, k0) ← Re.parse rest Re.PAtom k opened; Ok (Re.TAtom a :: ts, k0)
      end = Ok (ts, g) →
      match rest ++ [Re.LDollar] with
      | (Re.LStar | Re.LPlus | Re.LQuest) as q :: rest' =>
          '(ts, k0) ← Re.parse rest' Re.PQuant k opened; Ok (Re.quantify q a :: ts, k0)
      | _ => '(ts, k0) ← Re.parse (rest ++ [Re.LDollar]) Re.PAtom k opened;
             Ok (Re.TAtom a :: ts, k0)
      end = Ok (ts ++ [Re.TEol], g)).
    { intros a. destruct rest as [|q rest'].
      - cbn [app]. rsimpl. cbn [Re.parse]. destruct opened; [|discriminate].
        rsimpl. intros [= <- <-]. reflexivity.
      - rewrite <- app_comm_cons.
        destruct q; rsimpl;
          try (destruct (Re.parse (_ :: rest') Re.PAtom k opened) as [[ts' g']|] eqn:E;
               [|discriminate]; intros [= <- <-];
               rewrite app_comm_cons, (Hrest _ _ _ _ _ E); reflexivity);
          (destruct (Re.parse rest' Re.PQuant k opened) as [[ts' g']|] eqn:E;
             [|discriminate]; intros [= <- <-];
             rewrite (IH rest' _ _ _ _ _ ltac:(simpl in Hn; lia) E); reflexivity). }
    destruct l; cbn [Re.parse]; try discriminate; try apply Hatom; rsimpl.
    + destruct (Re.parse rest Re.PNone k opened) as [[ts' g']|] eqn:E; [|discriminate].
      intros [= <- <-]. rewrite (Hrest _ _ _ _ _ E). reflexivity.
    + destruct (Re.parse rest Re.PNone k opened) as [[ts' g']|] eqn:E; [|discriminate].
      intros [= <- <-]. rewrite (Hrest _ _ _ _ _ E). reflexivity.
    + destruct (Re.parse rest Re.PNone (S k) (S k :: opened)) as [[ts' g']|] eqn:E;
        [|discriminate].
      intros [= <- <-]. rewrite (Hrest _ _ _ _ _ E). reflexivity.
    + destruct opened as [|o opened']; [discriminate|].
      destruct (Re.parse rest Re.PClose k opened') as [[ts' g']|] eqn:E; [|discriminate].
      intros [= <- <-]. rewrite (Hrest _ _ _ _ _ E). reflexivity.
Qed.

(** A pattern that compiles still compiles between [^] and [$], to its
    own tokens between the two anchors. *)
Lemma compile_anchored (body : string) (p : Re.Pattern) :
  Re.compile body 0 = Ok p →
  Re.compile ("^" +:+ body +:+ "$") 0
  = Ok {| Re.tokens := Re.TBol :: Re.tokens p ++ [Re.TEol]; Re.groups := Re.groups p |}.
Proof.
  unfold Re.compile. change ((0 =? 0)%Z) with true. cbn match.
  destruct (Re.lex body) as [ls|] eqn:L; rsimpl; [|discriminate].
  destruct (Re.parse ls Re.PNone 0 []) as [[ts g]|] eqn:P; rsimpl; [|discriminate].
  intros [= <-]. cbn [Re.tokens Re.groups].
  change ("^" +:+ body +:+ "$") with (String "^" (body +:+ "$")).
  cbn [Re.lex]. rewrite (lex_app_dollar _ body ls (le_n _) L). rsimpl.
  cbn [Re.parse]. rewrite (parse_app_dollar _ ls _ _ _ _ _ (le_n _) P). rsimpl.
  reflexivity.
Qed.

(** ** Wildcard matching is a match of the whole text *)

Lemma match_at_is_Some (p : Re.Pattern) (accept : nat → string → bool)
    (s : string) (pos : nat) :
  is_Some (Re.match_at p accept s pos)
  ↔ is_Some (Re.run (Re.tokens p) accept s pos Re.no_marks).
Proof.
  unfold Re.match_at.
  destruct (Re.run (Re.tokens p) accept s pos Re.no_marks) as [[e mk]|].
  - split; eauto.
  - split; intros []; discriminate.
Qed.

(** [Pattern.fullmatch] succeeds exactly on the texts the tokens consume
    whole. *)
Lemma fullmatch_Sem (p : Re.Pattern) (s : string) :
  is_Some (Re.Pattern_fullmatch p s) ↔ Sem (Re.tokens p) 0 s "".
Proof.
  unfold Re.Pattern_fullmatch. rewrite match_at_is_Some, run_Sem. split.
  - intros [s1 [s2 [-> [HS A]]]]. destruct s2; [|discriminate].
    by rewrite str_app_nil_r.
  - intros HS. exists s, "". by rewrite str_app_nil_r.
Qed.

(** The tag abcd starts with abc, which the pattern abc matches, and is
    not matched. *)
Lemma prefix_match_rejected :
  match_with_wildcards "abc" "abc" true = Ok true
  ∧ "abcd" = "abc" +:+ "d"
  ∧ match_with_wildcards "abcd" "abc" true = Ok false.
Proof. repeat split; vm_compute; reflexivity. Qed.

(** Between [^] and [$] the prefix operator accepts a text when the
    pattern consumes it up to its end or up to one final newline. *)
Lemma match_anchored_Sem (text pattern body : string) (p : Re.Pattern) :
  wildcard_to_regex pattern = Ok ("^" +:+ body +:+ "$") →
  Re.compile body 0 = Ok p →
  ∃ b, match_with_wildcards text pattern true = Ok b
       ∧ (b = true ↔
            ∃ s1 s2, text = s1 +:+ s2 ∧ Sem (Re.tokens p) 0 s1 s2
                     ∧ Re.at_end s2 = true).
Proof.
  intros Hw Hc. unfold match_with_wildcards, get_compiled_pattern.
  rewrite Hw. rsimpl. cbn [negb]. re_unfold.
  rewrite (compile_anchored _ _ Hc). rsimpl.
  eexists. split; [reflexivity|].
  rewrite bool_decide_eq_true. unfold Re.Pattern_match.
  rewrite match_at_is_Some, run_Sem. cbn [Re.tokens Sem]. split.
  - intros [s1 [s2 [-> [[_ HS] _]]]]. apply Sem_app_eol in HS as [HS E]. eauto.
  - intros [s1 [s2 [-> [HS E]]]]. exists s1, s2.
    split; [reflexivity|]. split; [|reflexivity].
    split; [reflexivity|]. apply Sem_app_eol. split; assumption.
Qed.

(** C4, as the code has it.  The translated pattern is the translation
    of the wildcards between [^] and [$], so the prefix operator
    [Pattern.match] is a match of the whole text: when that translation
    compiles and has no anchor of its own, [match_with_wildcards] returns,
    and it returns [True] exactly when the whole text matches it, or the
    text is such a match followed by one final newline (which [$]
    tolerates).  No other extension of a matching text is accepted for
    being an extension. *)
Theorem match_with_wildcards_full_string (text pattern body : string)
    (p : Re.Pattern) :
  wildcard_to_regex pattern = Ok ("^" +:+ body +:+ "$") →
  Re.compile body 0 = Ok p →
  anchor_free (Re.tokens p) = true →
  ∃ b, match_with_wildcards text pattern true = Ok b
       ∧ (b = true ↔
            is_Some (Re.Pattern_fullmatch p text)
            ∨ ∃ s, text = s +:+ newline ∧ is_Some (Re.Pattern_fullmatch p s)).
Proof.
  intros Hw Hc Haf.
  destruct (match_anchored_Sem text pattern body p Hw Hc) as [b [Hb Hiff]].
  exists b. split; [exact Hb|]. rewrite Hiff. setoid_rewrite fullmatch_Sem. split.
  - intros [s1 [s2 [-> [HS E]]]]. apply at_end_cases in E as [-> | ->].
    + left. rewrite str_app_nil_r. eapply Sem_anchor_free; eauto.
    + right. exists s1. split; [done|]. eapply Sem_anchor_free; eauto.
  - intros [HS | [s [-> HS]]].
    + exists text, "". rewrite str_app_nil_r.
      split; [reflexivity|]. split; [exact HS | reflexivity].
    + exists s, newline. split; [reflexivity|]. split; [|reflexivity].
      eapply Sem_anchor_free; eauto.
Qed.

Lemma match_with_wildcards_full_string_witness :
  wildcard_to_regex "*_hair" = Ok ("^" +:+ ".*_hair" +:+ "$")
  ∧ Re.compile ".*_hair" 0 = Ok any_hair
  ∧ anchor_free (Re.tokens any_hair) = true
  ∧ match_with_wildcards "red_hair" "*_hair" true = Ok true
  ∧ match_with_wildcards ("red_hair" +:+ newline) "*_hair" true = Ok true
  ∧ match_with_wildcards "red_hairs" "*_hair" true = Ok false.
Proof.
  assert (Hw : wildcard_to_regex "*_hair" = Ok ("^" +:+ ".*_hair" +:+ "$"))
    by (vm_compute; reflexivity).
  assert (Hc : Re.compile ".*_hair" 0 = Ok any_hair) by (vm_compute; reflexivity).
  assert (Haf : anchor_free (Re.tokens any_hair) = true) by reflexivity.
  split; [exact Hw|]. split; [exact Hc|]. split; [exact Haf|].
  destruct (match_with_wildcards_full_string "red_hair" "*_hair" _ _ Hw Hc Haf)
    as [b [Hb Hiff]].
  split; [|split; vm_compute; reflexivity].
  rewrite Hb. f_equal. apply Hiff. left. vm_compute. eauto.
Defined.

(** ** Tag names as wildcard patterns

    For a pattern of letters, digits and underscores nothing is
    translated: the underscore stays a literal and matching is equality
    with the pattern. *)

Lemma escape_plain (p : string) : all_plain p = true → Re.escape p = p.
Proof.
  induction p as [|c p IH]; [done|]. cbn [all_plain Re.escape].
  intros [Hc Hp]%andb_true_iff. rewrite (IH Hp).
  destruct c as [[] [] [] [] [] [] [] []]; try discriminate Hc; reflexivity.
Qed.

Lemma replace_plain (old new p : string) (c : ascii) :
  all_plain p = true → Str.replace (String "\" (String c old)) new p = p.
Proof.
  intros Hp. cbn [Str.replace]. induction p as [|d p IH]; [done|].
  cbn [all_plain] in Hp. apply andb_true_iff in Hp as [Hd Hp].
  cbn [Str.replace_from String.prefix].
  destruct (ascii_dec "\" d) as [<-|_]; [discriminate|]. by rewrite (IH Hp).
Qed.

Lemma sub_plain (p : string) :
  all_plain p = true → Re.sub "\\(.)\\\?" "\1?" p = Ok p.
Proof.
  intros Hp. unfold Re.sub.
  change (Re.compile "\\(.)\\\?" 0) with (Ok question_pattern). rsimpl.
  unfold Re.Pattern_sub.
  change (Re.parse_template "\1?" (Re.groups question_pattern))
    with (Ok [Re.GroupRef 1; Re.Lit "?"]).
  rsimpl. f_equal. change (if (0 =? 0)%nat then None else Some 0) with (@None nat).
  generalize 0 at 2. generalize p at 1 as text.
  induction p as [|c p IH]; intros text pos; [reflexivity|].
  cbn [all_plain] in Hp. apply andb_true_iff in Hp as [Hc Hp].
  cbn [Re.sub_walk Re.exhausted].
  assert (Hno : Re.match_at question_pattern Re.accept_any (String c p) pos = None).
  { unfold Re.match_at, question_pattern. cbn [Re.tokens Re.run Re.atom_matches].
    destruct (Ascii.eqb "\" c) eqn:E; [|done].
    apply Ascii.eqb_eq in E. subst c. discriminate. }
  rewrite Hno. by rewrite (IH Hp).
Qed.

(** The translation never raises, and the result always sits between
    the two anchors. *)
Lemma wildcard_to_regex_anchored (pattern : string) :
  ∃ body, wildcard_to_regex pattern = Ok ("^" +:+ body +:+ "$").
Proof.
  unfold wildcard_to_regex. re_unfold. unfold Re.sub.
  change (Re.compile "\\(.)\\\?" 0) with (Ok question_pattern). rsimpl.
  unfold Re.Pattern_sub.
  change (Re.parse_template "\1?" (Re.groups question_pattern))
    with (Ok [Re.GroupRef 1; Re.Lit "?"]).
  rsimpl. eauto.
Qed.

Lemma wildcard_to_regex_plain (p : string) :
  all_plain p = true → wildcard_to_regex p = Ok ("^" +:+ p +:+ "$").
Proof.
  intros Hp. unfold wildcard_to_regex. re_unfold.
  rewrite (escape_plain _ Hp), !(replace_plain _ _ _ _ Hp), (sub_plain _ Hp).
  reflexivity.
Qed.

Lemma lex_plain (p : string) :
  all_plain p = true → Re.lex p = Ok (literal_lexemes p).
Proof.
  induction p as [|c p IH]; [done|]. cbn [all_plain literal_lexemes].
  intros [Hc Hp]%andb_true_iff. specialize (IH Hp).
  destruct c as [[] [] [] [] [] [] [] []]; try discriminate Hc;
    cbn [Re.lex]; rewrite IH; reflexivity.
Qed.

Lemma parse_literal (p : string) (pv : Re.prev) :
  Re.parse (literal_lexemes p) pv 0 [] = Ok (literal_tokens p, 0).
Proof.
  revert pv. induction p as [|c p IH]; intros pv; [done|].
  cbn [literal_lexemes literal_tokens Re.parse].
  destruct p as [|d p]; [reflexivity|].
  cbn [literal_lexemes]. cbn [literal_lexemes] in IH. rewrite IH. reflexivity.
Qed.

Lemma compile_plain (p : string) :
  all_plain p = true →
  Re.compile p 0 = Ok {| Re.tokens := literal_tokens p; Re.groups := 0 |}.
Proof.
  intros Hp. unfold Re.compile. change ((0 =? 0)%Z) with true. cbn match.
  rewrite (lex_plain _ Hp). rsimpl. rewrite parse_literal. reflexivity.
Qed.

Lemma Sem_literal (p : string) :
  ∀ pos s rest, Sem (literal_tokens p) pos s rest ↔ s = p.
Proof.
  induction p as [|c p IH]; intros pos s rest; cbn [literal_tokens Sem]; [done|].
  split.
  - intros [d [s' [-> [Hd HS]]]]. apply IH in HS as ->.
    apply Ascii.eqb_eq in Hd as ->. done.
  - intros ->. exists c, p. split; [done|]. split; [|by apply IH].
    apply Ascii.eqb_refl.
Qed.

(** A tag name used as a wildcard pattern matches itself and nothing
    else (but for a final newline): no character of the tag can stand in
    for its underscores. *)
Lemma match_with_wildcards_plain (text p : string) :
  all_plain p = true →
  ∃ b, match_with_wildcards text p true = Ok b
       ∧ (b = true ↔ text = p ∨ text = p +:+ newline).
Proof.
  intros Hp.
  destruct (match_anchored_Sem text p p _
              (wildcard_to_regex_plain _ Hp) (compile_plain _ Hp)) as [b [Hb Hiff]].
  exists b. split; [done|]. rewrite Hiff. cbn [Re.tokens].
  setoid_rewrite Sem_literal. split.
  - intros [s1 [s2 [-> [-> E]]]]. apply at_end_cases in E as [-> | ->].
    + left. by rewrite str_app_nil_r.
    + by right.
  - intros [->| ->].
    + exists p, "". rewrite str_app_nil_r. repeat split; reflexivity.
    + exists p, newline. repeat split; reflexivity.
Qed.

(** ** [filter_tags] leaves the lists it is given alone *)

Section ListObjects.
Context {re : ReLibrary}.

Lemma keep_unmatched_spec (f : Filter) (out : Heap.loc) :
  ∀ tags acc (h : gmap Heap.loc (list string)), h !! out = Some acc →
    ∃ kept, snd (Heap.keep_unmatched f out tags h) = <[out := acc ++ kept]> h
      ∧ match drop_matching f tags with
        | Ok k => fst (Heap.keep_unmatched f out tags h) = Ok tt ∧ kept = k
        | Raise x => fst (Heap.keep_unmatched f out tags h) = Raise x
        end.
Proof.
  induction tags as [|tag tags IH]; intros acc h Hout.
  - exists []. simpl. rewrite app_nil_r, insert_id; done.
  - cbn [Heap.keep_unmatched drop_matching]. unfold Heap.bind, Heap.lift. rsimpl.
    destruct (matches f tag) as [[|]|x]; rsimpl.
    + unfold Heap.ret. destruct (IH acc h Hout) as [kept [Hh Hr]].
      exists kept. split; [done|].
      destruct (drop_matching f tags); rsimpl; done.
    + unfold Heap.append. rewrite Hout.
      destruct (IH (acc ++ [tag]) (<[out := acc ++ [tag]]> h)) as [kept [Hh Hr]];
        [apply lookup_insert_eq|].
      exists (tag :: kept). split.
      * rewrite Hh, insert_insert_eq, <- (assoc_L (++)). done.
      * destruct (drop_matching f tags); rsimpl; [|done].
        destruct Hr as [-> ->]. done.
    + exists []. simpl. rewrite app_nil_r, insert_id; done.
Qed.

Lemma group_loop_spec (pats : list string) (out : Heap.loc) :
  ∀ tags acc (h : gmap Heap.loc (list string)), h !! out = Some acc →
    snd (Heap.group_loop pats out tags h) = <[out := acc ++ group_remove pats tags]> h
    ∧ fst (Heap.group_loop pats out tags h) = Ok tt.
Proof.
  induction tags as [|tag tags IH]; intros acc h Hout.
  - simpl. rewrite app_nil_r, insert_id; done.
  - cbn [Heap.group_loop group_remove]. unfold Heap.bind.
    destruct (negb (should_remove tag pats)).
    + unfold Heap.append. rewrite Hout.
      destruct (IH (acc ++ [tag]) (<[out := acc ++ [tag]]> h)) as [Hh Hr];
        [apply lookup_insert_eq|].
      rewrite Hh, Hr, insert_insert_eq, <- (assoc_L (++)). done.
    + unfold Heap.ret. apply IH, Hout.
Qed.

Lemma replace_loop_spec (f : Filter) (subst : string → result string) (out : Heap.loc) :
  ∀ tags acc (h : gmap Heap.loc (list string)), h !! out = Some acc →
    ∃ done_, snd (Heap.replace_loop f subst out tags h) = <[out := acc ++ done_]> h
      ∧ match replace_matching f subst tags with
        | Ok k => fst (Heap.replace_loop f subst out tags h) = Ok tt ∧ done_ = k
        | Raise x => fst (Heap.replace_loop f subst out tags h) = Raise x
        end.
Proof.
  induction tags as [|tag tags IH]; intros acc h Hout.
  - exists []. simpl. rewrite app_nil_r, insert_id; done.
  - cbn [Heap.replace_loop replace_matching]. unfold Heap.bind, Heap.lift. rsimpl.
    destruct (matches f tag) as [b|x]; rsimpl.
    2: { exists []. simpl. rewrite app_nil_r, insert_id; done. }
    destruct (if b then subst tag else Ok tag) as [tag'|x]; rsimpl.
    2: { exists []. simpl. rewrite app_nil_r, insert_id; done. }
    unfold Heap.append. rewrite Hout.
    destruct (IH (acc ++ [tag']) (<[out := acc ++ [tag']]> h)) as [kept [Hh Hr]];
      [apply lookup_insert_eq|].
    exists (tag' :: kept). split.
    + rewrite Hh, insert_insert_eq, <- (assoc_L (++)). done.
    + destruct (replace_matching f subst tags); rsimpl; [|done].
      destruct Hr as [-> ->]. done.
Qed.

Lemma bind_read {A} (h : gmap Heap.loc (list string)) (r : Heap.loc)
    (l : list string) (k : list string → Heap.M A) :
  h !! r = Some l → Heap.bind (Heap.read r) k h = k l h.
Proof. intros H. unfold Heap.bind, Heap.read. by rewrite H. Qed.

Lemma bind_Ok {A B} (m : Heap.M A) (k : A → Heap.M B)
    (h h' : gmap Heap.loc (list string)) (a : A) :
  m h = (Ok a, h') → Heap.bind m k h = k a h'.
Proof. intros H. unfold Heap.bind. by rewrite H. Qed.

Lemma bind_Raise {A B} (m : Heap.M A) (k : A → Heap.M B)
    (h h' : gmap Heap.loc (list string)) (x : exn) :
  m h = (Raise x, h') → Heap.bind m k h = (Raise x, h').
Proof. intros H. unfold Heap.bind. by rewrite H. Qed.

Lemma bind_lift_Ok {A B} (a : A) (k : A → Heap.M B) (h : gmap Heap.loc (list string)) :
  Heap.bind (Heap.lift (Ok a)) k h = k a h.
Proof. done. Qed.

Lemma bind_lift_Raise {A B} (x : exn) (k : A → Heap.M B)
    (h : gmap Heap.loc (list string)) :
  Heap.bind (Heap.lift (Raise x)) k h = (Raise x, h).
Proof. done. Qed.

(** A new list filled by a loop that touches nothing else. *)
Lemma alloc_then_loop (loop : Heap.loc → Heap.M unit) (pure : result (list string))
    (h : gmap Heap.loc (list string)) :
  (∀ out h1, h1 !! out = Some [] →
     ∃ kept, snd (loop out h1) = <[out := kept]> h1
       ∧ match pure with
         | Ok k => fst (loop out h1) = Ok tt ∧ kept = k
         | Raise x => fst (loop out h1) = Raise x
         end) →
  let run := Heap.bind (Heap.alloc [])
               (fun out => Heap.bind (loop out) (fun _ => Heap.ret out)) h in
  h ⊆ snd run
  ∧ match pure with
    | Ok k => ∃ l, fst run = Ok l ∧ snd run !! l = Some k ∧ h !! l = None
    | Raise x => fst run = Raise x
    end.
Proof.
  intros Hloop. cbn zeta. unfold Heap.bind, Heap.alloc, Heap.ret. cbn zeta.
  remember (fresh (dom h)) as out eqn:Hout.
  assert (Hfresh : h !! out = None) by (subst out; apply not_elem_of_dom, is_fresh).
  clear Hout.
  destruct (Hloop out (<[out := []]> h)) as [kept [Hh Hr]]; [apply lookup_insert_eq|].
  destruct (loop out (<[out := []]> h)) as [[[]|x] h2] eqn:E; simpl in *; subst h2;
    rewrite insert_insert_eq.
  - split; [by apply insert_subseteq|].
    destruct pure as [k|x]; [|discriminate].
    destruct Hr as [_ ->]. exists out. by rewrite lookup_insert_eq.
  - split; [by apply insert_subseteq|].
    destruct pure as [k|y]; [destruct Hr; discriminate | by injection Hr as ->].
Qed.

Lemma apply_spec (f : Filter) (tags : Heap.loc) (ts : list string)
    (h : gmap Heap.loc (list string)) :
  h !! tags = Some ts →
  h ⊆ snd (Heap.apply f tags h)
  ∧ match apply f ts with
    | Ok out => ∃ l, fst (Heap.apply f tags h) = Ok l
                     ∧ snd (Heap.apply f tags h) !! l = Some out
                     ∧ (l = tags ∨ h !! l = None)
    | Raise x => fst (Heap.apply f tags h) = Raise x
    end.
Proof.
  intros Hin. unfold Heap.apply, apply.
  destruct (negb (is_enabled f)); [simpl; eauto 10|].
  assert (Hdrop : ∀ g,
    let run := Heap.bind (Heap.read tags) (fun ts0 =>
                 Heap.bind (Heap.alloc []) (fun out =>
                   Heap.bind (Heap.keep_unmatched g out ts0) (fun _ => Heap.ret out))) h in
    h ⊆ snd run
    ∧ match drop_matching g ts with
      | Ok out => ∃ l, fst run = Ok l ∧ snd run !! l = Some out ∧ (l = tags ∨ h !! l = None)
      | Raise x => fst run = Raise x
      end).
  { intros g. cbn zeta. rewrite (bind_read _ _ _ _ Hin).
    destruct (alloc_then_loop (fun out => Heap.keep_unmatched g out ts)
                (drop_matching g ts) h) as [Hsub Hres].
    - intros out h1 H1. destruct (keep_unmatched_spec g out ts [] h1 H1) as [k [? ?]].
      exists k. done.
    - split; [done|]. destruct (drop_matching g ts); [|done].
      destruct Hres as [l [? [? ?]]]. eauto 10. }
  assert (Hrepl : ∀ g subst,
    let run := Heap.bind (Heap.read tags) (fun ts0 =>
                 Heap.bind (Heap.alloc []) (fun out =>
                   Heap.bind (Heap.replace_loop g subst out ts0) (fun _ => Heap.ret out))) h in
    h ⊆ snd run
    ∧ match replace_matching g subst ts with
      | Ok out => ∃ l, fst run = Ok l ∧ snd run !! l = Some out ∧ (l = tags ∨ h !! l = None)
      | Raise x => fst run = Raise x
      end).
  { intros g subst. cbn zeta. rewrite (bind_read _ _ _ _ Hin).
    destruct (alloc_then_loop (fun out => Heap.replace_loop g subst out ts)
                (replace_matching g subst ts) h) as [Hsub Hres].
    - intros out h1 H1. destruct (replace_loop_spec g subst out ts [] h1 H1) as [k [? ?]].
      exists k. done.
    - split; [done|]. destruct (replace_matching g subst ts); [|done].
      destruct Hres as [l [? [? ?]]]. eauto 10. }
  destruct f as [rule|rule rx|rule c|rule|rule o rp|rule o rp c];
    try apply Hdrop; try apply Hrepl.
  destruct (rule_patterns rule) as [pats|x]; rsimpl;
    [rewrite bind_lift_Ok | by rewrite bind_lift_Raise].
  rewrite (bind_read _ _ _ _ Hin).
  destruct (negb (group_matches pats ts)); [simpl; eauto 10|].
  destruct (alloc_then_loop (fun out => Heap.group_loop pats out ts)
              (Ok (group_remove pats ts)) h) as [Hsub Hres].
  - intros out h1 H1. destruct (group_loop_spec pats out ts [] h1 H1) as [? ?].
    exists (group_remove pats ts). done.
  - split; [done|]. destruct Hres as [l [? [? ?]]]. eauto 10.
Qed.

Lemma filter_loop_spec (fs : list Filter) :
  ∀ (cur : Heap.loc) (ts : list string) (h : gmap Heap.loc (list string)),
    h !! cur = Some ts →
    h ⊆ snd (Heap.filter_loop fs cur h)
    ∧ match filter_loop fs ts with
      | Ok out => ∃ l, fst (Heap.filter_loop fs cur h) = Ok l
                       ∧ snd (Heap.filter_loop fs cur h) !! l = Some out
                       ∧ (l = cur ∨ h !! l = None)
      | Raise x => fst (Heap.filter_loop fs cur h) = Raise x
      end.
Proof.
  induction fs as [|f fs IH]; intros cur ts h Hin.
  - simpl. eauto 10.
  - cbn [Heap.filter_loop filter_loop].
    destruct (is_enabled f); [|by apply IH].
    destruct (apply_spec f cur ts h Hin) as [Hsub Hres].
    destruct (Heap.apply f cur h) as [[l1|x] h1] eqn:E; simpl in Hsub, Hres.
    2: { rewrite (bind_Raise _ _ _ _ _ E).
         destruct (apply f ts); [by destruct Hres as [? [? _]]|].
         injection Hres as ->. rsimpl. done. }
    rewrite (bind_Ok _ _ _ _ _ E).
    destruct (apply f ts) as [out1|y]; [|discriminate]. rsimpl.
    destruct Hres as [l [[= <-] [H1 Hl1]]].
    rewrite (bind_read _ _ _ _ H1).
    destruct out1 as [|t out1].
    + simpl. split; [done|]. eauto 10.
    + destruct (IH l1 (t :: out1) h1 H1) as [Hsub' Hres'].
      split; [by etrans|].
      destruct (filter_loop fs (t :: out1)); [|done].
      destruct Hres' as [l [Hf [Hs Hl]]]. exists l. split; [done|]. split; [done|].
      destruct Hl as [->|Hnone]; [done|]. right.
      destruct (h !! l) eqn:El; [|done].
      rewrite (lookup_weaken _ _ _ _ El Hsub) in Hnone. done.
Qed.


End ListObjects.


(** * Further properties of the code *)

(** ** The order of the filters *)

Section FilterOrder.
Context {re : ReLibrary}.

Lemma insert_by_priority_perm (f : Filter) (l : list Filter) :
  insert_by_priority f l ≡ₚ f :: l.
Proof.
  induction l as [|g l IH]; simpl; [done|].
  destruct (get_priority f <? get_priority g)%Z; [|done].
  rewrite IH. apply Permutation_swap.
Qed.

Lemma sort_filters_perm (fs : list Filter) : _sort_filters_by_priority fs ≡ₚ fs.
Proof.
  unfold _sort_filters_by_priority. induction fs as [|f fs IH]; simpl; [done|].
  by rewrite insert_by_priority_perm, IH.
Qed.

Lemma insert_by_priority_sorted (f : Filter) (l : list Filter) :
  StronglySorted (fun a b => (get_priority b ≤ get_priority a)%Z) l →
  StronglySorted (fun a b => (get_priority b ≤ get_priority a)%Z)
    (insert_by_priority f l).
Proof.
  induction 1 as [|g l Hs IH Hg]; simpl; [by repeat constructor|].
  destruct (get_priority f <? get_priority g)%Z eqn:E.
  - apply Z.ltb_lt in E. constructor; [done|].
    rewrite insert_by_priority_perm. constructor; [lia | done].
  - apply Z.ltb_ge in E. constructor; [by constructor|].
    constructor; [done|]. eapply Forall_impl; [exact Hg|]. simpl. intros; lia.
Qed.

Lemma sort_filters_sorted (fs : list Filter) :
  StronglySorted (fun a b => (get_priority b ≤ get_priority a)%Z)
    (_sort_filters_by_priority fs).
Proof.
  unfold _sort_filters_by_priority. induction fs as [|f fs IH]; simpl; [constructor|].
  by apply insert_by_priority_sorted.
Qed.

(** Inserting a filter does not change the order among the filters of any
    one priority: the new filter goes before those of its own priority. *)
Lemma insert_by_priority_stable (p : Z) (f : Filter) (l : list Filter) :
  List.filter (fun g => (get_priority g =? p)%Z) (insert_by_priority f l)
  = List.filter (fun g => (get_priority g =? p)%Z) (f :: l).
Proof.
  induction l as [|g l IH]; [done|]. cbn [insert_by_priority].
  destruct (get_priority f <? get_priority g)%Z eqn:E; [|done].
  apply Z.ltb_lt in E. cbn [List.filter] in *. rewrite IH.
  destruct (get_priority f =? p)%Z eqn:Ef, (get_priority g =? p)%Z eqn:Eg; try done.
  apply Z.eqb_eq in Ef, Eg. lia.
Qed.

(** A list in descending order of priority is left as it is. *)
Lemma sort_filters_sorted_id (l : list Filter) :
  StronglySorted (fun a b => (get_priority b ≤ get_priority a)%Z) l →
  _sort_filters_by_priority l = l.
Proof.
  unfold _sort_filters_by_priority. induction 1 as [|g l Hs IH Hg]; simpl; [done|].
  rewrite IH. destruct Hg as [|h l Hh _]; simpl; [done|].
  destruct (get_priority g <? get_priority h)%Z eqn:E; [|done].
  apply Z.ltb_lt in E. lia.
Qed.

(** X1.  [_sort_filters_by_priority] is a stable sort by descending
    priority: the result holds the same filters, a filter never stands
    before one of higher priority, and the filters of any one priority keep
    the order they had. *)
Theorem sort_filters_by_priority_stable_descending (fs : list Filter) :
  _sort_filters_by_priority fs ≡ₚ fs
  ∧ StronglySorted (fun a b => (get_priority b ≤ get_priority a)%Z)
      (_sort_filters_by_priority fs)
  ∧ (∀ p, List.filter (fun g => (get_priority g =? p)%Z) (_sort_filters_by_priority fs)
          = List.filter (fun g => (get_priority g =? p)%Z) fs)
  ∧ _sort_filters_by_priority (_sort_filters_by_priority fs)
    = _sort_filters_by_priority fs.
Proof.
  split; [apply sort_filters_perm|]. split; [apply sort_filters_sorted|].
  split; [|apply sort_filters_sorted_id, sort_filters_sorted].
  intros p. unfold _sort_filters_by_priority.
  induction fs as [|f fs IH]; [done|]. cbn [foldr].
  rewrite insert_by_priority_stable. cbn [List.filter]. by rewrite IH.
Qed.

End FilterOrder.

(** ** What the constructor of the engine builds *)

Section Construction.
Context {re : ReLibrary}.

Lemma construct_rule (cls : FilterClass) (rule : AnyFilterRule) (f : Filter) :
  construct cls rule = Ok f → filter_rule f = rule.
Proof.
  destruct cls; cbn [construct]; rsimpl.
  - by intros [= <-].
  - destruct (rule_pattern rule); rsimpl; [|discriminate].
    destruct (wildcard_to_regex _); rsimpl; [|discriminate]. by intros [= <-].
  - destruct (rule_pattern rule); rsimpl; [|discriminate].
    destruct (get_compiled_pattern _ _); rsimpl; [|discriminate]. by intros [= <-].
  - by intros [= <-].
  - destruct (rule_pattern rule); rsimpl; [|discriminate].
    destruct (parse_replacement_pattern _) as [[o r]|]; rsimpl; [|discriminate].
    by intros [= <-].
  - destruct (rule_pattern rule); rsimpl; [|discriminate].
    destruct (parse_replacement_pattern _) as [[o r]|]; rsimpl; [|discriminate].
    destruct (get_compiled_pattern _ _); rsimpl; [|discriminate]. by intros [= <-].
Qed.

Lemma create_filter_rule (registry : gmap string FilterClass) (rule : AnyFilterRule)
    (f : Filter) :
  create_filter registry rule = Ok f → filter_rule f = rule.
Proof.
  unfold create_filter. destruct (registry !! rule_filter_type rule); [|discriminate].
  apply construct_rule.
Qed.

(** What [_create_filters] returns when it returns: a filter for each
    enabled rule that could be built, each keeping its rule, and one line
    printed for each enabled rule that could not. *)
Lemma create_filters_account (registry : gmap string FilterClass)
    (rs : list AnyFilterRule) (out : list string) (fs : list Filter) :
  _create_filters registry rs = (out, Ok fs) →
  Forall (fun f => is_enabled f = true) fs
  ∧ map filter_rule fs `sublist_of` rs
  ∧ length fs + length out = length (List.filter rule_enabled rs).
Proof.
  revert out fs. induction rs as [|rule rs IH]; intros out fs; cbn [_create_filters].
  - intros [= <- <-]. repeat split; [constructor | done].
  - cbn [List.filter]. destruct (rule_enabled rule) eqn:En.
    2: { intros H. destruct (IH _ _ H) as [Ha [Hb Hc]].
         repeat split; [done | by apply sublist_cons | done]. }
    destruct (create_filter registry rule) as [f|[msg| | |]] eqn:C; try discriminate.
    + destruct (_create_filters registry rs) as [o [fs'|]]; rsimpl; [|discriminate].
      intros [= <- <-]. destruct (IH _ _ eq_refl) as [Ha [Hb Hc]].
      pose proof (create_filter_rule _ _ _ C) as Hr.
      repeat split.
      * constructor; [|done]. unfold is_enabled. by rewrite Hr.
      * cbn [map]. rewrite Hr. by apply sublist_skip.
      * simpl. lia.
    + destruct (_create_filters registry rs) as [o r]. intros [= <- ->].
      destruct (IH _ _ eq_refl) as [Ha [Hb Hc]].
      repeat split; [done | by apply sublist_cons | simpl; lia].
Qed.

(** X2.  An engine that was constructed keeps the whole list of rules it
    was given, disabled ones included; each of its filters belongs to an
    enabled rule of that list and is enabled, so that [get_filter_count] is
    the number of filters; the filters stand in descending order of
    priority; and each enabled rule gave either a filter or one printed
    warning. *)
Theorem engine_init_accounts_for_rules (registry : gmap string FilterClass)
    (rs : list AnyFilterRule) (out : list string) (e : TagFilterEngine) :
  TagFilterEngine_init registry rs = (out, Ok e) →
  rules e = rs
  ∧ Forall (fun f => is_enabled f = true ∧ In (filter_rule f) rs) (filters e)
  ∧ get_filter_count e = length (filters e)
  ∧ StronglySorted (fun a b => (get_priority b ≤ get_priority a)%Z)
      (get_filters_by_priority e)
  ∧ length (filters e) + length out = length (List.filter rule_enabled rs).
Proof.
  unfold TagFilterEngine_init, get_filters_by_priority.
  destruct (_create_filters registry rs) as [o [fs|]] eqn:C; rsimpl; [|discriminate].
  intros [= <- <-]. cbn [rules filters].
  destruct (create_filters_account _ _ _ _ C) as [Hen [Hsub Hlen]].
  assert (Hall : Forall (fun f => is_enabled f = true ∧ In (filter_rule f) rs)
                   (_sort_filters_by_priority fs)).
  { rewrite sort_filters_perm. rewrite Forall_forall in Hen |- *.
    intros f Hf. split; [by apply Hen|].
    apply list_elem_of_In. eapply sublist_subseteq; [exact Hsub|].
    apply list_elem_of_fmap. by exists f. }
  split; [done|]. split; [exact Hall|]. split; [|split].
  - unfold get_filter_count. cbn [filters].
    induction Hall as [|f l [Hf _] _ IH]; simpl; [done|]. rewrite Hf. simpl. by rewrite IH.
  - apply sort_filters_sorted.
  - by rewrite sort_filters_perm.
Qed.

Lemma create_filters_enabled_only (registry : gmap string FilterClass)
    (rs : list AnyFilterRule) :
  _create_filters registry rs = _create_filters registry (List.filter rule_enabled rs).
Proof.
  induction rs as [|rule rs IH]; [done|]. cbn [List.filter].
  destruct (rule_enabled rule) eqn:En; cbn [_create_filters]; rewrite En; [|done].
  by rewrite IH.
Qed.

(** X3.  A disabled rule is as good as absent: the constructor builds the
    same filters and prints the same lines without it, whatever its kind
    and pattern, so that it cannot make the constructor raise either. *)
Theorem disabled_rules_are_ignored (registry : gmap string FilterClass)
    (rs : list AnyFilterRule) :
  _create_filters registry rs = _create_filters registry (List.filter rule_enabled rs)
  ∧ ∀ rule rs1 rs2, rs = rs1 ++ rule :: rs2 → rule_enabled rule = false →
      TagFilterEngine_init registry rs
      = (fst (TagFilterEngine_init registry (rs1 ++ rs2)),
         e ← snd (TagFilterEngine_init registry (rs1 ++ rs2));
         Ok {| rules := rs; filters := filters e |}).
Proof.
  split; [apply create_filters_enabled_only|]. intros rule rs1 rs2 -> En.
  unfold TagFilterEngine_init.
  rewrite create_filters_enabled_only, (create_filters_enabled_only _ (rs1 ++ rs2)).
  rewrite !List.filter_app. cbn [List.filter]. rewrite En.
  by destruct (_create_filters registry _) as [o [fs|]].
Qed.

(** A rule for which [create_filter] raises a [ValueError] is skipped
    with a printed line, wherever it stands. *)
Lemma create_filters_skips_ValueError (registry : gmap string FilterClass)
    (rule : AnyFilterRule) (msg : string) (rs1 rs2 : list AnyFilterRule) :
  create_filter registry rule = Raise (ValueError msg) →
  snd (_create_filters registry (rs1 ++ rule :: rs2))
  = snd (_create_filters registry (rs1 ++ rs2)).
Proof.
  intros C. induction rs1 as [|r rs1 IH]; cbn [app _create_filters].
  - destruct (rule_enabled rule); [|done]. rewrite C.
    by destruct (_create_filters registry rs2).
  - destruct (rule_enabled r); [|done].
    destruct (create_filter registry r) as [f|[m| | |]]; try done.
    + destruct (_create_filters registry (rs1 ++ rule :: rs2)) as [o1 r1],
        (_create_filters registry (rs1 ++ rs2)) as [o2 r2]. simpl in *. by subst.
    + destruct (_create_filters registry (rs1 ++ rule :: rs2)) as [o1 r1],
        (_create_filters registry (rs1 ++ rs2)) as [o2 r2]. simpl in *. by subst.
Qed.

Lemma create_filter_no_separator (fr : FilterRule) :
  filter_type fr = FilterType.REPLACE ∨ filter_type fr = FilterType.REPLACE_CAPTURE →
  Str.contains "||" (pattern fr) = false →
  create_filter _filter_registry (Single fr)
  = Raise (ValueError ("Invalid replacement pattern: " +:+ pattern fr
                       +:+ ". Expected format: 'original||replacement'")).
Proof.
  intros Hk Hno. unfold create_filter. cbn [rule_filter_type].
  destruct Hk as [-> | ->].
  - change (_filter_registry !! FilterType.REPLACE) with (Some ReplaceFilter_cls).
    cbn [construct rule_pattern]. rsimpl. unfold parse_replacement_pattern.
    by rewrite Hno.
  - change (_filter_registry !! FilterType.REPLACE_CAPTURE)
      with (Some ReplaceCaptureFilter_cls).
    cbn [construct rule_pattern]. rsimpl. unfold parse_replacement_pattern.
    by rewrite Hno.
Qed.

(** X4.  An enabled REPLACE or REPLACE_CAPTURE rule whose pattern has no
    [||] does not stop the constructor: the [ValueError] of
    [parse_replacement_pattern] is caught like that of an unknown kind, one
    warning is printed, and the filters are those of the other rules. *)
Theorem malformed_replace_rule_skipped (fr : FilterRule)
    (rs1 rs2 : list AnyFilterRule) :
  enabled fr = true →
  filter_type fr = FilterType.REPLACE ∨ filter_type fr = FilterType.REPLACE_CAPTURE →
  Str.contains "||" (pattern fr) = false →
  _create_filters _filter_registry (Single fr :: rs2)
  = (("Warning: Invalid replacement pattern: " +:+ pattern fr
      +:+ ". Expected format: 'original||replacement'")
       :: fst (_create_filters _filter_registry rs2),
     snd (_create_filters _filter_registry rs2))
  ∧ snd (_create_filters _filter_registry (rs1 ++ Single fr :: rs2))
    = snd (_create_filters _filter_registry (rs1 ++ rs2)).
Proof.
  intros En Hk Hno. pose proof (create_filter_no_separator fr Hk Hno) as C. split.
  - cbn [_create_filters rule_enabled]. rewrite En, C.
    by destruct (_create_filters _filter_registry rs2).
  - by eapply create_filters_skips_ValueError.
Qed.

(** X5.  An enabled REGEX rule whose pattern the library refuses with
    [re.error] is not skipped: [re.error] is no [ValueError], so it leaves
    [_create_filters] and the constructor, and no engine is built from a
    list that holds such a rule.  When the rule comes first, [re.error] is
    what the constructor raises. *)
Theorem invalid_regex_rule_aborts_construction (fr : FilterRule)
    (rs : list AnyFilterRule) :
  enabled fr = true →
  filter_type fr = FilterType.REGEX →
  re_compile (pattern fr) 0 = Raise re_error →
  In (Single fr) rs →
  (∃ out x, TagFilterEngine_init _filter_registry rs = (out, Raise x))
  ∧ ∀ rs', TagFilterEngine_init _filter_registry (Single fr :: rs') = ([], Raise re_error).
Proof.
  intros En Hk Hc Hin.
  assert (C : create_filter _filter_registry (Single fr) = Raise re_error).
  { unfold create_filter. cbn [rule_filter_type]. rewrite Hk.
    change (_filter_registry !! FilterType.REGEX) with (Some RegexFilter_cls).
    cbn [construct rule_pattern]. rsimpl. unfold get_compiled_pattern. by rewrite Hc. }
  split.
  - unfold TagFilterEngine_init.
    assert (H : ∃ out x, _create_filters _filter_registry rs = (out, Raise x)).
    { induction rs as [|r rs IH]; [destruct Hin|]. cbn [_create_filters].
      destruct Hin as [-> | Hin].
      - cbn [rule_enabled]. rewrite En, C. eauto.
      - destruct (IH Hin) as [out [x Hx]]. rewrite Hx.
        destruct (rule_enabled r); [|eauto].
        destruct (create_filter _filter_registry r) as [f|[m| | |]]; rsimpl; eauto. }
    destruct H as [out [x ->]]. rsimpl. eauto.
  - intros rs'. unfold TagFilterEngine_init. cbn [_create_filters rule_enabled].
    by rewrite En, C.
Qed.

End Construction.

(** ** What [filter_tags] does to a tag list *)

Section Subsequence.
Context {re : ReLibrary}.

Lemma drop_matching_sublist (f : Filter) (tags r : list string) :
  drop_matching f tags = Ok r → r `sublist_of` tags.
Proof.
  revert r; induction tags as [|t tags IH]; intros r; simpl.
  - by intros [= <-].
  - destruct (matches f t) as [b|]; rsimpl; [|discriminate].
    destruct (drop_matching f tags) as [rest|]; rsimpl; [|discriminate].
    intros [= <-]. specialize (IH rest eq_refl).
    destruct b; [by apply sublist_cons | by apply sublist_skip].
Qed.

Lemma group_remove_sublist (pats tags : list string) :
  group_remove pats tags `sublist_of` tags.
Proof.
  induction tags as [|t tags IH]; simpl; [done|].
  destruct (should_remove t pats); simpl; [by apply sublist_cons | by apply sublist_skip].
Qed.

Lemma apply_sublist (f : Filter) (tags r : list string) :
  is_replace_kind f = false → apply f tags = Ok r → r `sublist_of` tags.
Proof.
  intros Hk. unfold apply. destruct (negb (is_enabled f)); [by intros [= <-]|].
  destruct f as [rule|rule rx|rule c|rule|rule o rp|rule o rp c];
    try discriminate Hk; try apply drop_matching_sublist.
  destruct (rule_patterns rule) as [pats|]; rsimpl; [|discriminate].
  destruct (negb (group_matches pats tags)); intros [= <-]; [done|].
  apply group_remove_sublist.
Qed.

Lemma filter_loop_sublist (fs : list Filter) (tags r : list string) :
  Forall (fun f => is_enabled f = true → is_replace_kind f = false) fs →
  filter_loop fs tags = Ok r → r `sublist_of` tags.
Proof.
  intros Hall. revert tags. induction Hall as [|f fs Hf _ IH]; intros tags; simpl.
  - by intros [= <-].
  - destruct (is_enabled f) eqn:En; [|apply IH].
    destruct (apply f tags) as [cur|] eqn:A; rsimpl; [|discriminate].
    apply apply_sublist in A; [|by apply Hf]. destruct cur as [|t cur].
    + intros [= <-]. apply sublist_nil_l.
    + intros H. apply IH in H. by etrans.
Qed.

Lemma apply_replace_length (f : Filter) (tags r : list string) :
  is_replace_kind f = true → apply f tags = Ok r → length r = length tags.
Proof.
  intros Hk. unfold apply. destruct (negb (is_enabled f)); [by intros [= <-]|].
  destruct f; try discriminate Hk; apply replace_matching_length.
Qed.

Lemma filter_loop_replace_length (fs : list Filter) (tags r : list string) :
  Forall (fun f => is_enabled f = true → is_replace_kind f = true) fs →
  filter_loop fs tags = Ok r → length r = length tags.
Proof.
  intros Hall. revert tags. induction Hall as [|f fs Hf _ IH]; intros tags; simpl.
  - by intros [= <-].
  - destruct (is_enabled f) eqn:En; [|apply IH].
    destruct (apply f tags) as [cur|] eqn:A; rsimpl; [|discriminate].
    apply apply_replace_length in A; [|by apply Hf]. destruct cur as [|t cur].
    + intros [= <-]. done.
    + intros H. apply IH in H. congruence.
Qed.

(** X6.  A call of [filter_tags] that returns never gives more tags than
    it was given.  When no enabled filter is a replacement filter, the
    result is the input with some tags left out: the tags that stay are
    unchanged and in their order.  When every enabled filter is a
    replacement filter, no tag is lost: the result has the length of the
    input. *)
Theorem filter_tags_shape (e : TagFilterEngine) (tags r : list string) :
  filter_tags e tags = Ok r →
  length r ≤ length tags
  ∧ (Forall (fun f => is_enabled f = true → is_replace_kind f = false) (filters e) →
     r `sublist_of` tags)
  ∧ (Forall (fun f => is_enabled f = true → is_replace_kind f = true) (filters e) →
     length r = length tags).
Proof.
  intros H. split; [by eapply filter_tags_length|].
  unfold filter_tags in H. destruct tags as [|t tags]; [injection H as <-; done|].
  split; intros Hall.
  - by eapply filter_loop_sublist.
  - by eapply filter_loop_replace_length.
Qed.

End Subsequence.

(** ** Filtering twice, without replacement filters *)

Section Settled.
Context {re : ReLibrary}.

Lemma pattern_found_false (p : string) (tags : list string) :
  pattern_found p tags = false ↔
  Forall (fun t => _matches_pattern t p = false) tags.
Proof.
  induction tags as [|t tags IH]; simpl; [split; [constructor | done]|].
  destruct (_matches_pattern t p) eqn:E.
  - split; [discriminate | intros H; inversion H; congruence].
  - rewrite IH. split; [by constructor | by intros H; inversion H].
Qed.

Lemma group_matches_false (pats tags : list string) :
  group_matches pats tags = false ↔ ∃ p, p ∈ pats ∧ pattern_found p tags = false.
Proof.
  induction pats as [|p pats IH]; simpl.
  - split; [discriminate | intros [p [Hp _]]; by apply elem_of_nil in Hp].
  - destruct (pattern_found p tags) eqn:E; simpl.
    + rewrite IH. split.
      * intros [q [Hq Hf]]. exists q. split; [by right | done].
      * intros [q [Hq Hf]]. apply elem_of_cons in Hq as [-> | Hq]; [congruence | eauto].
    + split; [|done]. intros _. exists p. split; [by left | done].
Qed.

Lemma group_remove_kept (pats tags : list string) :
  Forall (fun t => should_remove t pats = false) (group_remove pats tags).
Proof.
  induction tags as [|t tags IH]; simpl; [constructor|].
  destruct (should_remove t pats) eqn:E; simpl; [done | by constructor].
Qed.

Lemma group_remove_fixed (pats tags : list string) :
  Forall (fun t => should_remove t pats = false) tags → group_remove pats tags = tags.
Proof. induction 1 as [|t tags Ht _ IH]; simpl; [done|]. by rewrite Ht, IH. Qed.

(** What a filter that is not a replacement filter has returned, it
    returns again, and so it does for every selection of those tags. *)
Lemma apply_settled (f : Filter) (tags r r' : list string) :
  is_replace_kind f = false → apply f tags = Ok r → r' ⊆ r → apply f r' = Ok r'.
Proof.
  intros Hk. unfold apply. destruct (negb (is_enabled f)); [done|].
  assert (Hdrop : drop_matching f tags = Ok r → r' ⊆ r → drop_matching f r' = Ok r').
  { intros D Hsub. apply drop_matching_kept in D as [Hkept _].
    apply drop_matching_fixed. rewrite Forall_forall in Hkept |- *.
    intros t Ht. by apply Hkept, Hsub. }
  destruct f as [rule|rule rx|rule c|rule|rule o rp|rule o rp c];
    try discriminate Hk; try exact Hdrop.
  destruct (rule_patterns rule) as [pats|]; rsimpl; [|discriminate].
  destruct (group_matches pats tags) eqn:G; cbn [negb].
  - intros [= <-] Hsub.
    assert (Hnone : Forall (fun t => should_remove t pats = false) r').
    { pose proof (group_remove_kept pats tags) as Hk'.
      rewrite Forall_forall in Hk' |- *. intros t Ht. by apply Hk', Hsub. }
    destruct (group_matches pats r'); cbn [negb]; [|done].
    by rewrite group_remove_fixed.
  - intros [= <-] Hsub. apply group_matches_false in G as [p [Hp Hf]].
    assert (G' : group_matches pats r' = false).
    { apply group_matches_false. exists p. split; [done|].
      apply pattern_found_false. apply pattern_found_false in Hf.
      rewrite Forall_forall in Hf |- *. intros t Ht. by apply Hf, Hsub. }
    by rewrite G'.
Qed.

(** A non-empty result went through every enabled filter, and each of
    them returns any selection of it unchanged. *)
Lemma filter_loop_applied (fs : list Filter) (tags r : list string) :
  Forall (fun f => is_replace_kind f = false) fs →
  filter_loop fs tags = Ok r → r ≠ [] →
  Forall (fun f => is_enabled f = true → ∀ r', r' ⊆ r → apply f r' = Ok r') fs.
Proof.
  intros Hall. revert tags. induction Hall as [|f fs Hf Hfs IH]; intros tags; simpl.
  - constructor.
  - destruct (is_enabled f) eqn:En.
    2: { intros H Hne. constructor; [congruence | by eapply IH]. }
    destruct (apply f tags) as [cur|] eqn:A; rsimpl; [|discriminate].
    destruct cur as [|t cur]; [intros [= <-]; done|].
    intros H Hne. constructor; [|by eapply IH].
    intros _ r' Hsub. eapply apply_settled; [done | exact A |].
    etrans; [exact Hsub|]. eapply sublist_subseteq, filter_loop_sublist; [|exact H].
    eapply Forall_impl; [exact Hfs|]. simpl. auto.
Qed.

Lemma filter_loop_unchanged (fs : list Filter) (r : list string) :
  Forall (fun f => is_enabled f = true → apply f r = Ok r) fs →
  filter_loop fs r = Ok r.
Proof.
  induction 1 as [|f fs Hf _ IH]; simpl; [done|].
  destruct (is_enabled f); [|done]. rewrite (Hf eq_refl). rsimpl.
  by destruct r.
Qed.

(** X7.  With no replacement filter in the engine, group filters
    included, [filter_tags] is idempotent: what a call has returned, a
    second call returns unchanged.  (The class registry and the kinds of
    the rules play no part.) *)
Theorem filter_tags_settles_without_replacement (e : TagFilterEngine)
    (T R : list string) :
  Forall (fun f => is_replace_kind f = false) (filters e) →
  filter_tags e T = Ok R → filter_tags e R = Ok R.
Proof.
  intros Hall H. unfold filter_tags in *. destruct R as [|r R]; [done|].
  destruct T as [|t T]; [discriminate|].
  apply filter_loop_unchanged.
  eapply Forall_impl; [by eapply filter_loop_applied|].
  simpl. intros f Hf En. by apply Hf.
Qed.

End Settled.

(** ** Engines that only drop *)

Section OnlyDropping.
Context {re : ReLibrary}.

Lemma drop_matching_passes (f : Filter) (tags r : list string) :
  drop_matching f tags = Ok r → r = List.filter (passes f) tags.
Proof.
  revert r; induction tags as [|t tags IH]; intros r; cbn [drop_matching List.filter].
  - by intros [= <-].
  - unfold passes at 1. destruct (matches f t) as [b|]; rsimpl; [|discriminate].
    destruct (drop_matching f tags) as [rest|]; rsimpl; [|discriminate].
    intros [= <-]. rewrite (IH rest eq_refl). by destruct b.
Qed.

Lemma filter_filter_andb (m u : string → bool) (l : list string) :
  List.filter u (List.filter m l) = List.filter (fun t => m t && u t) l.
Proof.
  induction l as [|t l IH]; [done|]. cbn [List.filter].
  destruct (m t); cbn [List.filter andb]; [|done]. by rewrite IH.
Qed.

Lemma filter_loop_unmatched (fs : list Filter) (tags r : list string) :
  Forall (fun f => is_enabled f = true → is_drop_filter f = true) fs →
  filter_loop fs tags = Ok r → r = List.filter (unmatched fs) tags.
Proof.
  intros Hall. revert tags. induction Hall as [|f fs Hf _ IH]; intros tags;
    cbn [filter_loop].
  - intros [= <-]. induction tags as [|t tags IHt]; [done|].
    cbn [List.filter unmatched forallb]. by rewrite <- IHt.
  - destruct (is_enabled f) eqn:En.
    2: { intros H. rewrite (IH _ H). apply List.filter_ext. intros t.
         cbn [unmatched forallb]. by rewrite En. }
    rewrite (apply_drop _ _ (Hf eq_refl) En).
    destruct (drop_matching f tags) as [cur|] eqn:D; rsimpl; [|discriminate].
    apply drop_matching_passes in D.
    assert (Hu : List.filter (unmatched (f :: fs)) tags
                 = List.filter (unmatched fs) cur).
    { rewrite D, filter_filter_andb. apply List.filter_ext. intros t.
      cbn [unmatched forallb]. by rewrite En. }
    rewrite Hu. destruct cur as [|t cur]; [by intros [= <-]|]. apply IH.
Qed.

Lemma unmatched_perm (fs fs' : list Filter) (tag : string) :
  fs ≡ₚ fs' → unmatched fs tag = unmatched fs' tag.
Proof.
  unfold unmatched. induction 1 as [|f l l' _ IH|f g l|l1 l2 l3 _ IH1 _ IH2];
    cbn [forallb]; [done | by rewrite IH | | congruence].
  by rewrite !andb_assoc, (andb_comm (negb (is_enabled g) || passes g tag)).
Qed.

(** X8.  An engine whose enabled filters are all of the dropping kinds
    keeps exactly the tags that none of its enabled filters matches, in
    their order.  The priorities of such rules therefore play no part: the
    same filters in any other order give the same result. *)
Theorem dropping_engine_keeps_the_unmatched (e e' : TagFilterEngine)
    (tags r : list string) :
  Forall (fun f => is_enabled f = true → is_drop_filter f = true) (filters e) →
  filter_tags e tags = Ok r →
  r = List.filter (unmatched (filters e)) tags
  ∧ (filters e' ≡ₚ filters e → ∀ r', filter_tags e' tags = Ok r' → r' = r).
Proof.
  intros Hall H.
  assert (Hgen : ∀ e0 r0,
            Forall (fun f => is_enabled f = true → is_drop_filter f = true) (filters e0) →
            filter_tags e0 tags = Ok r0 → r0 = List.filter (unmatched (filters e0)) tags).
  { intros e0 r0 Hall0. unfold filter_tags. destruct tags as [|t tags]; [by intros [= <-]|].
    by apply filter_loop_unmatched. }
  split; [by apply Hgen|]. intros Hperm r' H'.
  rewrite (Hgen e r Hall H), (Hgen e' r'); [|by rewrite Hperm | done].
  apply List.filter_ext. intros t. by apply unmatched_perm.
Qed.

End OnlyDropping.

(** ** Filtering in pieces, without group filters *)

Section Pieces.
Context {re : ReLibrary}.

Lemma drop_matching_app (f : Filter) (a b : list string) :
  drop_matching f (a ++ b)
  = (ra ← drop_matching f a; rb ← drop_matching f b; Ok (ra ++ rb)).
Proof.
  induction a as [|t a IH]; cbn [app drop_matching]; rsimpl.
  - by destruct (drop_matching f b).
  - destruct (matches f t) as [m|]; rsimpl; [|done]. rewrite IH.
    destruct (drop_matching f a) as [ra|]; rsimpl; [|done].
    destruct (drop_matching f b) as [rb|]; rsimpl; [|done].
    by destruct m.
Qed.

Lemma replace_matching_app (f : Filter) (subst : string → result string)
    (a b : list string) :
  replace_matching f subst (a ++ b)
  = (ra ← replace_matching f subst a; rb ← replace_matching f subst b; Ok (ra ++ rb)).
Proof.
  induction a as [|t a IH]; cbn [app replace_matching]; rsimpl.
  - by destruct (replace_matching f subst b).
  - destruct (matches f t) as [m|]; rsimpl; [|done].
    destruct (if m then subst t else Ok t) as [t'|]; rsimpl; [|done]. rewrite IH.
    destruct (replace_matching f subst a) as [ra|]; rsimpl; [|done].
    by destruct (replace_matching f subst b) as [rb|].
Qed.

(** A filter that looks at one tag at a time treats a list tag by tag. *)
Lemma apply_app (f : Filter) (a b : list string) :
  is_BaseFilter f = true →
  apply f (a ++ b) = (ra ← apply f a; rb ← apply f b; Ok (ra ++ rb)).
Proof.
  intros Hb. unfold apply. destruct (negb (is_enabled f)); [done|].
  destruct f; try discriminate Hb;
    first [apply drop_matching_app | apply replace_matching_app].
Qed.

Lemma apply_nil (f : Filter) : is_BaseFilter f = true → apply f [] = Ok [].
Proof.
  intros Hb. unfold apply. destruct (negb (is_enabled f)); [done|].
  by destruct f.
Qed.

Lemma filter_loop_nil (fs : list Filter) :
  Forall (fun f => is_enabled f = true → is_BaseFilter f = true) fs →
  filter_loop fs [] = Ok [].
Proof.
  induction 1 as [|f fs Hf _ IH]; simpl; [done|].
  destruct (is_enabled f); [|done]. by rewrite (apply_nil _ (Hf eq_refl)).
Qed.

Lemma filter_loop_app (fs : list Filter) :
  Forall (fun f => is_enabled f = true → is_BaseFilter f = true) fs →
  ∀ a b r, filter_loop fs (a ++ b) = Ok r ↔
    ∃ ra rb, filter_loop fs a = Ok ra ∧ filter_loop fs b = Ok rb ∧ r = ra ++ rb.
Proof.
  induction 1 as [|f fs Hf Hfs IH]; intros a b r; cbn [filter_loop].
  - split.
    + intros [= <-]. eauto.
    + intros [ra [rb [[= <-] [[= <-] ->]]]]. done.
  - destruct (is_enabled f) eqn:En; [|apply IH].
    rewrite (apply_app _ _ _ (Hf eq_refl)).
    destruct (apply f a) as [a1|xa]; rsimpl.
    2: { split; [discriminate | intros [ra [rb [? _]]]; discriminate]. }
    destruct (apply f b) as [b1|xb]; rsimpl.
    2: { split; [discriminate | intros [ra [rb [_ [? _]]]]; discriminate]. }
    assert (Ha : filter_loop fs a1 = match a1 with [] => Ok [] | _ => filter_loop fs a1 end).
    { destruct a1; [by apply filter_loop_nil | done]. }
    assert (Hb1 : filter_loop fs b1 = match b1 with [] => Ok [] | _ => filter_loop fs b1 end).
    { destruct b1; [by apply filter_loop_nil | done]. }
    rewrite <- Ha, <- Hb1, <- IH.
    destruct (a1 ++ b1) eqn:E; [|done].
    apply app_eq_nil in E as [-> ->]. simpl. by rewrite filter_loop_nil.
Qed.

Lemma filter_tags_is_loop (e : TagFilterEngine) (tags : list string) :
  Forall (fun f => is_enabled f = true → is_BaseFilter f = true) (filters e) →
  filter_tags e tags = filter_loop (filters e) tags.
Proof.
  intros Hall. unfold filter_tags. destruct tags; [|done]. by rewrite filter_loop_nil.
Qed.

Lemma filter_tags_app_iff (e : TagFilterEngine) (a b r : list string) :
  Forall (fun f => is_enabled f = true → is_BaseFilter f = true) (filters e) →
  filter_tags e (a ++ b) = Ok r ↔
  ∃ ra rb, filter_tags e a = Ok ra ∧ filter_tags e b = Ok rb ∧ r = ra ++ rb.
Proof.
  intros Hall. rewrite !filter_tags_is_loop by done. by apply filter_loop_app.
Qed.

(** X9.  With no enabled group filter in the engine, [filter_tags] can be
    run on the pieces of a list: the call on [a ++ b] returns exactly when
    the calls on [a] and on [b] return, and its result is theirs put
    together. *)
Theorem filter_tags_piecewise (e : TagFilterEngine) (a b : list string) :
  Forall (fun f => is_enabled f = true → is_BaseFilter f = true) (filters e) →
  (∀ ra rb, filter_tags e a = Ok ra → filter_tags e b = Ok rb →
            filter_tags e (a ++ b) = Ok (ra ++ rb))
  ∧ (∀ r, filter_tags e (a ++ b) = Ok r →
          ∃ ra rb, filter_tags e a = Ok ra ∧ filter_tags e b = Ok rb ∧ r = ra ++ rb).
Proof.
  intros Hall. split.
  - intros ra rb Ha Hb. apply filter_tags_app_iff; eauto.
  - intros r Hr. by apply filter_tags_app_iff.
Qed.

Lemma optimized_filter_tags_base (e e' : OptimizedTagFilterEngine) (t0 t1 : Q)
    (tags r : list string) :
  optimized_filter_tags e t0 t1 tags = Ok (r, e') →
  filter_tags (base e) tags = Ok r ∧ base e' = base e ∧ batch_size e' = batch_size e.
Proof.
  unfold optimized_filter_tags.
  destruct (filter_tags (base e) tags) as [res|]; rsimpl; [|discriminate].
  by intros [= <- <-].
Qed.

(** The loop of the optimized stream, from any state of the batch. *)
Lemma optimized_stream_loop_spec (clock : nat → Q * Q) (tags : list string) :
  ∀ (e e' : OptimizedTagFilterEngine) (calls : nat) (batch ys : list string),
    Forall (fun f => is_enabled f = true → is_BaseFilter f = true) (filters (base e)) →
    optimized_stream_loop e clock calls batch tags = (ys, Ok e') →
    filter_tags (base e) (batch ++ tags) = Ok ys
    ∧ base e' = base e ∧ batch_size e' = batch_size e
    ∧ total_processed (stats e')
      = (total_processed (stats e) + Z.of_nat (length (batch ++ tags)))%Z
    ∧ total_filtered (stats e')
      = (total_filtered (stats e)
         + (Z.of_nat (length (batch ++ tags)) - Z.of_nat (length ys)))%Z.
Proof.
  induction tags as [|tag tags IH]; intros e e' calls batch ys Hall;
    cbn [optimized_stream_loop].
  - rewrite app_nil_r. destruct batch as [|t batch].
    + intros [= <- <-]. simpl. repeat split; lia.
    + destruct (optimized_filter_tags e _ _ (t :: batch)) as [[fb e1]|] eqn:C;
        [|discriminate].
      intros [= <- <-].
      destruct (optimized_filter_tags_stats _ _ _ _ _ _ C) as [Hp [Hf _]].
      destruct (optimized_filter_tags_base _ _ _ _ _ _ C) as [Hr [Hb Hbs]].
      repeat split; done.
  - replace (batch ++ tag :: tags) with ((batch ++ [tag]) ++ tags)
      by (by rewrite <- app_assoc).
    destruct (batch_size e <=? Z.of_nat (length (batch ++ [tag])))%Z; [|by apply IH].
    destruct (optimized_filter_tags e _ _ (batch ++ [tag])) as [[fb e1]|] eqn:C;
      [|discriminate].
    destruct (optimized_stream_loop e1 clock (S calls) [] tags) as [yielded r] eqn:L.
    intros [= <- ->].
    destruct (optimized_filter_tags_stats _ _ _ _ _ _ C) as [Hp [Hf Hl]].
    destruct (optimized_filter_tags_base _ _ _ _ _ _ C) as [Hr [Hb Hbs]].
    rewrite <- Hb in Hall.
    destruct (IH _ _ _ _ _ Hall L) as [Hys [Hb' [Hbs' [Hp' Hf']]]].
    rewrite Hb in Hys, Hb'. cbn [app] in *.
    split; [apply filter_tags_app_iff; [by rewrite <- Hb | eauto]|].
    split; [done|]. split; [congruence|].
    rewrite Hp', Hf', Hp, Hf, !length_app. split; lia.
Qed.

(** X10.  [OptimizedTagFilterEngine.filter_tags_stream], for an engine
    without enabled group filter: when the stream runs to its end, the tags
    it yields are exactly those [filter_tags] returns for the whole input,
    whatever the batch size, and the statistics have counted every tag of
    the input once. *)
Theorem optimized_stream_yields_filter_tags (e e' : OptimizedTagFilterEngine)
    (clock : nat → Q * Q) (tags ys : list string) :
  Forall (fun f => is_enabled f = true → is_BaseFilter f = true) (filters (base e)) →
  optimized_filter_tags_stream e clock tags = (ys, Ok e') →
  filter_tags (base e) tags = Ok ys
  ∧ base e' = base e
  ∧ total_processed (stats e')
    = (total_processed (stats e) + Z.of_nat (length tags))%Z
  ∧ total_filtered (stats e')
    = (total_filtered (stats e) + (Z.of_nat (length tags) - Z.of_nat (length ys)))%Z.
Proof.
  intros Hall H.
  destruct (optimized_stream_loop_spec clock tags e e' 0 [] ys Hall H)
    as [Hys [Hb [_ [Hp Hf]]]].
  done.
Qed.

End Pieces.

(** ** The stream of the memory-efficient engine *)

Section MemoryEfficientStream.
Context {re : ReLibrary}.

(** X11.  [MemoryEfficientFilterEngine.filter_tags_stream] never rewrites
    a tag: what it yields is the input with some tags left out.  With no
    replacement filter in the engine it leaves nothing out: every tag is
    yielded, whatever the dropping filters match. *)
Theorem memory_efficient_stream_selects (e : TagFilterEngine) (tags r : list string) :
  filter_tags_stream e tags = Ok r →
  r `sublist_of` tags
  ∧ (Forall (fun f => is_replace_kind f = false) (filters e) → r = tags).
Proof.
  revert r. induction tags as [|t tags IH]; intros r; cbn [filter_tags_stream].
  - intros [= <-]. done.
  - destruct (_should_keep_tag e t) as [b|] eqn:K; rsimpl; [|discriminate].
    destruct (filter_tags_stream e tags) as [rest|]; rsimpl; [|discriminate].
    intros [= <-]. destruct (IH rest eq_refl) as [Hsub Hall]. split.
    + destruct b; [by apply sublist_skip | by apply sublist_cons].
    + intros Hno. rewrite (should_keep_loop_drop_only _ _ _ Hno K).
      by rewrite (Hall Hno).
Qed.

End MemoryEfficientStream.

(** ** Adding and removing rules *)

Section Maintenance.
Context {re : ReLibrary}.

Lemma insert_by_priority_swap (a g : Filter) (l : list Filter) :
  (get_priority a < get_priority g)%Z →
  insert_by_priority g (insert_by_priority a l)
  = insert_by_priority a (insert_by_priority g l).
Proof.
  intros Hlt. induction l as [|x l IH]; cbn [insert_by_priority].
  - destruct (Z.ltb_spec (get_priority g) (get_priority a)),
      (Z.ltb_spec (get_priority a) (get_priority g)); try lia. done.
  - destruct (Z.ltb_spec (get_priority a) (get_priority x)),
      (Z.ltb_spec (get_priority g) (get_priority x)); cbn [insert_by_priority];
      repeat match goal with
             | |- context [(?u <? ?v)%Z] => destruct (Z.ltb_spec u v); try lia
             end; try done.
    by rewrite IH.
Qed.

Lemma foldr_insert_by_priority (a : Filter) (acc l : list Filter) :
  foldr insert_by_priority acc (insert_by_priority a l)
  = insert_by_priority a (foldr insert_by_priority acc l).
Proof.
  induction l as [|g l IH]; cbn [insert_by_priority foldr]; [done|].
  destruct (Z.ltb_spec (get_priority a) (get_priority g)); [|done].
  cbn [foldr]. rewrite IH. by apply insert_by_priority_swap.
Qed.

(** Sorting, adding filters behind and sorting again is sorting once. *)
Lemma sort_filters_sorted_app (fs gs : list Filter) :
  _sort_filters_by_priority (_sort_filters_by_priority fs ++ gs)
  = _sort_filters_by_priority (fs ++ gs).
Proof.
  unfold _sort_filters_by_priority. rewrite !foldr_app.
  generalize (foldr insert_by_priority [] gs) as acc. intros acc.
  induction fs as [|a fs IH]; [done|]. cbn [foldr].
  by rewrite foldr_insert_by_priority, IH.
Qed.

Lemma create_filters_snoc (registry : gmap string FilterClass)
    (rs : list AnyFilterRule) (rule : AnyFilterRule) (f : Filter)
    (out : list string) (fs : list Filter) :
  _create_filters registry rs = (out, Ok fs) →
  rule_enabled rule = true → create_filter registry rule = Ok f →
  _create_filters registry (rs ++ [rule]) = (out, Ok (fs ++ [f])).
Proof.
  intros H En C. revert out fs H.
  induction rs as [|r rs IH]; intros out fs; cbn [app _create_filters].
  - intros [= <- <-]. by rewrite En, C.
  - destruct (rule_enabled r); [|apply IH].
    destruct (create_filter registry r) as [g|[m| | |]]; try discriminate.
    + destruct (_create_filters registry rs) as [o [fs'|]]; rsimpl; [|discriminate].
      intros [= <- <-]. by rewrite (IH _ _ eq_refl).
    + destruct (_create_filters registry rs) as [o [fs'|]]; rsimpl; [|discriminate].
      intros [= <- <-]. by rewrite (IH _ _ eq_refl).
Qed.

Lemma list_remove_snoc (rule : AnyFilterRule) (rs : list AnyFilterRule) :
  rule ∉ rs → list_remove rule (rs ++ [rule]) = rs.
Proof.
  induction rs as [|r rs IH]; intros Hnot; cbn [app list_remove].
  - by rewrite decide_True.
  - apply not_elem_of_cons in Hnot as [Hne Hnot].
    rewrite decide_False by done. by rewrite IH.
Qed.

(** What [add_rule] does with a rule whose filter can be built. *)
Lemma add_rule_built (registry : gmap string FilterClass) (e : TagFilterEngine)
    (rule : AnyFilterRule) (f : Filter) :
  rule_enabled rule = true → create_filter registry rule = Ok f →
  add_rule registry e rule
  = ([], Ok {| rules := rules e ++ [rule];
               filters := _sort_filters_by_priority (filters e ++ [f]) |}).
Proof. intros En C. unfold add_rule. by rewrite En, C. Qed.

Lemma init_snoc (registry : gmap string FilterClass) (e : TagFilterEngine)
    (rule : AnyFilterRule) (f : Filter) :
  snd (TagFilterEngine_init registry (rules e)) = Ok e →
  rule_enabled rule = true → create_filter registry rule = Ok f →
  snd (TagFilterEngine_init registry (rules e ++ [rule]))
  = Ok {| rules := rules e ++ [rule];
          filters := _sort_filters_by_priority (filters e ++ [f]) |}.
Proof.
  unfold TagFilterEngine_init. intros H En C.
  destruct (_create_filters registry (rules e)) as [o [fs|]] eqn:F; rsimpl;
    [|discriminate].
  rewrite (create_filters_snoc _ _ _ _ _ _ F En C). rsimpl.
  injection H as <-. cbn [filters rules]. by rewrite sort_filters_sorted_app.
Qed.

(** X12.  An engine whose filters are those its constructor builds from
    its rule list stays so under [add_rule], [remove_rule] and
    [clear_rules] (with the registry unchanged): after each of them the
    engine is the one the constructor gives for the rule list it then has.
    For an enabled rule whose filter can be built, [add_rule] prints
    nothing and puts the rule at the end of the list, so the engine is the
    one constructed with the rule appended. *)
Theorem engine_follows_its_rules (registry : gmap string FilterClass)
    (e : TagFilterEngine) (rule : AnyFilterRule) :
  snd (TagFilterEngine_init registry (rules e)) = Ok e →
  (∀ out e', add_rule registry e rule = (out, Ok e') →
             snd (TagFilterEngine_init registry (rules e')) = Ok e')
  ∧ (∀ out e', remove_rule registry e rule = (out, Ok e') →
               snd (TagFilterEngine_init registry (rules e')) = Ok e')
  ∧ snd (TagFilterEngine_init registry (rules (clear_rules e))) = Ok (clear_rules e)
  ∧ (∀ f, rule_enabled rule = true → create_filter registry rule = Ok f →
          ∃ e', add_rule registry e rule = ([], Ok e')
                ∧ rules e' = rules e ++ [rule]
                ∧ snd (TagFilterEngine_init registry (rules e ++ [rule])) = Ok e').
Proof.
  intros Hinv. split; [|split; [|split]].
  - intros out e'. unfold add_rule.
    destruct (rule_enabled rule) eqn:En; [|by intros [= _ <-]].
    destruct (create_filter registry rule) as [f|[m| | |]] eqn:C; try discriminate.
    + intros [= _ <-]. cbn [rules]. by apply init_snoc.
    + by intros [= _ <-].
  - intros out e'. unfold remove_rule.
    destruct (bool_decide (rule ∈ rules e)); [|by intros [= _ <-]].
    unfold TagFilterEngine_init.
    destruct (_create_filters registry (list_remove rule (rules e))) as [o [fs|]] eqn:F;
      rsimpl; [|discriminate].
    intros [= _ <-]. cbn [rules]. by rewrite F.
  - reflexivity.
  - intros f En C. eexists. split; [by apply add_rule_built|].
    split; [reflexivity|]. by apply init_snoc.
Qed.

(** X13.  Adding a rule that is not yet among the rules of the engine and
    removing it again gives the engine back, whether or not [add_rule] took
    the rule. *)
Theorem add_then_remove_rule (registry : gmap string FilterClass)
    (e e1 : TagFilterEngine) (rule : AnyFilterRule) (out : list string) :
  snd (TagFilterEngine_init registry (rules e)) = Ok e →
  rule ∉ rules e →
  add_rule registry e rule = (out, Ok e1) →
  snd (remove_rule registry e1 rule) = Ok e.
Proof.
  intros Hinv Hnot. unfold add_rule.
  assert (Hsame : snd (remove_rule registry e rule) = Ok e).
  { unfold remove_rule. by rewrite bool_decide_eq_false_2. }
  destruct (rule_enabled rule); [|by intros [= _ <-]].
  destruct (create_filter registry rule) as [f|[m| | |]]; try discriminate.
  2: by intros [= _ <-].
  intros [= _ <-]. unfold remove_rule. cbn [rules].
  rewrite bool_decide_eq_true_2 by (apply elem_of_app; right; by left).
  rewrite (list_remove_snoc _ _ Hnot).
  unfold TagFilterEngine_init in Hinv.
  by destruct (_create_filters registry (rules e)) as [o r].
Qed.

(** X14.  The registry of the factory: [register_filter] makes a kind
    supported and hands the rules of that kind to the registered class,
    while rules of every other kind are built as before; a kind is
    supported by the registry of the class exactly when it is one of the
    six members of [FilterType]; and [create_filter] raises its
    [ValueError] for every rule whose kind is not supported. *)
Theorem register_filter_then_create (registry : gmap string FilterClass)
    (t : string) (cls : FilterClass) (rule : AnyFilterRule) :
  is_supported (register_filter t cls registry) t = true
  ∧ (rule_filter_type rule = t →
     create_filter (register_filter t cls registry) rule = construct cls rule)
  ∧ (rule_filter_type rule ≠ t →
     create_filter (register_filter t cls registry) rule = create_filter registry rule)
  ∧ (is_supported _filter_registry t = true ↔ t ∈ FilterType_members)
  ∧ (is_supported registry (rule_filter_type rule) = false →
     create_filter registry rule = Raise (unknown_filter_type rule)).
Proof.
  unfold is_supported, register_filter, create_filter. split; [|split; [|split; [|split]]].
  - rewrite lookup_insert_eq. by apply bool_decide_eq_true_2.
  - intros ->. by rewrite lookup_insert_eq.
  - intros Hne. by rewrite lookup_insert_ne.
  - rewrite bool_decide_eq_true. unfold _filter_registry, FilterType_members.
    rewrite !lookup_insert_is_Some, lookup_empty, is_Some_alt.
    rewrite !elem_of_cons, elem_of_nil. split.
    + intros H. repeat destruct H as [<- | [_ H]]; tauto.
    + intros H.
      repeat match goal with
             | |- ?k = t ∨ _ =>
                 destruct (decide (k = t)) as [|?]; [by left | right; split; [done|]]
             end.
      intuition congruence.
  - intros H. apply bool_decide_eq_false in H.
    destruct (registry !! rule_filter_type rule) eqn:E; [|done].
    destruct H. eauto.
Qed.

End Maintenance.

(** ** Replacement rules *)

Section Replacement.
Context {re : ReLibrary}.

Lemma replace_matching_map (rule : AnyFilterRule) (original repl : string)
    (tags : list string) :
  replace_matching (ReplaceFilter rule original repl) (fun _ => Ok repl) tags
  = Ok (map (fun t => if String.eqb t original then repl else t) tags).
Proof.
  induction tags as [|t tags IH]; cbn [replace_matching map matches]; [done|].
  rsimpl. rewrite IH. rsimpl. by destruct (String.eqb t original).
Qed.

(** X15.  An enabled REPLACE rule that the factory could build: its
    pattern has the two parts that [parse_replacement_pattern] gives, and
    the filter puts the second part in the place of every tag that is
    equal to the first, character for character (the tag is not
    normalized); every other tag stays, and so do the places and the
    number of the tags.  Applying the filter twice is applying it once. *)
Theorem replace_rule_rewrites_equal_tags (fr : FilterRule) (f : Filter)
    (tags : list string) :
  filter_type fr = FilterType.REPLACE →
  enabled fr = true →
  create_filter _filter_registry (Single fr) = Ok f →
  ∃ original repl,
    parse_replacement_pattern (pattern fr) = Ok (original, repl)
    ∧ apply f tags
      = Ok (map (fun t => if String.eqb t original then repl else t) tags)
    ∧ (apply f tags ≫= apply f) = apply f tags.
Proof.
  intros Hk En. unfold create_filter. cbn [rule_filter_type]. rewrite Hk.
  change (_filter_registry !! FilterType.REPLACE) with (Some ReplaceFilter_cls).
  cbn [construct rule_pattern]. rsimpl.
  destruct (parse_replacement_pattern (pattern fr)) as [[o r]|]; rsimpl; [|discriminate].
  intros [= <-]. exists o, r. split; [done|].
  assert (Ha : ∀ l, apply (ReplaceFilter (Single fr) o r) l
                    = Ok (map (fun t => if String.eqb t o then r else t) l)).
  { intros l. unfold apply, is_enabled. cbn [filter_rule rule_enabled]. rewrite En.
    cbn [negb]. apply replace_matching_map. }
  split; [apply Ha|]. rewrite !Ha. rsimpl. rewrite Ha. f_equal.
  rewrite map_map. apply map_ext. intros t.
  destruct (String.eqb t o) eqn:E; [|by rewrite E].
  by destruct (String.eqb r o).
Qed.

End Replacement.

(** ** The statistics stay meaningful *)

Section Proportion.
Context {re : ReLibrary}.

Lemma filter_tags_batch_counts (calls : list (Q * Q * list string)) :
  ∀ (e e' : OptimizedTagFilterEngine) (results : list (list string)),
    filter_tags_batch e calls = Ok (results, e') →
    (0 ≤ total_filtered (stats e) ≤ total_processed (stats e))%Z →
    (0 ≤ total_filtered (stats e') ≤ total_processed (stats e'))%Z
    ∧ base e' = base e ∧ batch_size e' = batch_size e
    ∧ length results = length calls.
Proof.
  induction calls as [|[[t0 t1] tags] calls IH]; intros e e' results;
    cbn [filter_tags_batch]; rsimpl.
  - by intros [= <- <-].
  - destruct (optimized_filter_tags e t0 t1 tags) as [[r e1]|] eqn:C; rsimpl;
      [|discriminate].
    destruct (filter_tags_batch e1 calls) as [[rs e2]|] eqn:B; rsimpl; [|discriminate].
    intros [= <- <-] Hinv.
    destruct (optimized_filter_tags_stats _ _ _ _ _ _ C) as [Hp [Hf Hl]].
    destruct (optimized_filter_tags_base _ _ _ _ _ _ C) as [_ [Hb Hbs]].
    destruct (IH _ _ _ B) as [Hinv' [Hb' [Hbs' Hlen]]]; [lia|].
    repeat split; try lia; try congruence. simpl. by rewrite Hlen.
Qed.


End Proportion.

(** ** Splitting a replacement pattern *)

Lemma prefix_bars_cons (c : ascii) (a b : string) :
  String.prefix "||" (String c (a +:+ "||" +:+ b))
  = String.prefix "||" (String c (a +:+ "|")).
Proof.
  cbn [String.prefix]. destruct (ascii_dec "|" c); [|done].
  destruct a as [|d a]; rewrite ?str_app_cons, ?str_app_nil_l; cbn [String.prefix].
  - done.
  - destruct (ascii_dec "|" d); [|done].
    by destruct a; rewrite ?str_app_cons, ?str_app_nil_l.
Qed.

Lemma prefix_bars (b : string) : String.prefix "||" (String "|" (String "|" b)) = true.
Proof. apply prefix_app. by exists b. Qed.

(** [split('||', 1)] cuts at the first [||]. *)
Lemma split_1_first (a b : string) :
  Str.contains "||" (a +:+ "|") = false →
  Str.split_1 "||" (a +:+ "||" +:+ b) = [a; b].
Proof.
  induction a as [|c a IH]; intros Hno.
  - rewrite str_app_nil_l, !str_app_cons, str_app_nil_l. cbn [Str.split_1].
    by rewrite prefix_bars.
  - rewrite (str_app_cons c a) in *. cbn [Str.contains] in Hno.
    apply orb_false_iff in Hno as [Hp Hno].
    cbn [Str.split_1]. rewrite prefix_bars_cons, Hp, (IH Hno). done.
Qed.

Lemma split_1_bars (s : string) :
  if Str.contains "||" s
  then ∃ a b, s = a +:+ "||" +:+ b ∧ Str.contains "||" (a +:+ "|") = false
  else Str.split_1 "||" s = [s].
Proof.
  induction s as [|c s IH]; [reflexivity|].
  cbn [Str.contains Str.split_1].
  destruct (String.prefix "||" (String c s)) eqn:P; cbn [orb].
  - apply prefix_app in P as [r Hr]. exists "", r. split; [done | reflexivity].
  - destruct (Str.contains "||" s).
    + destruct IH as [a [b [-> Hno]]]. exists (String c a), b.
      split; [done|]. rewrite str_app_cons. cbn [Str.contains].
      by rewrite <- (prefix_bars_cons c a b), P, Hno.
    + by rewrite IH.
Qed.

(** X17.  [parse_replacement_pattern] raises its [ValueError] exactly
    for the patterns without [||] (its second test, on the number of parts,
    never fires); otherwise it cuts the pattern at the first [||] and
    strips both parts, so that a later [||] belongs to the replacement. *)
Theorem parse_replacement_pattern_cuts_at_first_bars (pattern : string) :
  (Str.contains "||" pattern = false →
   parse_replacement_pattern pattern
   = Raise (ValueError ("Invalid replacement pattern: " +:+ pattern
                        +:+ ". Expected format: 'original||replacement'")))
  ∧ (Str.contains "||" pattern = true →
     ∃ a b, pattern = a +:+ "||" +:+ b
            ∧ Str.contains "||" (a +:+ "|") = false
            ∧ parse_replacement_pattern pattern = Ok (Str.strip a, Str.strip b))
  ∧ (∀ a b, Str.contains "||" (a +:+ "|") = false →
            parse_replacement_pattern (a +:+ "||" +:+ b)
            = Ok (Str.strip a, Str.strip b)).
Proof.
  assert (Hcut : ∀ a b, Str.contains "||" (a +:+ "|") = false →
            parse_replacement_pattern (a +:+ "||" +:+ b)
            = Ok (Str.strip a, Str.strip b)).
  { intros a b Hno. unfold parse_replacement_pattern.
    assert (Hc : Str.contains "||" (a +:+ "||" +:+ b) = true)
      by (apply contains_spec; eauto).
    by rewrite Hc, (split_1_first _ _ Hno). }
  split; [|split; [|exact Hcut]].
  - intros Hno. unfold parse_replacement_pattern. by rewrite Hno.
  - intros Hc. pose proof (split_1_bars pattern) as H. rewrite Hc in H.
    destruct H as [a [b [-> Hno]]]. exists a, b. eauto.
Qed.

(** ** Normalized tags *)

Lemma lstrip_length (s : string) : String.length (Str.lstrip s) ≤ String.length s.
Proof.
  induction s as [|c s IH]; cbn [Str.lstrip]; [done|].
  destruct (Str.isspace c); simpl; lia.
Qed.

Lemma lstrip_lstrip (s : string) : Str.lstrip (Str.lstrip s) = Str.lstrip s.
Proof.
  induction s as [|c s IH]; cbn [Str.lstrip]; [done|].
  destruct (Str.isspace c) eqn:E; [done|]. cbn [Str.lstrip]. by rewrite E.
Qed.

Lemma lstrip_head (c : ascii) (s : string) :
  Str.lstrip (String c s) = String c s → Str.isspace c = false.
Proof.
  cbn [Str.lstrip]. destruct (Str.isspace c); [|done].
  intros H. pose proof (lstrip_length s) as Hl. rewrite H in Hl. simpl in Hl. lia.
Qed.

Lemma rstrip_cons (c : ascii) (s : string) :
  Str.rstrip (String c s) = String c s →
  Str.rstrip s = s ∧ (s = "" → Str.isspace c = false).
Proof.
  cbn [Str.rstrip]. destruct (Str.rstrip s) as [|d r] eqn:R.
  - destruct (Str.isspace c); [discriminate|]. by intros [= <-].
  - intros [= <-]. done.
Qed.

Lemma rstrip_rstrip (s : string) : Str.rstrip (Str.rstrip s) = Str.rstrip s.
Proof.
  induction s as [|c s IH]; [done|]. cbn [Str.rstrip].
  destruct (Str.rstrip s) as [|d r] eqn:R.
  - destruct (Str.isspace c) eqn:E; [done|]. cbn [Str.rstrip]. by rewrite E.
  - cbn [Str.rstrip] in *. by rewrite IH.
Qed.

Lemma rstrip_lstrip (s : string) :
  Str.rstrip s = s → Str.rstrip (Str.lstrip s) = Str.lstrip s.
Proof.
  induction s as [|c s IH]; [done|]. intros H. cbn [Str.lstrip].
  destruct (Str.isspace c) eqn:E; [|done].
  apply rstrip_cons in H as [H _]. by apply IH.
Qed.

Lemma strip_edges (s : string) :
  Str.lstrip (Str.strip s) = Str.strip s ∧ Str.rstrip (Str.strip s) = Str.strip s.
Proof.
  unfold Str.strip. split; [apply lstrip_lstrip|].
  apply rstrip_lstrip, rstrip_rstrip.
Qed.

Lemma isspace_normalize_char (c : ascii) :
  Str.isspace c = false → Str.isspace (normalize_char c) = false.
Proof. destruct c as [[] [] [] [] [] [] [] []]; vm_compute; congruence. Qed.

Lemma normalize_char_normal (c : ascii) : never_normal (normalize_char c) = false.
Proof. destruct c as [[] [] [] [] [] [] [] []]; reflexivity. Qed.

Lemma normalize_char_fixed (c : ascii) :
  never_normal c = false → normalize_char c = c.
Proof. destruct c as [[] [] [] [] [] [] [] []]; vm_compute; congruence. Qed.

Lemma prefix_nil (s : string) : String.prefix "" s = true.
Proof. by destruct s. Qed.

(** [normalize_tag] works on the stripped tag character by character. *)
Lemma normalize_tag_map (tag : string) :
  normalize_tag tag = map_chars normalize_char (Str.strip tag).
Proof.
  unfold normalize_tag. generalize (Str.strip tag) as s. intros s.
  cbn [Str.replace]. induction s as [|c s IH]; [done|].
  cbn [Str.lower map_chars Str.replace_from String.prefix String.length].
  rewrite <- IH. unfold normalize_char.
  destruct (ascii_dec " " (Str.lower_char c)) as [<- | Hne].
  - rewrite prefix_nil, str_app_cons, str_app_nil_l. done.
  - destruct (Ascii.eqb_spec (Str.lower_char c) " "); [congruence | done].
Qed.

Lemma lstrip_map_chars (s : string) :
  Str.lstrip s = s →
  Str.lstrip (map_chars normalize_char s) = map_chars normalize_char s.
Proof.
  destruct s as [|c s]; [done|]. intros H%lstrip_head.
  cbn [map_chars Str.lstrip]. by rewrite (isspace_normalize_char _ H).
Qed.

Lemma rstrip_map_chars (s : string) :
  Str.rstrip s = s →
  Str.rstrip (map_chars normalize_char s) = map_chars normalize_char s.
Proof.
  induction s as [|c s IH]; [done|]. intros H.
  apply rstrip_cons in H as [Hs Hc]. cbn [map_chars Str.rstrip].
  rewrite (IH Hs). destruct s as [|d s]; [|done].
  cbn [map_chars]. by rewrite (isspace_normalize_char _ (Hc eq_refl)).
Qed.

Lemma map_chars_normal (s : string) :
  all_chars (fun c => negb (never_normal c)) (map_chars normalize_char s) = true.
Proof.
  induction s as [|c s IH]; [done|]. cbn [map_chars all_chars].
  by rewrite normalize_char_normal, IH.
Qed.

Lemma map_chars_fixed (s : string) :
  all_chars (fun c => negb (never_normal c)) s = true →
  map_chars normalize_char s = s.
Proof.
  induction s as [|c s IH]; [done|]. cbn [map_chars all_chars].
  intros [Hc Hs]%andb_true_iff. apply negb_true_iff in Hc.
  by rewrite (normalize_char_fixed _ Hc), (IH Hs).
Qed.

Lemma normalize_tag_normal (tag : string) :
  all_chars (fun c => negb (never_normal c)) (normalize_tag tag) = true.
Proof. rewrite normalize_tag_map. apply map_chars_normal. Qed.

Lemma normalize_tag_again (tag : string) :
  normalize_tag (normalize_tag tag) = normalize_tag tag.
Proof.
  rewrite (normalize_tag_map (normalize_tag tag)).
  assert (Hs : Str.strip (normalize_tag tag) = normalize_tag tag).
  { rewrite normalize_tag_map. destruct (strip_edges tag) as [Hl Hr].
    unfold Str.strip at 1.
    by rewrite (rstrip_map_chars _ Hr), (lstrip_map_chars _ Hl). }
  rewrite Hs. apply map_chars_fixed, normalize_tag_normal.
Qed.

Section NormalizedMatching.
Context {re : ReLibrary}.

(** X18.  [normalize_tag] is idempotent, so the filters that look at the
    normalized tag (the keyword filter and the group filter) do not tell a
    tag from its normalized form. *)
Theorem normalize_tag_idempotent (tag : string) (rule : AnyFilterRule)
    (pats tags : list string) :
  normalize_tag (normalize_tag tag) = normalize_tag tag
  ∧ matches (PlainKeywordFilter rule) (normalize_tag tag)
    = matches (PlainKeywordFilter rule) tag
  ∧ should_remove (normalize_tag tag) pats = should_remove tag pats
  ∧ group_matches pats (map normalize_tag tags) = group_matches pats tags.
Proof.
  split; [apply normalize_tag_again|]. split; [|split].
  - cbn [matches]. by rewrite normalize_tag_again.
  - induction pats as [|p pats IH]; [done|]. cbn [should_remove].
    unfold _matches_pattern. by rewrite normalize_tag_again, IH.
  - induction pats as [|p pats IH]; [done|]. cbn [group_matches]. rewrite IH.
    assert (Hp : pattern_found p (map normalize_tag tags) = pattern_found p tags);
      [|by rewrite Hp].
    clear. induction tags as [|t tags IH]; [done|]. cbn [map pattern_found].
    unfold _matches_pattern. by rewrite normalize_tag_again, IH.
Qed.

Lemma all_chars_app (P : ascii → bool) (s t : string) :
  all_chars P (s +:+ t) = all_chars P s && all_chars P t.
Proof.
  induction s as [|c s IH]; [done|]. rewrite str_app_cons. cbn [all_chars].
  by rewrite IH, andb_assoc.
Qed.

(** A character of a substring is a character of the string. *)
Lemma contains_char (P : ascii → bool) (c : ascii) (p s : string) :
  all_chars P s = true → Str.contains p s = true →
  Str.contains (String c "") p = true → P c = true.
Proof.
  intros Hall [a [b ->]]%contains_spec [a' [b' ->]]%contains_spec.
  rewrite !all_chars_app in Hall. cbn [all_chars] in Hall.
  repeat (apply andb_true_iff in Hall as [? Hall] || apply andb_true_iff in Hall as [Hall ?]).
  repeat match goal with H : _ && _ = true |- _ => apply andb_true_iff in H as [? ?] end.
  done.
Qed.

(** X19.  A keyword with a space, a capital letter or any other
    character that [str.lower] changes matches no tag at all: the keyword
    is compared as it is with the normalized tag, which holds no such
    character.  So a PLAIN_KEYWORD filter with such a pattern drops
    nothing, and a group rule with such a pattern never applies. *)
Theorem keyword_outside_normal_form_never_matches (fr : FilterRule) (c : ascii)
    (tag : string) (pats tags : list string) :
  Str.contains (String c "") (pattern fr) = true →
  never_normal c = true →
  matches (PlainKeywordFilter (Single fr)) tag = Ok false
  ∧ (enabled fr = true → apply (PlainKeywordFilter (Single fr)) tags = Ok tags)
  ∧ (In (pattern fr) pats → group_matches pats tags = false).
Proof.
  intros Hc Hbad.
  assert (Hno : ∀ t, Str.contains (pattern fr) (normalize_tag t) = false).
  { intros t. destruct (Str.contains (pattern fr) (normalize_tag t)) eqn:E; [|done].
    pose proof (contains_char _ c _ _ (normalize_tag_normal t) E Hc) as H.
    cbv beta in H. rewrite Hbad in H. discriminate. }
  assert (Hm : ∀ t, matches (PlainKeywordFilter (Single fr)) t = Ok false).
  { intros t. cbn [matches rule_pattern]. rsimpl. by rewrite Hno. }
  split; [apply Hm|]. split.
  - intros En. unfold apply, is_enabled. cbn [filter_rule rule_enabled]. rewrite En.
    cbn [negb]. apply drop_matching_fixed, Forall_forall. intros t _. apply Hm.
  - intros Hin. apply group_matches_false. exists (pattern fr).
    split; [by apply list_elem_of_In|].
    apply pattern_found_false, Forall_forall. intros t _. apply Hno.
Qed.

End NormalizedMatching.

(** ** Patterns without metacharacters *)

Lemma lex_literal_char (c : ascii) (s : string) :
  is_meta c = false → Re.lex (String c s) = (ls ← Re.lex s; Ok (Re.LLit c :: ls)).
Proof. destruct c as [[] [] [] [] [] [] [] []]; try discriminate; reflexivity. Qed.

Lemma lex_literal (p : string) :
  all_chars (fun c => negb (is_meta c)) p = true → Re.lex p = Ok (literal_lexemes p).
Proof.
  induction p as [|c p IH]; [done|]. cbn [all_chars literal_lexemes].
  intros [Hc Hp]%andb_true_iff. apply negb_true_iff in Hc.
  by rewrite (lex_literal_char _ _ Hc), (IH Hp).
Qed.

Lemma compile_literal (p : string) :
  all_chars (fun c => negb (is_meta c)) p = true →
  Re.compile p 0 = Ok {| Re.tokens := literal_tokens p; Re.groups := 0 |}.
Proof.
  intros Hp. unfold Re.compile. change ((0 =? 0)%Z) with true. cbn match.
  rewrite (lex_literal _ Hp). rsimpl. rewrite parse_literal. reflexivity.
Qed.

Lemma lex_escape (text : string) : Re.lex (Re.escape text) = Ok (literal_lexemes text).
Proof.
  induction text as [|c text IH]; [done|].
  destruct c as [[] [] [] [] [] [] [] []];
    cbn [Re.escape Re.is_special literal_lexemes]; cbn [Re.lex]; rewrite IH; reflexivity.
Qed.

Lemma compile_escape (text : string) :
  Re.compile (Re.escape text) 0
  = Ok {| Re.tokens := literal_tokens text; Re.groups := 0 |}.
Proof.
  unfold Re.compile. change ((0 =? 0)%Z) with true. cbn match.
  rewrite lex_escape. rsimpl. rewrite parse_literal. reflexivity.
Qed.

(** A pattern of literal characters matches at a place exactly when the
    text goes on with these characters there, and the match ends behind
    them. *)
Lemma run_literal (p : string) :
  ∀ s pos mk, Re.run (literal_tokens p) Re.accept_any s pos mk
              = if String.prefix p s then Some (pos + String.length p, mk) else None.
Proof.
  induction p as [|x p IH]; intros s pos mk; cbn [literal_tokens Re.run].
  - rewrite prefix_nil. cbn [Re.accept_any String.length]. by rewrite Nat.add_0_r.
  - destruct s as [|c s]; [done|]. cbn [Re.atom_matches String.prefix String.length].
    destruct (ascii_dec x c) as [<- | Hne].
    + rewrite Ascii.eqb_refl, IH. destruct (String.prefix p s); [|done].
      do 2 f_equal. lia.
    + by destruct (Ascii.eqb_spec x c).
Qed.

Lemma match_at_literal (p s : string) (g pos : nat) :
  Re.match_at {| Re.tokens := literal_tokens p; Re.groups := g |} Re.accept_any s pos
  = if String.prefix p s
    then Some {| Re.m_start := pos; Re.m_end := pos + String.length p;
                 Re.m_spans := ∅ |}
    else None.
Proof.
  unfold Re.match_at. cbn [Re.tokens]. rewrite run_literal.
  by destruct (String.prefix p s).
Qed.

Lemma search_literal (p : string) (g : nat) (s : string) :
  ∀ pos, is_Some (Re.search_from {| Re.tokens := literal_tokens p; Re.groups := g |} s pos)
         ↔ Str.contains p s = true.
Proof.
  induction s as [|c s IH]; intros pos; cbn [Re.search_from Str.contains];
    rewrite match_at_literal.
  - destruct (String.prefix p ""); split; eauto; try discriminate.
    intros []; discriminate.
  - destruct (String.prefix p (String c s)); cbn [orb]; [split; eauto|]. apply IH.
Qed.

Lemma fullmatch_literal (p : string) (g : nat) (s : string) :
  is_Some (Re.Pattern_fullmatch {| Re.tokens := literal_tokens p; Re.groups := g |} s)
  ↔ s = p.
Proof. rewrite fullmatch_Sem. cbn [Re.tokens]. apply Sem_literal. Qed.

(** X20.  [escape_for_literal_match] and [re.compile] round-trip: the
    escaped text is always a valid pattern, and the compiled pattern matches
    the text itself and nothing else, so that searching for it is the
    substring test. *)
Theorem escaped_text_matches_itself (text : string) :
  validate_regex_pattern (escape_for_literal_match text) = Ok true
  ∧ ∃ p, get_compiled_pattern (escape_for_literal_match text) 0 = Ok p
         ∧ (∀ s, is_Some (Re.Pattern_fullmatch p s) ↔ s = text)
         ∧ (∀ s, is_Some (re_Pattern_search p s) ↔ Str.contains text s = true).
Proof.
  unfold validate_regex_pattern, escape_for_literal_match, get_compiled_pattern.
  re_unfold. rewrite compile_escape. split; [done|].
  eexists. split; [reflexivity|]. split.
  - intros s. apply fullmatch_literal.
  - intros s. apply search_literal.
Qed.

Lemma is_meta_cases (c : ascii) :
  is_meta c = true → c = "\"%char ∨ In c regex_chars.
Proof.
  destruct c as [[] [] [] [] [] [] [] []]; try discriminate; intros _; cbn; auto 20.
Qed.

Lemma not_regex_pattern_literal (p : string) :
  is_regex_pattern p = false → Str.contains "\" p = false →
  all_chars (fun c => negb (is_meta c)) p = true.
Proof.
  induction p as [|c p IH]; [done|]. intros Hr Hb. cbn [all_chars].
  cbn [Str.contains] in Hb. apply orb_false_iff in Hb as [Hb1 Hb2].
  assert (Hr' : is_regex_pattern p = false).
  { destruct (is_regex_pattern p) eqn:E; [|done]. unfold is_regex_pattern in *.
    apply existsb_exists in E as [ch [Hin Hch]].
    rewrite <- Hr. symmetry. apply existsb_exists. exists ch. split; [done|].
    cbn [Str.contains]. by rewrite Hch, orb_true_r. }
  rewrite (IH Hr' Hb2), andb_true_r. apply negb_true_iff.
  destruct (is_meta c) eqn:M; [|done]. exfalso.
  apply is_meta_cases in M as [-> | Hin].
  - assert (H : String.prefix "\" (String "\" p) = true)
      by (apply prefix_app; by exists p).
    congruence.
  - assert (H : is_regex_pattern (String c p) = true); [|congruence].
    apply existsb_exists. exists c. split; [done|]. cbn [Str.contains].
    assert (H : String.prefix (String c "") (String c p) = true)
      by (apply prefix_app; by exists p).
    by rewrite H.
Qed.

(** X21.  A REGEX rule whose pattern [is_regex_pattern] does not take for
    a regular expression, and which has no backslash, is a substring test
    on the tag as it is given (not normalized, and with the case of the
    letters kept): the pattern is valid, the filter is built, and it matches
    exactly the tags that contain the pattern. *)
Theorem plain_regex_rule_is_substring_test (fr : FilterRule) (tag : string) :
  filter_type fr = FilterType.REGEX →
  is_regex_pattern (pattern fr) = false →
  Str.contains "\" (pattern fr) = false →
  validate_regex_pattern (pattern fr) = Ok true
  ∧ ∃ f, create_filter _filter_registry (Single fr) = Ok f
         ∧ matches f tag = Ok (Str.contains (pattern fr) tag).
Proof.
  intros Hk Hr Hb. pose proof (compile_literal _ (not_regex_pattern_literal _ Hr Hb)) as Hc.
  split.
  - unfold validate_regex_pattern. re_unfold. by rewrite Hc.
  - unfold create_filter. cbn [rule_filter_type]. rewrite Hk.
    change (_filter_registry !! FilterType.REGEX) with (Some RegexFilter_cls).
    cbn [construct rule_pattern]. rsimpl. unfold get_compiled_pattern. re_unfold.
    rewrite Hc. rsimpl. eexists. split; [reflexivity|]. cbn [matches]. f_equal.
    re_unfold. unfold Re.Pattern_search.
    destruct (Str.contains (pattern fr) tag) eqn:E.
    + apply bool_decide_eq_true. by apply search_literal.
    + apply bool_decide_eq_false. rewrite search_literal. congruence.
Qed.

(** ** The star of a wildcard pattern *)

Lemma plain_char (c : ascii) :
  plain c = true →
  Re.is_special c = false ∧ Ascii.eqb c "*" = false ∧ not_backslash c = true
  ∧ is_meta c = false.
Proof. destruct c as [[] [] [] [] [] [] [] []]; try discriminate; done. Qed.

Lemma replace_from_skip_backslash (old new s : string) (c : ascii) :
  not_backslash c = true →
  Str.replace_from (String "\" old) new 0 (String c s)
  = String c (Str.replace_from (String "\" old) new 0 s).
Proof.
  intros Hc. cbn [Str.replace_from String.prefix].
  destruct (ascii_dec "\" c) as [<- | _]; [discriminate | done].
Qed.

Lemma prefix_escaped_star (s : string) :
  String.prefix "\*" (String "\" (String "*" s)) = true.
Proof. apply prefix_app. by exists s. Qed.

Lemma escape_stars (p : string) :
  all_chars star_or_plain p = true →
  Str.replace "\*" ".*" (Re.escape p) = expand_stars p.
Proof.
  cbn [Str.replace]. induction p as [|c p IH]; [done|]. cbn [all_chars].
  intros [Hc Hp]%andb_true_iff. specialize (IH Hp). cbn [Re.escape expand_stars].
  destruct (Ascii.eqb_spec c "*") as [-> | Hne].
  - cbn [Re.is_special Str.replace_from]. rewrite prefix_escaped_star.
    cbn [String.length Nat.sub Str.replace_from]. rewrite IH.
    by rewrite !str_app_cons, str_app_nil_l.
  - unfold star_or_plain in Hc. apply orb_true_iff in Hc as [Hc | Hc].
    2: { apply Ascii.eqb_eq in Hc. done. }
    destruct (plain_char _ Hc) as [Hs [_ [Hb _]]]. rewrite Hs.
    by rewrite (replace_from_skip_backslash _ _ _ _ Hb), IH.
Qed.

Lemma expand_stars_no_backslash (p : string) :
  all_chars star_or_plain p = true → all_chars not_backslash (expand_stars p) = true.
Proof.
  induction p as [|c p IH]; [done|]. cbn [all_chars expand_stars].
  intros [Hc Hp]%andb_true_iff. specialize (IH Hp).
  destruct (Ascii.eqb_spec c "*") as [-> | Hne]; cbn [all_chars]; [by rewrite IH|].
  unfold star_or_plain in Hc. apply orb_true_iff in Hc as [Hc | Hc].
  2: { apply Ascii.eqb_eq in Hc. done. }
  destruct (plain_char _ Hc) as [_ [_ [Hb _]]]. by rewrite Hb, IH.
Qed.

Lemma replace_no_backslash (old new s : string) :
  all_chars not_backslash s = true → Str.replace (String "\" old) new s = s.
Proof.
  cbn [Str.replace]. induction s as [|c s IH]; [done|]. cbn [all_chars].
  intros [Hc Hs]%andb_true_iff.
  by rewrite (replace_from_skip_backslash _ _ _ _ Hc), (IH Hs).
Qed.

(** The rewriting of an escaped character before an escaped question
    mark finds nothing in a text without backslash. *)
Lemma sub_no_backslash (s : string) :
  all_chars not_backslash s = true → Re.sub "\\(.)\\\?" "\1?" s = Ok s.
Proof.
  intros Hs. unfold Re.sub.
  change (Re.compile "\\(.)\\\?" 0) with (Ok question_pattern). rsimpl.
  unfold Re.Pattern_sub.
  change (Re.parse_template "\1?" (Re.groups question_pattern))
    with (Ok [Re.GroupRef 1; Re.Lit "?"]).
  rsimpl. f_equal. change (if (0 =? 0)%nat then None else Some 0) with (@None nat).
  generalize 0 at 2. generalize s at 1 as text.
  induction s as [|c s IH]; intros text pos; [reflexivity|].
  cbn [all_chars] in Hs. apply andb_true_iff in Hs as [Hc Hs].
  cbn [Re.sub_walk Re.exhausted].
  assert (Hno : Re.match_at question_pattern Re.accept_any (String c s) pos = None).
  { unfold Re.match_at, question_pattern. cbn [Re.tokens Re.run Re.atom_matches].
    destruct (Ascii.eqb_spec "\" c) as [<- | _]; [discriminate | done]. }
  rewrite Hno. by rewrite (IH Hs).
Qed.

Lemma wildcard_to_regex_stars (p : string) :
  all_chars star_or_plain p = true →
  wildcard_to_regex p = Ok ("^" +:+ expand_stars p +:+ "$").
Proof.
  intros Hp. unfold wildcard_to_regex. re_unfold.
  pose proof (expand_stars_no_backslash _ Hp) as Hb.
  rewrite (escape_stars _ Hp), (replace_no_backslash _ _ _ Hb), (sub_no_backslash _ Hb).
  reflexivity.
Qed.

Lemma lex_stars (p : string) :
  all_chars star_or_plain p = true → Re.lex (expand_stars p) = Ok (star_lexemes p).
Proof.
  induction p as [|c p IH]; [done|]. cbn [all_chars expand_stars star_lexemes].
  intros [Hc Hp]%andb_true_iff. specialize (IH Hp).
  destruct (Ascii.eqb_spec c "*") as [-> | Hne].
  - cbn [Re.lex]. rewrite IH. reflexivity.
  - unfold star_or_plain in Hc. apply orb_true_iff in Hc as [Hc | Hc].
    2: { apply Ascii.eqb_eq in Hc. done. }
    destruct (plain_char _ Hc) as [_ [_ [_ Hm]]].
    by rewrite (lex_literal_char _ _ Hm), IH.
Qed.

Lemma parse_stars (p : string) (pv : Re.prev) :
  Re.parse (star_lexemes p) pv 0 [] = Ok (star_tokens p, 0).
Proof.
  revert pv. induction p as [|c p IH]; intros pv; [done|].
  cbn [star_lexemes star_tokens].
  destruct (Ascii.eqb c "*").
  - cbn [Re.parse]. rewrite IH. reflexivity.
  - cbn [Re.parse]. destruct p as [|d p]; [reflexivity|].
    cbn [star_lexemes] in *. destruct (Ascii.eqb d "*"); rewrite IH; reflexivity.
Qed.

Lemma compile_stars (p : string) :
  all_chars star_or_plain p = true →
  Re.compile (expand_stars p) 0 = Ok {| Re.tokens := star_tokens p; Re.groups := 0 |}.
Proof.
  intros Hp. unfold Re.compile. change ((0 =? 0)%Z) with true. cbn match.
  rewrite (lex_stars _ Hp). rsimpl. rewrite parse_stars. reflexivity.
Qed.

Lemma Sem_stars (p : string) :
  ∀ pos s rest, Sem (star_tokens p) pos s rest ↔ glob p s.
Proof.
  induction p as [|c p IH]; intros pos s rest; cbn [star_tokens Sem glob]; [done|].
  destruct (Ascii.eqb_spec c "*") as [-> | Hne]; cbn [Sem].
  - split; intros [s1 [s2 [-> [Hall H]]]]; exists s1, s2;
      (split; [done|]; split; [done|]); by apply IH in H || by apply IH.
  - split.
    + intros [d [s' [-> [Hd H]]]]. apply Ascii.eqb_eq in Hd as ->.
      exists s'. split; [done|]. by apply IH in H.
    + intros [s' [-> H]]. exists c, s'. split; [done|].
      split; [apply Ascii.eqb_refl | by apply IH].
Qed.

(** X22.  For a wildcard pattern of letters, digits, underscores and
    stars, [match_with_wildcards] returns, and it returns [True] exactly
    when the text is the pattern with each star replaced by some run of
    characters other than the newline, or such a text followed by one final
    newline. *)
Theorem star_pattern_matches_glob (text p : string) :
  all_chars star_or_plain p = true →
  wildcard_to_regex p = Ok ("^" +:+ expand_stars p +:+ "$")
  ∧ ∃ b, match_with_wildcards text p true = Ok b
         ∧ (b = true ↔ glob p text ∨ ∃ s, text = s +:+ newline ∧ glob p s).
Proof.
  intros Hp. split; [by apply wildcard_to_regex_stars|].
  destruct (match_anchored_Sem text p (expand_stars p) _
              (wildcard_to_regex_stars _ Hp) (compile_stars _ Hp)) as [b [Hb Hiff]].
  exists b. split; [exact Hb|]. rewrite Hiff. cbn [Re.tokens].
  setoid_rewrite Sem_stars. split.
  - intros [s1 [s2 [-> [Hg E]]]]. apply at_end_cases in E as [-> | ->].
    + left. by rewrite str_app_nil_r.
    + right. by exists s1.
  - intros [Hg | [s [-> Hg]]].
    + exists text, "". rewrite str_app_nil_r. split; [reflexivity|].
      split; [exact Hg | reflexivity].
    + exists s, newline. split; [reflexivity|]. split; [exact Hg | reflexivity].
Qed.

(** ** Substituting a literal pattern *)

Lemma parse_template_char (c : ascii) (s : string) (g : nat) :
  not_backslash c = true →
  Re.parse_template (String c s) g
  = (ps ← Re.parse_template s g; Ok (Re.Lit (String c "") :: ps)).
Proof. destruct c as [[] [] [] [] [] [] [] []]; try discriminate; reflexivity. Qed.

Lemma parse_template_literal (r : string) (g : nat) :
  all_chars not_backslash r = true → Re.parse_template r g = Ok (literal_template r).
Proof.
  induction r as [|c r IH]; [done|]. cbn [all_chars literal_template].
  intros [Hc Hr]%andb_true_iff. by rewrite (parse_template_char _ _ _ Hc), (IH Hr).
Qed.

Lemma expand_literal (r text : string) (m : Re.Match) :
  Re.expand (literal_template r) text m = r.
Proof.
  induction r as [|c r IH]; [done|]. cbn [literal_template Re.expand].
  by rewrite IH, str_app_cons, str_app_nil_l.
Qed.

Lemma contains_char_false (x : ascii) (s : string) :
  Str.contains (String x "") s = false →
  all_chars (fun c => negb (Ascii.eqb c x)) s = true.
Proof.
  induction s as [|c s IH]; [done|]. cbn [Str.contains all_chars String.prefix].
  intros [Hp Hs]%orb_false_iff. rewrite (IH Hs), andb_true_r.
  destruct (Ascii.eqb_spec c x) as [-> | Hne]; [|done].
  destruct (ascii_dec x x); [|done]. by rewrite prefix_nil in Hp.
Qed.

Lemma replace_char_absent (x : ascii) (new s : string) :
  Str.contains (String x "") s = false → Str.replace (String x "") new s = s.
Proof.
  cbn [Str.replace]. induction s as [|c s IH]; [done|].
  cbn [Str.contains Str.replace_from]. intros [Hp Hs]%orb_false_iff.
  by rewrite Hp, (IH Hs).
Qed.

(** The scan of [Pattern.sub] with a literal pattern is the scan of
    [str.replace]. *)
Lemma sub_walk_literal (p r text : string) (g : nat) :
  p ≠ "" →
  ∀ s pos skip,
    Re.sub_walk {| Re.tokens := literal_tokens p; Re.groups := g |}
      (literal_template r) text s pos skip None
    = Str.replace_from p r skip s.
Proof.
  intros Hne. induction s as [|c s IH]; intros pos skip.
  - destruct skip; cbn [Re.sub_walk Str.replace_from Re.exhausted]; [|done].
    rewrite match_at_literal. destruct p; [done | reflexivity].
  - destruct skip as [|k]; cbn [Re.sub_walk Str.replace_from Re.exhausted Re.spend];
      [|apply IH].
    rewrite match_at_literal. destruct (String.prefix p (String c s)).
    + cbn [Re.m_end]. rewrite expand_literal.
      destruct (Nat.eqb_spec (pos + String.length p) pos) as [E | _].
      { destruct p; [done | simpl in E; lia]. }
      rewrite IH. do 2 f_equal. lia.
    + by rewrite IH.
Qed.

(** X23.  With a pattern that has no metacharacter and a replacement
    that has neither [$] nor backslash, [substitute_with_capture] is
    [str.replace]: every occurrence of the pattern in the text, found from
    the left without overlap, is replaced. *)
Theorem literal_substitution_is_str_replace (text p r : string) :
  p ≠ "" →
  is_regex_pattern p = false → Str.contains "\" p = false →
  Str.contains "$" r = false → Str.contains "\" r = false →
  substitute_with_capture text p r = Ok (Str.replace p r text).
Proof.
  intros Hne Hr Hb Hd Hrb. unfold substitute_with_capture, get_compiled_pattern.
  re_unfold. rewrite (compile_literal _ (not_regex_pattern_literal _ Hr Hb)). rsimpl.
  rewrite (replace_char_absent _ _ _ Hd). unfold Re.Pattern_sub.
  rewrite (parse_template_literal r); [|by apply (contains_char_false "\")]. rsimpl.
  f_equal. change (if (0 =? 0)%nat then None else Some 0) with (@None nat).
  rewrite (sub_walk_literal _ _ _ _ Hne). by destruct p.
Qed.

(** ** Rule configurations and the text format *)

Lemma lstrip_suffix (s : string) : ∃ l, s = l +:+ Str.lstrip s.
Proof.
  induction s as [|c s [l IH]]; [by exists ""|]. cbn [Str.lstrip].
  destruct (Str.isspace c); [|by exists ""].
  exists (String c l). by rewrite str_app_cons, <- IH.
Qed.

Lemma rstrip_prefix (s : string) : ∃ r, s = Str.rstrip s +:+ r.
Proof.
  induction s as [|c s [r IH]]; [by exists ""|]. cbn [Str.rstrip].
  destruct (Str.rstrip s) as [|d t] eqn:R.
  - destruct (Str.isspace c); [by exists (String c s)|].
    exists s. by rewrite str_app_cons, str_app_nil_l.
  - exists r. by rewrite str_app_cons, <- IH.
Qed.

(** Stripping does not make a substring appear. *)
Lemma contains_strip (p s : string) :
  Str.contains p s = false → Str.contains p (Str.strip s) = false.
Proof.
  intros Hno. destruct (Str.contains p (Str.strip s)) eqn:E; [|done].
  apply contains_spec in E as [a [b E]]. unfold Str.strip in E.
  destruct (rstrip_prefix s) as [r Hr], (lstrip_suffix (Str.rstrip s)) as [l Hl].
  assert (H : Str.contains p s = true); [|congruence].
  apply contains_spec. exists (l +:+ a), (b +:+ r).
  rewrite Hr, Hl, E at 1. by rewrite !str_app_assoc.
Qed.

Lemma contains_before_bar (a : string) :
  Str.contains "||" (a +:+ "|") = false → Str.contains "||" a = false.
Proof.
  intros Hno. destruct (Str.contains "||" a) eqn:E; [|done].
  apply contains_spec in E as [x [y ->]].
  assert (H : Str.contains "||" ((x +:+ "||" +:+ y) +:+ "|") = true); [|congruence].
  apply contains_spec. exists x, (y +:+ "|"). by rewrite !str_app_assoc.
Qed.

Lemma take_drop (n : nat) (s : string) : Str.take n s +:+ Str.drop n s = s.
Proof.
  revert s. induction n as [|n IH]; intros s; [by destruct s|].
  destruct s as [|c s]; [done|]. cbn [Str.take Str.drop].
  by rewrite str_app_cons, IH.
Qed.

(** A line between two slashes. *)
Lemma between_slashes (l : string) :
  String.prefix "/" l = true → endswith "/" l = true → 2 ≤ String.length l →
  l = "/" +:+ Str.take (String.length l - 2) (Str.drop 1 l) +:+ "/".
Proof.
  intros Hp He Hl. apply prefix_app in Hp as [r ->].
  rewrite str_app_cons, str_app_nil_l in *. cbn [String.length] in *.
  unfold endswith in He. apply andb_true_iff in He as [_ He].
  apply String.eqb_eq in He. cbn [String.length Str.drop] in *.
  replace (S (String.length r) - 1) with (S (String.length r - 1)) in He by lia.
  cbn [Str.drop] in He. replace (S (String.length r) - 2) with (String.length r - 1) by lia.
  rewrite str_app_cons, str_app_nil_l. f_equal. rewrite <- He. by rewrite take_drop.
Qed.

Lemma FilterRuleConfig_init_Ok (ft pat : string) (prio : Z) (repl : option string)
    (en : bool) (descr : option string) (c : FilterRuleConfig) :
  FilterRuleConfig_init ft pat prio repl en descr = Ok c →
  ft ∈ FilterType_members ∧ (0 ≤ prio)%Z
  ∧ c = {| fc_filter_type := ft; fc_pattern := pat; fc_priority := prio;
           fc_replacement := repl; fc_enabled := en; fc_description := descr |}.
Proof.
  unfold FilterRuleConfig_init, FilterRuleConfig_validators.validate_filter_type,
    FilterRuleConfig_validators.validate_priority, FilterType_call.
  destruct (bool_decide (ft ∈ FilterType_members)) eqn:M; rsimpl; [|discriminate].
  destruct (Z.ltb_spec prio 0); rsimpl; [discriminate|].
  intros [= <-]. by apply bool_decide_eq_true in M.
Qed.

Lemma parse_text_line_Some (line : string) (default_priority : Z) (c : FilterRuleConfig) :
  _parse_text_line line default_priority = Ok (Some c) →
  fc_pattern c ≠ "" ∧ fc_priority c = default_priority
  ∧ (0 ≤ default_priority)%Z ∧ fc_enabled c = true
  ∧ ((fc_filter_type c = FilterType.REPLACE
      ∧ ∃ a b, Str.strip line = a +:+ "||" +:+ b
               ∧ Str.contains "||" (a +:+ "|") = false
               ∧ fc_pattern c = Str.strip a
               ∧ fc_replacement c = Some (Str.strip b) ∧ Str.strip b ≠ "")
     ∨ (fc_filter_type c = FilterType.REGEX
        ∧ Str.contains "||" (Str.strip line) = false
        ∧ Str.strip line = "/" +:+ fc_pattern c +:+ "/"
        ∧ fc_replacement c = None)
     ∨ (fc_filter_type c = FilterType.PLAIN_KEYWORD
        ∧ Str.contains "||" (Str.strip line) = false
        ∧ fc_pattern c = Str.strip line
        ∧ fc_replacement c = None)).
Proof.
  unfold _parse_text_line. cbv zeta.
  destruct (String.eqb_spec (Str.strip line) "") as [E | Hne]; [discriminate|].
  destruct (Str.contains "||" (Str.strip line)) eqn:B.
  - pose proof (split_1_bars (Str.strip line)) as H. rewrite B in H.
    destruct H as [a [b [Hab Hno]]]. rewrite Hab at 1. rewrite (split_1_first _ _ Hno).
    destruct (String.eqb_spec (Str.strip a) "") as [|Ha]; [discriminate|].
    destruct (String.eqb_spec (Str.strip b) "") as [|Hb]; [discriminate|]. cbn [orb].
    destruct (FilterRuleConfig_init "replace" _ _ _ _ _) as [c'|] eqn:I; rsimpl;
      [|discriminate].
    intros [= <-]. apply FilterRuleConfig_init_Ok in I as [_ [Hp ->]].
    cbn [fc_pattern fc_priority fc_enabled fc_filter_type fc_replacement].
    repeat split; try done. left. split; [done|]. exists a, b. done.
  - destruct (String.prefix "/" (Str.strip line) && endswith "/" (Str.strip line)
              && (2 <=? String.length (Str.strip line))%nat) eqn:S.
    + apply andb_true_iff in S as [[Sp Se]%andb_true_iff Sl]. apply Nat.leb_le in Sl.
      pose proof (between_slashes _ Sp Se Sl) as Hl.
      destruct (String.eqb_spec
                  (Str.take (String.length (Str.strip line) - 2)
                     (Str.drop 1 (Str.strip line))) "") as [|Hpat]; [discriminate|].
      destruct (FilterRuleConfig_init "regex" _ _ _ _ _) as [c'|] eqn:I; rsimpl;
        [|discriminate].
      intros [= <-]. apply FilterRuleConfig_init_Ok in I as [_ [Hp ->]].
      cbn [fc_pattern fc_priority fc_enabled fc_filter_type fc_replacement].
      repeat split; try done. right. left. done.
    + destruct (String.eqb_spec (Str.strip line) ""); [done|]. cbn [negb].
      destruct (FilterRuleConfig_init "plain_keyword" _ _ _ _ _) as [c'|] eqn:I; rsimpl;
        [|discriminate].
      intros [= <-]. apply FilterRuleConfig_init_Ok in I as [_ [Hp ->]].
      cbn [fc_pattern fc_priority fc_enabled fc_filter_type fc_replacement].
      repeat split; try done. right. right. done.
Qed.


Section ConfiguredEngines.
Context {re : ReLibrary}.

(** X25.  A replacement line of the text format never takes effect.  The
    rule that [_parse_text_line] makes of a line with [||] holds the text
    before the [||] as its pattern, without the [||] that the REPLACE
    filter looks for in the pattern of its rule; so [create_filter] raises
    the [ValueError] of [parse_replacement_pattern], and the constructor of
    the engine prints a warning and goes on without the rule. *)
Theorem text_replace_line_is_skipped (line : string) (default_priority : Z)
    (c : FilterRuleConfig) (rs : list AnyFilterRule) :
  _parse_text_line line default_priority = Ok (Some c) →
  Str.contains "||" (Str.strip line) = true →
  ∃ fr, to_filter_rule c = Ok fr
        ∧ filter_type fr = FilterType.REPLACE ∧ enabled fr = true
        ∧ pattern fr = fc_pattern c
        ∧ Str.contains "||" (pattern fr) = false
        ∧ TagFilterEngine_init _filter_registry [Single fr]
          = (["Warning: Invalid replacement pattern: " +:+ pattern fr
              +:+ ". Expected format: 'original||replacement'"],
             Ok {| rules := [Single fr]; filters := [] |})
        ∧ snd (_create_filters _filter_registry (Single fr :: rs))
          = snd (_create_filters _filter_registry rs).
Proof.
  intros H B.
  destruct (parse_text_line_Some line default_priority c H)
    as [_ [_ [_ [En [Hrep | [Hreg | Hkw]]]]]].
  2: { destruct Hreg as [_ [B' _]]. congruence. }
  2: { destruct Hkw as [_ [B' _]]. congruence. }
  destruct Hrep as [Hk [a [b [_ [Hno [Hp _]]]]]].
  unfold to_filter_rule, FilterType_call. rewrite Hk.
  rewrite bool_decide_eq_true_2
    by (unfold FilterType_members; rewrite !elem_of_cons; tauto).
  rsimpl. eexists. split; [reflexivity|]. cbn [filter_type enabled pattern].
  assert (Hnone : Str.contains "||" (fc_pattern c) = false).
  { rewrite Hp. by apply contains_strip, contains_before_bar. }
  split; [done|]. split; [done|]. split; [done|]. split; [done|].
  set (fr := {| filter_type := FilterType.REPLACE; pattern := fc_pattern c;
                priority := fc_priority c; replacement := fc_replacement c;
                enabled := fc_enabled c; description := fc_description c |}).
  assert (C : create_filter _filter_registry (Single fr)
              = Raise (ValueError ("Invalid replacement pattern: " +:+ fc_pattern c
                                   +:+ ". Expected format: 'original||replacement'")))
    by (apply (create_filter_no_separator fr); [by left | done]).
  split.
  - unfold TagFilterEngine_init. cbn [_create_filters rule_enabled enabled fr].
    fold fr. by rewrite En, C.
  - cbn [_create_filters rule_enabled enabled fr]. fold fr. rewrite En, C.
    by destruct (_create_filters _filter_registry rs).
Qed.

(** X26.  A rule configuration that passed its validators has a kind that
    is a member of [FilterType] and a priority that is not negative;
    [to_filter_rule] then returns the rule with the same fields, and the
    kind of that rule is one the registry of the factory knows, so that the
    engine never skips such a rule as of unknown kind.  The same holds for
    a group configuration, whose rule has at least one pattern. *)
Theorem validated_configuration_gives_known_kind (ft pat : string) (prio : Z)
    (repl : option string) (en : bool) (descr : option string)
    (pats : list string) :
  (∀ c, FilterRuleConfig_init ft pat prio repl en descr = Ok c →
        ft ∈ FilterType_members ∧ (0 ≤ prio)%Z
        ∧ to_filter_rule c
          = Ok {| filter_type := ft; pattern := pat; priority := prio;
                  replacement := repl; enabled := en; description := descr |}
        ∧ ∀ fr, to_filter_rule c = Ok fr →
                known_kind _filter_registry (Single fr) = true)
  ∧ (∀ c, GroupFilterRuleConfig_init ft pats prio en descr = Ok c →
          ft = FilterType.GROUP ∧ pats ≠ [] ∧ (0 ≤ prio)%Z
          ∧ to_group_filter_rule c
            = Ok {| g_filter_type := FilterType.GROUP; patterns := pats;
                    g_priority := prio; g_enabled := en; g_description := descr |}
          ∧ ∀ g, to_group_filter_rule c = Ok g →
                 known_kind _filter_registry (Group g) = true).
Proof.
  split.
  - intros c H. apply FilterRuleConfig_init_Ok in H as [Hm [Hp ->]].
    split; [done|]. split; [done|].
    unfold to_filter_rule, FilterType_call. cbn [fc_filter_type].
    rewrite bool_decide_eq_true_2 by done. rsimpl. split; [done|].
    intros fr [= <-]. unfold known_kind. cbn [rule_filter_type filter_type].
    apply bool_decide_eq_true_2. unfold FilterType_members in Hm.
    rewrite !elem_of_cons, elem_of_nil in Hm.
    destruct Hm as [-> | [-> | [-> | [-> | [-> | [-> | []]]]]]]; vm_compute; eauto.
  - intros c. unfold GroupFilterRuleConfig_init,
      GroupFilterRuleConfig_validators.validate_filter_type,
      GroupFilterRuleConfig_validators.validate_patterns,
      GroupFilterRuleConfig_validators.validate_priority.
    destruct (String.eqb_spec ft "group") as [-> | Hne]; cbn [negb]; rsimpl;
      [|discriminate].
    destruct pats as [|p pats]; rsimpl; [discriminate|].
    destruct (Z.ltb_spec prio 0); rsimpl; [discriminate|].
    intros [= <-]. split; [done|]. split; [done|]. split; [done|].
    unfold to_group_filter_rule, GroupFilterRule_from_list.
    cbn [c_patterns c_priority c_enabled c_description]. split; [done|].
    intros g [= <-]. vm_compute. eauto.
Qed.

(** X27.  Nothing keeps [FilterRuleConfig] from the kind [group]: the
    validators accept it, [to_filter_rule] gives a single-pattern rule of
    that kind, and the factory builds a [GroupFilter] around it without a
    warning.  That filter reads the [patterns] its rule does not have, so
    every [filter_tags] call of the engine on a list that is not empty
    raises [AttributeError]. *)
Theorem group_kind_in_single_rule_raises (pat : string) (prio : Z)
    (repl descr : option string) (tags : list string) :
  (0 ≤ prio)%Z → tags ≠ [] →
  ∃ c fr e, FilterRuleConfig_init "group" pat prio repl true descr = Ok c
            ∧ to_filter_rule c = Ok fr
            ∧ TagFilterEngine_init _filter_registry [Single fr] = ([], Ok e)
            ∧ filters e = [GroupFilter (Single fr)]
            ∧ filter_tags e tags = Raise (AttributeError "patterns").
Proof.
  intros Hp Hne.
  assert (Hi : FilterRuleConfig_init "group" pat prio repl true descr
               = Ok {| fc_filter_type := "group"; fc_pattern := pat; fc_priority := prio;
                       fc_replacement := repl; fc_enabled := true;
                       fc_description := descr |}).
  { unfold FilterRuleConfig_init, FilterRuleConfig_validators.validate_priority.
    change (FilterRuleConfig_validators.validate_filter_type "group") with (Ok "group").
    rsimpl. destruct (Z.ltb_spec prio 0); [lia | done]. }
  eexists _, _, _. split; [exact Hi|]. split; [reflexivity|].
  split; [reflexivity|]. split; [reflexivity|].
  destruct tags as [|t tags]; [done|]. reflexivity.
Qed.

Lemma to_filter_rules_loop_enabled (rcs : list AnyRuleConfig) (rs : list AnyFilterRule) :
  to_filter_rules_loop rcs = Ok rs →
  to_filter_rules_loop (List.filter config_enabled rcs) = Ok (List.filter rule_enabled rs)
  ∧ length rs = length rcs.
Proof.
  revert rs. induction rcs as [|rc rcs IH]; intros rs; cbn [to_filter_rules_loop].
  - by intros [= <-].
  - destruct rc as [c|g]; cbn [List.filter config_enabled]; rsimpl.
    + destruct (to_filter_rule c) as [r|] eqn:R; rsimpl; [|discriminate].
      destruct (to_filter_rules_loop rcs) as [rs'|]; rsimpl; [|discriminate].
      intros [= <-]. destruct (IH _ eq_refl) as [IH1 IH2].
      assert (He : enabled r = fc_enabled c).
      { unfold to_filter_rule in R. destruct (FilterType_call _); rsimpl; [|discriminate].
        by injection R as <-. }
      cbn [List.filter rule_enabled length]. rewrite He, IH2.
      destruct (fc_enabled c); [|by split]. cbn [to_filter_rules_loop]. rsimpl.
      rewrite R, IH1. rsimpl. by split.
    + destruct g as [gft gpats gprio gen gdescr].
      unfold to_group_filter_rule, GroupFilterRule_from_list.
      cbn [c_patterns c_priority c_enabled c_description]. rsimpl.
      destruct (to_filter_rules_loop rcs) as [rs'|]; rsimpl; [|discriminate].
      intros [= <-]. destruct (IH _ eq_refl) as [IH1 IH2].
      cbn [List.filter rule_enabled g_enabled length]. rewrite IH2.
      destruct gen; [|by split]. cbn [to_filter_rules_loop]. rsimpl.
      unfold to_group_filter_rule, GroupFilterRule_from_list.
      cbn [c_patterns c_priority c_enabled c_description]. rsimpl.
      rewrite IH1. rsimpl. by split.
Qed.

(** X28.  [to_filter_rules] gives one rule for each configured rule, in
    order, and the rules of the configurations that [get_enabled_rules]
    keeps are the enabled ones among them; an engine built from a
    configuration is therefore the one built from its enabled rules
    alone. *)
Theorem enabled_configurations_decide_the_engine (cfg : TagFilterConfig)
    (rs : list AnyFilterRule) (registry : gmap string FilterClass) :
  to_filter_rules cfg = Ok rs →
  length rs = length (cfg_rules cfg)
  ∧ to_filter_rules_loop (get_enabled_rules cfg) = Ok (List.filter rule_enabled rs)
  ∧ _create_filters registry rs
    = _create_filters registry (List.filter rule_enabled rs).
Proof.
  intros H. destruct (to_filter_rules_loop_enabled _ _ H) as [He Hl].
  split; [done|]. split; [done|]. apply create_filters_enabled_only.
Qed.

End ConfiguredEngines.

(** ** The further properties at concrete inputs *)

Lemma engine_init_accounts_for_rules_witness :
  TagFilterEngine_init _filter_registry three_rules
  = (["Warning: Unknown filter type: fuzzy"], Ok nsfw_bad_good_engine)
  ∧ get_filter_count nsfw_bad_good_engine = 2
  ∧ length (List.filter rule_enabled three_rules) = 3.
Proof.
  assert (H : TagFilterEngine_init _filter_registry three_rules
              = (["Warning: Unknown filter type: fuzzy"], Ok nsfw_bad_good_engine))
    by reflexivity.
  split; [exact H|].
  destruct (engine_init_accounts_for_rules _ _ _ _ H) as [_ [_ [Hc [_ Hl]]]].
  split; [rewrite Hc; reflexivity | rewrite <- Hl; reflexivity].
Defined.

Lemma malformed_replace_rule_skipped_witness :
  enabled no_bars = true
  ∧ Str.contains "||" (pattern no_bars) = false
  ∧ _create_filters _filter_registry [Single no_bars; nsfw_rule]
    = (["Warning: Invalid replacement pattern: bad. Expected format: 'original||replacement'"],
       Ok [PlainKeywordFilter nsfw_rule]).
Proof.
  assert (He : enabled no_bars = true) by reflexivity.
  assert (Hc : Str.contains "||" (pattern no_bars) = false) by reflexivity.
  split; [exact He|]. split; [exact Hc|].
  destruct (malformed_replace_rule_skipped no_bars [] [nsfw_rule] He
              (or_introl eq_refl) Hc) as [-> _].
  reflexivity.
Defined.

Lemma invalid_regex_rule_aborts_construction_witness :
  re_compile (pattern open_paren) 0 = Raise re_error
  ∧ (∃ out x, TagFilterEngine_init _filter_registry [nsfw_rule; Single open_paren]
              = (out, Raise x))
  ∧ TagFilterEngine_init _filter_registry [Single open_paren; nsfw_rule]
    = ([], Raise re_error).
Proof.
  assert (Hc : re_compile (pattern open_paren) 0 = Raise re_error) by reflexivity.
  split; [exact Hc|].
  destruct (invalid_regex_rule_aborts_construction open_paren
              [nsfw_rule; Single open_paren] eq_refl eq_refl Hc
              (or_intror (or_introl eq_refl))) as [H1 H2].
  split; [exact H1 | apply H2].
Defined.

Lemma filter_tags_shape_witness :
  filter_tags nsfw_hair_engine ["red_hair"; "nsfw_content"; "smile"] = Ok ["smile"]
  ∧ ["smile"] `sublist_of` ["red_hair"; "nsfw_content"; "smile"].
Proof.
  assert (H : filter_tags nsfw_hair_engine ["red_hair"; "nsfw_content"; "smile"]
              = Ok ["smile"]) by (vm_compute; reflexivity).
  split; [exact H|].
  destruct (filter_tags_shape _ _ _ H) as [_ [Hs _]]. apply Hs.
  repeat constructor.
Defined.

Lemma filter_tags_settles_without_replacement_witness :
  filter_tags nsfw_steam_engine ["steam"; "Sweat"; "blush"; "nsfw_x"; "smile"]
  = Ok ["smile"]
  ∧ filter_tags nsfw_steam_engine ["smile"] = Ok ["smile"].
Proof.
  assert (H : filter_tags nsfw_steam_engine
                ["steam"; "Sweat"; "blush"; "nsfw_x"; "smile"] = Ok ["smile"])
    by (vm_compute; reflexivity).
  split; [exact H|].
  assert (Hall : Forall (fun f => is_replace_kind f = false) (filters nsfw_steam_engine))
    by (repeat constructor).
  exact (filter_tags_settles_without_replacement _ _ _ Hall H).
Defined.

Lemma dropping_engine_keeps_the_unmatched_witness :
  filter_tags nsfw_hair_engine ["red_hair"; "nsfw_content"; "smile"] = Ok ["smile"]
  ∧ List.filter (unmatched (filters nsfw_hair_engine))
      ["red_hair"; "nsfw_content"; "smile"] = ["smile"].
Proof.
  assert (H : filter_tags nsfw_hair_engine ["red_hair"; "nsfw_content"; "smile"]
              = Ok ["smile"]) by (vm_compute; reflexivity).
  split; [exact H|].
  assert (Hall : Forall (fun f => is_enabled f = true → is_drop_filter f = true)
                   (filters nsfw_hair_engine)) by (repeat constructor).
  destruct (dropping_engine_keeps_the_unmatched nsfw_hair_engine nsfw_hair_engine
              _ _ Hall H) as [Hr _].
  symmetry. exact Hr.
Defined.

Lemma filter_tags_piecewise_witness :
  filter_tags nsfw_hair_engine ["red_hair"; "smile"] = Ok ["smile"]
  ∧ filter_tags nsfw_hair_engine ["nsfw_content"; "cat"] = Ok ["cat"]
  ∧ filter_tags nsfw_hair_engine (["red_hair"; "smile"] ++ ["nsfw_content"; "cat"])
    = Ok (["smile"] ++ ["cat"]).
Proof.
  assert (Ha : filter_tags nsfw_hair_engine ["red_hair"; "smile"] = Ok ["smile"])
    by (vm_compute; reflexivity).
  assert (Hb : filter_tags nsfw_hair_engine ["nsfw_content"; "cat"] = Ok ["cat"])
    by (vm_compute; reflexivity).
  split; [exact Ha|]. split; [exact Hb|].
  assert (Hall : Forall (fun f => is_enabled f = true → is_BaseFilter f = true)
                   (filters nsfw_hair_engine)) by (repeat constructor).
  destruct (filter_tags_piecewise nsfw_hair_engine
              ["red_hair"; "smile"] ["nsfw_content"; "cat"] Hall) as [H _].
  exact (H _ _ Ha Hb).
Defined.

Lemma optimized_stream_yields_filter_tags_witness :
  optimized_filter_tags_stream nsfw_by_two unit_clock ["nsfw_content"; "smile"; "red_hair"]
  = (["smile"; "red_hair"], Ok nsfw_by_two_after)
  ∧ filter_tags nsfw_engine ["nsfw_content"; "smile"; "red_hair"]
    = Ok ["smile"; "red_hair"]
  ∧ total_processed (stats nsfw_by_two_after) = 3%Z.
Proof.
  assert (H : optimized_filter_tags_stream nsfw_by_two unit_clock
                ["nsfw_content"; "smile"; "red_hair"]
              = (["smile"; "red_hair"], Ok nsfw_by_two_after)) by reflexivity.
  split; [exact H|].
  assert (Hall : Forall (fun f => is_enabled f = true → is_BaseFilter f = true)
                   (filters (base nsfw_by_two))) by (repeat constructor).
  destruct (optimized_stream_yields_filter_tags _ _ _ _ _ Hall H) as [Hf [_ [Hp _]]].
  split; [exact Hf | rewrite Hp; reflexivity].
Defined.

Lemma memory_efficient_stream_selects_witness :
  filter_tags_stream nsfw_engine ["nsfw_content"; "smile"] = Ok ["nsfw_content"; "smile"]
  ∧ filter_tags nsfw_engine ["nsfw_content"; "smile"] = Ok ["smile"].
Proof.
  assert (H : ∃ r, filter_tags_stream nsfw_engine ["nsfw_content"; "smile"] = Ok r)
    by (eexists; vm_compute; reflexivity).
  destruct H as [r H]. split; [|vm_compute; reflexivity].
  destruct (memory_efficient_stream_selects _ _ _ H) as [_ Hall].
  rewrite H, Hall; [reflexivity | repeat constructor].
Defined.

Lemma engine_follows_its_rules_witness :
  snd (TagFilterEngine_init _filter_registry (rules nsfw_engine)) = Ok nsfw_engine
  ∧ add_rule _filter_registry nsfw_engine hair_rule = ([], Ok nsfw_then_hair_engine)
  ∧ snd (TagFilterEngine_init _filter_registry [nsfw_rule; hair_rule])
    = Ok nsfw_then_hair_engine.
Proof.
  assert (H : snd (TagFilterEngine_init _filter_registry (rules nsfw_engine))
              = Ok nsfw_engine) by reflexivity.
  assert (Ha : add_rule _filter_registry nsfw_engine hair_rule
               = ([], Ok nsfw_then_hair_engine)) by reflexivity.
  split; [exact H|]. split; [exact Ha|].
  destruct (engine_follows_its_rules _filter_registry nsfw_engine hair_rule H)
    as [Hadd _].
  exact (Hadd _ _ Ha).
Defined.

Lemma add_then_remove_rule_witness :
  (hair_rule ∉ rules nsfw_engine)
  ∧ add_rule _filter_registry nsfw_engine hair_rule = ([], Ok nsfw_then_hair_engine)
  ∧ snd (remove_rule _filter_registry nsfw_then_hair_engine hair_rule) = Ok nsfw_engine.
Proof.
  assert (Hn : hair_rule ∉ rules nsfw_engine).
  { intros H. apply list_elem_of_singleton in H. discriminate H. }
  assert (Ha : add_rule _filter_registry nsfw_engine hair_rule
               = ([], Ok nsfw_then_hair_engine)) by reflexivity.
  split; [exact Hn|]. split; [exact Ha|].
  exact (add_then_remove_rule _filter_registry nsfw_engine _ hair_rule []
           eq_refl Hn Ha).
Defined.

Lemma replace_rule_rewrites_equal_tags_witness :
  create_filter _filter_registry (Single bad_good)
  = Ok (ReplaceFilter (Single bad_good) "bad" "good")
  ∧ apply (ReplaceFilter (Single bad_good) "bad" "good") ["bad"; "Bad"; "bad_dog"]
    = Ok ["good"; "Bad"; "bad_dog"].
Proof.
  assert (H : create_filter _filter_registry (Single bad_good)
              = Ok (ReplaceFilter (Single bad_good) "bad" "good")) by reflexivity.
  split; [exact H|].
  destruct (replace_rule_rewrites_equal_tags bad_good _ ["bad"; "Bad"; "bad_dog"]
              eq_refl eq_refl H) as [o [r [Hp [Ha _]]]].
  rewrite Ha. injection Hp as <- <-. reflexivity.
Defined.


Lemma keyword_outside_normal_form_never_matches_witness :
  never_normal " " = true
  ∧ matches (PlainKeywordFilter (Single bad_word_keyword)) "Bad Word" = Ok false
  ∧ matches (PlainKeywordFilter (Single bad_word_keyword)) "bad_word" = Ok false.
Proof.
  assert (Hn : never_normal " " = true) by reflexivity.
  split; [exact Hn|].
  split.
  - exact (proj1 (keyword_outside_normal_form_never_matches bad_word_keyword " "
                    "Bad Word" [] [] eq_refl Hn)).
  - reflexivity.
Defined.

Lemma plain_regex_rule_is_substring_test_witness :
  is_regex_pattern (pattern hair_regex) = false
  ∧ ∃ f, create_filter _filter_registry (Single hair_regex) = Ok f
         ∧ matches f "red_hair" = Ok true ∧ matches f "Red_Hair" = Ok false.
Proof.
  assert (Hr : is_regex_pattern (pattern hair_regex) = false) by reflexivity.
  split; [exact Hr|].
  destruct (plain_regex_rule_is_substring_test hair_regex "red_hair"
              eq_refl Hr eq_refl) as [_ [f [Hf Hm]]].
  exists f. split; [exact Hf|]. split; [exact Hm|].
  destruct (plain_regex_rule_is_substring_test hair_regex "Red_Hair"
              eq_refl Hr eq_refl) as [_ [f' [Hf' Hm']]].
  rewrite Hf in Hf'. injection Hf' as <-. exact Hm'.
Defined.

Lemma star_pattern_matches_glob_witness :
  all_chars star_or_plain "*_hair" = true
  ∧ wildcard_to_regex "*_hair" = Ok "^.*_hair$"
  ∧ match_with_wildcards "red_hair" "*_hair" true = Ok true.
Proof.
  assert (Hp : all_chars star_or_plain "*_hair" = true) by reflexivity.
  split; [exact Hp|].
  destruct (star_pattern_matches_glob "red_hair" "*_hair" Hp) as [Hw [b [Hb Hiff]]].
  split; [exact Hw|]. rewrite Hb. f_equal. apply Hiff. left.
  exists "red", "_hair". split; [reflexivity|]. split; [reflexivity|].
  simpl. repeat (eexists; split; [reflexivity|]). reflexivity.
Defined.

Lemma literal_substitution_is_str_replace_witness :
  is_regex_pattern "old" = false
  ∧ substitute_with_capture "old_gold" "old" "new" = Ok "new_gnew".
Proof.
  assert (Hr : is_regex_pattern "old" = false) by reflexivity.
  split; [exact Hr|].
  assert (Hne : "old" ≠ "") by discriminate.
  rewrite (literal_substitution_is_str_replace "old_gold" "old" "new"
             Hne Hr eq_refl eq_refl eq_refl).
  reflexivity.
Defined.

Lemma text_replace_line_is_skipped_witness :
  _parse_text_line "bad_word || good_word" 0 = Ok (Some bad_word_line)
  ∧ to_filter_rule bad_word_line = Ok bad_word_rule
  ∧ TagFilterEngine_init _filter_registry [Single bad_word_rule]
    = (["Warning: Invalid replacement pattern: bad_word. Expected format: 'original||replacement'"],
       Ok {| rules := [Single bad_word_rule]; filters := [] |}).
Proof.
  assert (H : _parse_text_line "bad_word || good_word" 0 = Ok (Some bad_word_line))
    by (vm_compute; reflexivity).
  split; [exact H|].
  destruct (text_replace_line_is_skipped "bad_word || good_word" 0 bad_word_line []
              H eq_refl) as [fr [Hfr [_ [_ [_ [_ [Hi _]]]]]]].
  assert (Hr : to_filter_rule bad_word_line = Ok bad_word_rule) by reflexivity.
  split; [exact Hr|]. rewrite Hr in Hfr. injection Hfr as <-. exact Hi.
Defined.

Lemma group_kind_in_single_rule_raises_witness :
  ∃ c fr e, FilterRuleConfig_init "group" "steam" 0 None true None = Ok c
            ∧ to_filter_rule c = Ok fr
            ∧ TagFilterEngine_init _filter_registry [Single fr] = ([], Ok e)
            ∧ filters e = [GroupFilter (Single fr)]
            ∧ filter_tags e ["steam"] = Raise (AttributeError "patterns").
Proof.
  assert (Hp : (0 ≤ 0)%Z) by lia.
  assert (Hne : ["steam"] ≠ @nil string) by discriminate.
  exact (group_kind_in_single_rule_raises "steam" 0 None None ["steam"] Hp Hne).
Defined.

Lemma enabled_configurations_decide_the_engine_witness :
  to_filter_rules two_keywords
  = Ok [Single {| filter_type := "plain_keyword"; pattern := "temp"; priority := 5;
                  replacement := None; enabled := false; description := None |};
        nsfw_rule]
  ∧ to_filter_rules_loop (get_enabled_rules two_keywords) = Ok [nsfw_rule].
Proof.
  assert (H : to_filter_rules two_keywords
    = Ok [Single {| filter_type := "plain_keyword"; pattern := "temp"; priority := 5;
                    replacement := None; enabled := false; description := None |};
          nsfw_rule]) by reflexivity.
  split; [exact H|].
  destruct (enabled_configurations_decide_the_engine two_keywords _ _filter_registry H)
    as [_ [He _]].
  exact He.
Defined.
